(** * Bake configuration resolution (docker-buildx, package [bake])

    A shallow embedding of the resolution engine of [bake.go]: inheritance
    merging ([Target.Merge], [Config.target], [Config.ResolveTarget]),
    override parsing and application ([Config.newOverrides],
    [Target.AddOverrides]), group flattening ([Config.group],
    [Config.ResolveGroup]), link resolution ([Config.loadLinks]), matrix
    expansion ([Target.GetEvalContexts]) and the helpers they use.

    Conventions.
    - A Go [*string] / [*bool] is an [option]; [None] is the nil pointer.
    - A Go [[]string] is an [option (list string)]; [None] is the nil slice,
      [Some []] an allocated empty one (the code tests [!= nil]).
    - A Go map is a [gmap]; a map field that may be nil is an [option] of it.
    - [range] over a Go map visits the entries in an unspecified order.
      Where the order is observable the model takes the order from
      [range_order], about which only [range_order_perm] is known.
    - Recursive functions carry a [fuel] argument bounding the call depth;
      running out of it is the error [OutOfFuel], which ResolveGroup and
      ResolveTarget are shown never to produce. *)

From Stdlib Require Import String Ascii List Sorted.
From stdpp Require Import base option gmap strings list fin_maps.

Open Scope string_scope.
Open Scope list_scope.

(** ** Errors *)

Inductive error :=
  | Errorf (msg : string)   (* errors.Errorf / errors.Wrap: the message *)
  | Panic                   (* a run-time panic: nil dereference, index out of range *)
  | OutOfFuel.              (* the model's recursion bound was reached *)

Inductive res (A : Type) :=
  | Ok (a : A)
  | Fail (e : error).
Arguments Ok {A} a.
Arguments Fail {A} e.

#[global] Instance res_ret : MRet res := fun A a => Ok a.
#[global] Instance res_bind : MBind res := fun A B k r =>
  match r with
  | Ok a => k a
  | Fail e => Fail e
  end.

(** The result of a parser of another package: a value or an error, of
    which the message is kept. *)
Inductive parsed (A : Type) :=
  | Parsed (a : A)
  | ParseError (msg : string).
Arguments Parsed {A} a.
Arguments ParseError {A} msg.

Definition of_parsed {A} (p : parsed A) : res A :=
  match p with
  | Parsed a => Ok a
  | ParseError msg => Fail (Errorf msg)
  end.

(** errors.Wrap(err, msg): the message is prefixed. *)
Definition Wrap {A} (r : res A) (msg : string) : res A :=
  match r with
  | Fail (Errorf m) => Fail (Errorf (msg +:+ ": " +:+ m))
  | _ => r
  end.

(** ** Strings *)

(** [s] occurs in [msg]. *)
Definition Contains (msg s : string) : Prop :=
  exists pre post, msg = pre +:+ s +:+ post.

(** strings.HasPrefix *)
Definition HasPrefix (s p : string) : bool := String.prefix p s.

(** strings.TrimPrefix *)
Definition TrimPrefix (s p : string) : string :=
  if HasPrefix s p then String.substring (String.length p) (String.length s - String.length p) s
  else s.

(** The text before and after the first occurrence of [sep]. *)
Fixpoint cut (sep : ascii) (s : string) : option (string * string) :=
  match s with
  | EmptyString => None
  | String a s' =>
      if Ascii.eqb a sep then Some (EmptyString, s')
      else match cut sep s' with
           | Some (l, r) => Some (String a l, r)
           | None => None
           end
  end.

(** strings.SplitN for a one-character separator (the only use here). *)
Fixpoint SplitN (s : string) (sep : ascii) (n : nat) : list string :=
  match n with
  | 0 => []
  | S n' =>
      match n' with
      | 0 => [s]
      | _ => match cut sep s with
             | None => [s]
             | Some (l, r) => l :: SplitN r sep n'
             end
      end
  end.

(** strings.ReplaceAll(s, ".", "_") as used by sanitizeTargetName. *)
Fixpoint sanitizeTargetName (target : string) : string :=
  match target with
  | EmptyString => EmptyString
  | String a s => String (if Ascii.eqb a "." then "_"%char else a) (sanitizeTargetName s)
  end.

(** strconv.ParseBool *)
Definition ParseBool (s : string) : option bool :=
  if bool_decide (s ∈ ["1"; "t"; "T"; "TRUE"; "true"; "True"]) then Some true
  else if bool_decide (s ∈ ["0"; "f"; "F"; "FALSE"; "false"; "False"]) then Some false
  else None.

(** strconv.FormatBool *)
Definition FormatBool (b : bool) : string := if b then "true" else "false".

(** strings.Join *)
Fixpoint Join (l : list string) (sep : string) : string :=
  match l with
  | [] => ""
  | [x] => x
  | x :: l' => x +:+ sep +:+ Join l' sep
  end.

(** ** Slices, by value *)

Abbreviation slice := (option (list string)).

Definition elems (s : slice) : list string := default [] s.

(** append(s, xs...): appending nothing returns [s] itself, nil included. *)
Definition append (s : slice) (xs : list string) : slice :=
  match xs with
  | [] => s
  | _ => Some (elems s ++ xs)
  end.

(** slices.Contains *)
Definition slices_Contains (s : slice) (v : string) : bool := bool_decide (v ∈ elems s).

(** ** Document model *)

(** The records holding slices are declared over the representation [S] of
    a slice of strings: [slice], its contents, in the resolver below; a
    header pointing into a store of backing arrays in the module [Aliased]
    at the end. *)
Set Implicit Arguments.
Set Maximal Implicit Insertion.

Record Override_of (S : Type) := Build_Override {
  Value : string;
  ArrValue : S;
}.

Record Group := {
  Group_Name : string;
  Group_Description : string;
  Group_Targets : slice;
}.

(** The field [Target] of the source (the build stage) is [Target_] here,
    the record itself being [Target]. *)
Record Target_of (S : Type) := Build_Target {
  Name : string;
  Description : string;
  Inherits : S;
  Annotations : S;
  Attest : S;
  Context : option string;
  Contexts : option (gmap string string);
  Dockerfile : option string;
  DockerfileInline : option string;
  Args : option (gmap string (option string));
  Labels : option (gmap string (option string));
  Tags : S;
  CacheFrom : S;
  CacheTo : S;
  Target_ : option string;
  Secrets : S;
  SSH : S;
  Platforms : S;
  Outputs : S;
  Pull : option bool;
  NoCache : option bool;
  NetworkMode : option string;
  NoCacheFilter : S;
  ShmSize : option string;
  Ulimits : S;
  Call : option string;
  Entitlements : S;
  linked : bool;
}.

Record Config_of (S : Type) := Build_Config {
  Groups : list Group;
  Targets : list (Target_of S);
}.

Unset Maximal Implicit Insertion.
Unset Implicit Arguments.

Arguments Build_Override {S} _ _.
Arguments Build_Config {S} _ _.
Arguments Build_Target {S}.

Abbreviation Override := (Override_of slice).
Abbreviation Target := (Target_of slice).
Abbreviation Config := (Config_of slice).

(** Modelled from the spec: the type EntitlementConf is declared in another
    file of the package; it accumulates [FSRead] paths, [FSWrite] paths and
    the flags [NetworkHost] and [SecurityInsecure]. *)
Record EntitlementConf := {
  NetworkHost : bool;
  SecurityInsecure : bool;
  FSRead : slice;
  FSWrite : slice;
}.

(** Modelled from the spec: the well-known entitlement strings, constants of
    the same absent file. *)
Definition EntitlementKeyNetworkHost : string := "network.host".
Definition EntitlementKeySecurityInsecure : string := "security.insecure".

(** &Target{} *)
Definition defaultTarget : Target :=
  {| Name := ""; Description := ""; Inherits := None; Annotations := None;
     Attest := None; Context := None; Contexts := None; Dockerfile := None;
     DockerfileInline := None; Args := None; Labels := None; Tags := None;
     CacheFrom := None; CacheTo := None; Target_ := None; Secrets := None;
     SSH := None; Platforms := None; Outputs := None; Pull := None;
     NoCache := None; NetworkMode := None; NoCacheFilter := None;
     ShmSize := None; Ulimits := None; Call := None; Entitlements := None;
     linked := false |}.

(** Field assignments [t.F = v]. *)
Definition set_Inherits {S} (v : S) (t : Target_of S) : Target_of S :=
  let 'Build_Target n d i an at_ c cs df dfi ar l tg cf ct ts s ssh p o pl nc nm ncf sh u ca e lk := t in
  Build_Target n d v an at_ c cs df dfi ar l tg cf ct ts s ssh p o pl nc nm ncf sh u ca e lk.
Definition set_Annotations {S} (v : S) (t : Target_of S) : Target_of S :=
  let 'Build_Target n d i an at_ c cs df dfi ar l tg cf ct ts s ssh p o pl nc nm ncf sh u ca e lk := t in
  Build_Target n d i v at_ c cs df dfi ar l tg cf ct ts s ssh p o pl nc nm ncf sh u ca e lk.
Definition set_Attest {S} (v : S) (t : Target_of S) : Target_of S :=
  let 'Build_Target n d i an at_ c cs df dfi ar l tg cf ct ts s ssh p o pl nc nm ncf sh u ca e lk := t in
  Build_Target n d i an v c cs df dfi ar l tg cf ct ts s ssh p o pl nc nm ncf sh u ca e lk.
Definition set_Context {S} (v : option string) (t : Target_of S) : Target_of S :=
  let 'Build_Target n d i an at_ c cs df dfi ar l tg cf ct ts s ssh p o pl nc nm ncf sh u ca e lk := t in
  Build_Target n d i an at_ v cs df dfi ar l tg cf ct ts s ssh p o pl nc nm ncf sh u ca e lk.
Definition set_Contexts {S} (v : option (gmap string string)) (t : Target_of S) : Target_of S :=
  let 'Build_Target n d i an at_ c cs df dfi ar l tg cf ct ts s ssh p o pl nc nm ncf sh u ca e lk := t in
  Build_Target n d i an at_ c v df dfi ar l tg cf ct ts s ssh p o pl nc nm ncf sh u ca e lk.
Definition set_Dockerfile {S} (v : option string) (t : Target_of S) : Target_of S :=
  let 'Build_Target n d i an at_ c cs df dfi ar l tg cf ct ts s ssh p o pl nc nm ncf sh u ca e lk := t in
  Build_Target n d i an at_ c cs v dfi ar l tg cf ct ts s ssh p o pl nc nm ncf sh u ca e lk.
Definition set_Args {S} (v : option (gmap string (option string))) (t : Target_of S)
    : Target_of S :=
  let 'Build_Target n d i an at_ c cs df dfi ar l tg cf ct ts s ssh p o pl nc nm ncf sh u ca e lk := t in
  Build_Target n d i an at_ c cs df dfi v l tg cf ct ts s ssh p o pl nc nm ncf sh u ca e lk.
Definition set_Labels {S} (v : option (gmap string (option string))) (t : Target_of S)
    : Target_of S :=
  let 'Build_Target n d i an at_ c cs df dfi ar l tg cf ct ts s ssh p o pl nc nm ncf sh u ca e lk := t in
  Build_Target n d i an at_ c cs df dfi ar v tg cf ct ts s ssh p o pl nc nm ncf sh u ca e lk.
Definition set_Tags {S} (v : S) (t : Target_of S) : Target_of S :=
  let 'Build_Target n d i an at_ c cs df dfi ar l tg cf ct ts s ssh p o pl nc nm ncf sh u ca e lk := t in
  Build_Target n d i an at_ c cs df dfi ar l v cf ct ts s ssh p o pl nc nm ncf sh u ca e lk.
Definition set_CacheFrom {S} (v : S) (t : Target_of S) : Target_of S :=
  let 'Build_Target n d i an at_ c cs df dfi ar l tg cf ct ts s ssh p o pl nc nm ncf sh u ca e lk := t in
  Build_Target n d i an at_ c cs df dfi ar l tg v ct ts s ssh p o pl nc nm ncf sh u ca e lk.
Definition set_CacheTo {S} (v : S) (t : Target_of S) : Target_of S :=
  let 'Build_Target n d i an at_ c cs df dfi ar l tg cf ct ts s ssh p o pl nc nm ncf sh u ca e lk := t in
  Build_Target n d i an at_ c cs df dfi ar l tg cf v ts s ssh p o pl nc nm ncf sh u ca e lk.
Definition set_Target_ {S} (v : option string) (t : Target_of S) : Target_of S :=
  let 'Build_Target n d i an at_ c cs df dfi ar l tg cf ct ts s ssh p o pl nc nm ncf sh u ca e lk := t in
  Build_Target n d i an at_ c cs df dfi ar l tg cf ct v s ssh p o pl nc nm ncf sh u ca e lk.
Definition set_Secrets {S} (v : S) (t : Target_of S) : Target_of S :=
  let 'Build_Target n d i an at_ c cs df dfi ar l tg cf ct ts s ssh p o pl nc nm ncf sh u ca e lk := t in
  Build_Target n d i an at_ c cs df dfi ar l tg cf ct ts v ssh p o pl nc nm ncf sh u ca e lk.
Definition set_SSH {S} (v : S) (t : Target_of S) : Target_of S :=
  let 'Build_Target n d i an at_ c cs df dfi ar l tg cf ct ts s ssh p o pl nc nm ncf sh u ca e lk := t in
  Build_Target n d i an at_ c cs df dfi ar l tg cf ct ts s v p o pl nc nm ncf sh u ca e lk.
Definition set_Platforms {S} (v : S) (t : Target_of S) : Target_of S :=
  let 'Build_Target n d i an at_ c cs df dfi ar l tg cf ct ts s ssh p o pl nc nm ncf sh u ca e lk := t in
  Build_Target n d i an at_ c cs df dfi ar l tg cf ct ts s ssh v o pl nc nm ncf sh u ca e lk.
Definition set_Outputs {S} (v : S) (t : Target_of S) : Target_of S :=
  let 'Build_Target n d i an at_ c cs df dfi ar l tg cf ct ts s ssh p o pl nc nm ncf sh u ca e lk := t in
  Build_Target n d i an at_ c cs df dfi ar l tg cf ct ts s ssh p v pl nc nm ncf sh u ca e lk.
Definition set_Pull {S} (v : option bool) (t : Target_of S) : Target_of S :=
  let 'Build_Target n d i an at_ c cs df dfi ar l tg cf ct ts s ssh p o pl nc nm ncf sh u ca e lk := t in
  Build_Target n d i an at_ c cs df dfi ar l tg cf ct ts s ssh p o v nc nm ncf sh u ca e lk.
Definition set_NoCache {S} (v : option bool) (t : Target_of S) : Target_of S :=
  let 'Build_Target n d i an at_ c cs df dfi ar l tg cf ct ts s ssh p o pl nc nm ncf sh u ca e lk := t in
  Build_Target n d i an at_ c cs df dfi ar l tg cf ct ts s ssh p o pl v nm ncf sh u ca e lk.
Definition set_NetworkMode {S} (v : option string) (t : Target_of S) : Target_of S :=
  let 'Build_Target n d i an at_ c cs df dfi ar l tg cf ct ts s ssh p o pl nc nm ncf sh u ca e lk := t in
  Build_Target n d i an at_ c cs df dfi ar l tg cf ct ts s ssh p o pl nc v ncf sh u ca e lk.
Definition set_NoCacheFilter {S} (v : S) (t : Target_of S) : Target_of S :=
  let 'Build_Target n d i an at_ c cs df dfi ar l tg cf ct ts s ssh p o pl nc nm ncf sh u ca e lk := t in
  Build_Target n d i an at_ c cs df dfi ar l tg cf ct ts s ssh p o pl nc nm v sh u ca e lk.
Definition set_ShmSize {S} (v : option string) (t : Target_of S) : Target_of S :=
  let 'Build_Target n d i an at_ c cs df dfi ar l tg cf ct ts s ssh p o pl nc nm ncf sh u ca e lk := t in
  Build_Target n d i an at_ c cs df dfi ar l tg cf ct ts s ssh p o pl nc nm ncf v u ca e lk.
Definition set_Ulimits {S} (v : S) (t : Target_of S) : Target_of S :=
  let 'Build_Target n d i an at_ c cs df dfi ar l tg cf ct ts s ssh p o pl nc nm ncf sh u ca e lk := t in
  Build_Target n d i an at_ c cs df dfi ar l tg cf ct ts s ssh p o pl nc nm ncf sh v ca e lk.
Definition set_Call {S} (v : option string) (t : Target_of S) : Target_of S :=
  let 'Build_Target n d i an at_ c cs df dfi ar l tg cf ct ts s ssh p o pl nc nm ncf sh u ca e lk := t in
  Build_Target n d i an at_ c cs df dfi ar l tg cf ct ts s ssh p o pl nc nm ncf sh u v e lk.
Definition set_Entitlements {S} (v : S) (t : Target_of S) : Target_of S :=
  let 'Build_Target n d i an at_ c cs df dfi ar l tg cf ct ts s ssh p o pl nc nm ncf sh u ca e lk := t in
  Build_Target n d i an at_ c cs df dfi ar l tg cf ct ts s ssh p o pl nc nm ncf sh u ca v lk.
Definition set_linked {S} (v : bool) (t : Target_of S) : Target_of S :=
  let 'Build_Target n d i an at_ c cs df dfi ar l tg cf ct ts s ssh p o pl nc nm ncf sh u ca e lk := t in
  Build_Target n d i an at_ c cs df dfi ar l tg cf ct ts s ssh p o pl nc nm ncf sh u ca e v.

(** ** Types of the packages the resolver calls

    Only the fields the resolver reads are kept. *)

(** buildflags: a parsed cache entry. *)
Record CacheOptionsEntry := {
  Cache_Type : string;
  Cache_Attrs : gmap string string;
}.

(** buildflags: a parsed secret. *)
Record Secret := { Secret_FilePath : string }.

(** buildflags: a parsed ssh specification. *)
Record SSHSpec := { SSH_Paths : list string }.

(** buildflags: a parsed output. *)
Record ExportEntry := { Export_Destination : string }.

(** A loop body run over the entries of a map in the given order, stopping
    at the first error. *)
Fixpoint range_fold {A S : Type} (body : string -> A -> S -> res S)
    (kvs : list (string * A)) (s : S) : res S :=
  match kvs with
  | [] => Ok s
  | (k, v) :: kvs' => s' ← body k v s; range_fold body kvs' s'
  end.

(** ** Merge engine *)

(** [if src != nil { dst = src }], for a pointer *)
Definition replace_ptr {A} (dst src : option A) : option A :=
  match src with
  | Some _ => src
  | None => dst
  end.

(** [if src != nil { dst = src }], for a slice *)
Definition replace_if_set (dst src : slice) : slice :=
  match src with
  | Some _ => src
  | None => dst
  end.

(** [if src != nil { dst = append(dst, src...) }] *)
Definition merge_append (dst src : slice) : slice :=
  match src with
  | Some xs => append dst xs
  | None => dst
  end.

(** The loops of Merge over [Args] and [Labels]: nil values are skipped, the
    destination is allocated on the first entry written. *)
Definition merge_ptr_map (dst src : option (gmap string (option string)))
    : option (gmap string (option string)) :=
  let add := filter (fun kv => is_Some kv.2) (default ∅ src) in
  if decide (add = ∅) then dst else Some (add ∪ default ∅ dst).

(** The loop of Merge over [Contexts]. *)
Definition merge_str_map (dst src : option (gmap string string))
    : option (gmap string string) :=
  let add := default ∅ src in
  if decide (add = ∅) then dst else Some (add ∪ default ∅ dst).

(** removeDupes: the first occurrence of each non-empty string is kept. *)
Fixpoint removeDupes_from (seen : gset string) (s : list string) : list string :=
  match s with
  | [] => []
  | v :: s' =>
      if decide (v ∈ seen) then removeDupes_from seen s'
      else if decide (v = "") then removeDupes_from seen s'
      else v :: removeDupes_from ({[v]} ∪ seen) s'
  end.

Definition removeDupes (s : slice) : slice := removeDupes_from ∅ <$> s.

(** dedupSlice: the first occurrence of each string is kept; an empty or nil
    slice is returned as it is, any other result is a new slice. *)
Fixpoint dedup_from (seen : gset string) (s : list string) : list string :=
  match s with
  | [] => []
  | v :: s' =>
      if decide (v ∈ seen) then dedup_from seen s'
      else v :: dedup_from ({[v]} ∪ seen) s'
  end.

Definition dedupSlice (s : list string) : list string := dedup_from ∅ s.

(** ** The environment of the resolver

    What the resolver takes from the Go runtime and from other packages. *)
Class Runtime := {
  (** The order in which [range] visits a map. *)
  range_order : forall A : Type, gmap string A -> list (string * A);
  range_order_perm :
    forall (A : Type) (m : gmap string A), range_order A m ≡ₚ map_to_list m;
  (** path.Match(pattern, name); [None] is ErrBadPattern. *)
  path_Match : string -> string -> option bool;
  (** os.LookupEnv *)
  LookupEnv : string -> option string;
  (** buildflags.ParseCacheEntry, ParseSecretSpecs, ParseSSHSpecs and
      ParseExports *)
  ParseCacheEntry : slice -> parsed (list CacheOptionsEntry);
  ParseSecretSpecs : slice -> parsed (list Secret);
  ParseSSHSpecs : slice -> parsed (list SSHSpec);
  ParseExports : slice -> parsed (list ExportEntry);
  (** buildflags.ParseAttest, of which only the type of the attestation is
      read; [None] is an error *)
  ParseAttest : string -> option string;
  (** csvvalue.Fields; [None] is an error *)
  csvFields : string -> option (list string);
}.

Section Resolver.

Context `{Runtime}.

(** removeAttestDupes: one entry per attestation type, the last value at
    the position of the first; unparsable entries are all kept. *)
Fixpoint removeAttestDupes_from (m : gmap string nat) (res : list string)
    (s : list string) : list string :=
  match s with
  | [] => res
  | v :: s' =>
      match ParseAttest v with
      | None => removeAttestDupes_from m (res ++ [v]) s'
      | Some ty =>
          match m !! ty with
          | Some i => removeAttestDupes_from m (<[i:=v]> res) s'
          | None => removeAttestDupes_from (<[ty:=length res]> m) (res ++ [v]) s'
          end
      end
  end.

Definition removeAttestDupes (s : slice) : slice :=
  Some (removeAttestDupes_from ∅ [] (elems s)).

Definition Merge (t t2 : Target) : Target :=
  {| Name := Name t;
     Context := replace_ptr (Context t) (Context t2);
     Dockerfile := replace_ptr (Dockerfile t) (Dockerfile t2);
     DockerfileInline := replace_ptr (DockerfileInline t) (DockerfileInline t2);
     Args := merge_ptr_map (Args t) (Args t2);
     Contexts := merge_str_map (Contexts t) (Contexts t2);
     Labels := merge_ptr_map (Labels t) (Labels t2);
     Tags := replace_if_set (Tags t) (Tags t2);
     Target_ := replace_ptr (Target_ t) (Target_ t2);
     Call := replace_ptr (Call t) (Call t2);
     Annotations := merge_append (Annotations t) (Annotations t2);
     Attest :=
       match Attest t2 with
       | Some xs => removeAttestDupes (append (Attest t) xs)
       | None => Attest t
       end;
     Secrets := merge_append (Secrets t) (Secrets t2);
     SSH := merge_append (SSH t) (SSH t2);
     Platforms := replace_if_set (Platforms t) (Platforms t2);
     CacheFrom := merge_append (CacheFrom t) (CacheFrom t2);
     CacheTo := replace_if_set (CacheTo t) (CacheTo t2);
     Outputs := replace_if_set (Outputs t) (Outputs t2);
     Pull := replace_ptr (Pull t) (Pull t2);
     NoCache := replace_ptr (NoCache t) (NoCache t2);
     NetworkMode := replace_ptr (NetworkMode t) (NetworkMode t2);
     NoCacheFilter := merge_append (NoCacheFilter t) (NoCacheFilter t2);
     ShmSize := replace_ptr (ShmSize t) (ShmSize t2);
     Ulimits := merge_append (Ulimits t) (Ulimits t2);
     Description :=
       if decide (Description t2 = "") then Description t else Description t2;
     Entitlements := merge_append (Entitlements t) (Entitlements t2);
     Inherits := append (Inherits t) (elems (Inherits t2));
     linked := linked t |}.

(** ** Normalization *)

Definition normalize_Contexts (m : option (gmap string string))
    : option (gmap string string) :=
  let m' := filter (fun kv => kv.2 ≠ "") (default ∅ m) in
  if decide (m' = ∅) then None else Some m'.

Definition normalize (t : Target) : Target :=
  {| Name := Name t;
     Description := Description t;
     Inherits := Inherits t;
     Annotations := removeDupes (Annotations t);
     Attest := removeAttestDupes (Attest t);
     Context := Context t;
     Contexts := normalize_Contexts (Contexts t);
     Dockerfile := Dockerfile t;
     DockerfileInline := DockerfileInline t;
     Args := Args t;
     Labels := Labels t;
     Tags := removeDupes (Tags t);
     CacheFrom := removeDupes (CacheFrom t);
     CacheTo := removeDupes (CacheTo t);
     Target_ := Target_ t;
     Secrets := removeDupes (Secrets t);
     SSH := removeDupes (SSH t);
     Platforms := removeDupes (Platforms t);
     Outputs := removeDupes (Outputs t);
     Pull := Pull t;
     NoCache := NoCache t;
     NetworkMode := NetworkMode t;
     NoCacheFilter := removeDupes (NoCacheFilter t);
     ShmSize := ShmSize t;
     Ulimits := removeDupes (Ulimits t);
     Call := Call t;
     Entitlements :=
       removeDupes
         (if decide (NetworkMode t = Some "host")
          then append (Entitlements t) ["network.host"]
          else Entitlements t);
     linked := linked t |}.

(** ** Override engine: the apply step *)

Definition parseOutput (str : string) : option (gmap string string) :=
  match csvFields str with
  | None => None
  | Some fields =>
      Some (fold_left
              (fun res field =>
                 match SplitN field "=" 2 with
                 | [k; v] => <[k:=v]> res
                 | _ => res
                 end)
              fields ∅)
  end.

Definition parseOutputType (str : string) : string :=
  match parseOutput str with
  | Some out => default "" (out !! "type")
  | None => ""
  end.

(** The loop of setPushOverride over the outputs, from the current [out] and
    [setPush]. *)
Fixpoint setPushOverride_loop (outputs : list string) (push : bool)
    (out : slice) (setPush : bool) : slice * bool :=
  match outputs with
  | [] => (out, setPush)
  | output :: outputs' =>
      let typ := parseOutputType output in
      if decide (typ = "image" \/ typ = "registry") then
        if decide (typ = "registry") then
          if negb push then setPushOverride_loop outputs' push out false
          else setPushOverride_loop outputs' push (append out [output]) false
        else
          setPushOverride_loop outputs' push
            (append out [output +:+ ",push=" +:+ FormatBool push]) false
      else
        setPushOverride_loop outputs' push (append out [output])
          (if decide (typ = "docker") then setPush else false)
  end.

Definition setPushOverride (outputs : slice) (push : bool) : slice :=
  let '(out, setPush) := setPushOverride_loop (elems outputs) push None true in
  if push && setPush then append out ["type=image,push=true"] else out.

(** The loop of setLoadOverride: the final value of [setLoad]. *)
Fixpoint setLoadOverride_loop (outputs : list string) : bool :=
  match outputs with
  | [] => true
  | output :: outputs' =>
      let typ := parseOutputType output in
      if decide (typ = "docker") then
        match parseOutput output with
        | Some v =>
            match v !! "dest" with
            | None => false
            | Some _ => setLoadOverride_loop outputs'
            end
        | None => setLoadOverride_loop outputs'
        end
      else if decide (typ ≠ "image" /\ typ ≠ "registry" /\ typ ≠ "oci") then false
      else setLoadOverride_loop outputs'
  end.

Definition setLoadOverride (outputs : slice) (load : bool) : slice :=
  if negb load then outputs
  else if setLoadOverride_loop (elems outputs) then append outputs ["type=docker"]
  else outputs.

Definition add_FSRead (vs : list string) (ent : EntitlementConf) : EntitlementConf :=
  {| NetworkHost := NetworkHost ent; SecurityInsecure := SecurityInsecure ent;
     FSRead := append (FSRead ent) vs; FSWrite := FSWrite ent |}.

Definition add_FSWrite (vs : list string) (ent : EntitlementConf) : EntitlementConf :=
  {| NetworkHost := NetworkHost ent; SecurityInsecure := SecurityInsecure ent;
     FSRead := FSRead ent; FSWrite := append (FSWrite ent) vs |}.

Definition set_NetworkHost (ent : EntitlementConf) : EntitlementConf :=
  {| NetworkHost := true; SecurityInsecure := SecurityInsecure ent;
     FSRead := FSRead ent; FSWrite := FSWrite ent |}.

Definition set_SecurityInsecure (ent : EntitlementConf) : EntitlementConf :=
  {| NetworkHost := NetworkHost ent; SecurityInsecure := true;
     FSRead := FSRead ent; FSWrite := FSWrite ent |}.

(** The value of [c.Attrs[key]] for each entry of type "local" that has it. *)
Definition local_attrs (key : string) (cs : list CacheOptionsEntry) : list (list string) :=
  map (fun c =>
         if decide (Cache_Type c = "local") then
           match Cache_Attrs c !! key with
           | Some v => [v]
           | None => []
           end
         else [])
      cs.

(** Repeated [ent.F = append(ent.F, v...)]. *)
Definition add_each (add : list string -> EntitlementConf -> EntitlementConf)
    (vss : list (list string)) (ent : EntitlementConf) : EntitlementConf :=
  fold_left (fun e vs => add vs e) vss ent.

Definition flag_entitlements (vs : list string) (ent : EntitlementConf) : EntitlementConf :=
  fold_left
    (fun e v =>
       if decide (v = EntitlementKeyNetworkHost) then set_NetworkHost e
       else if decide (v = EntitlementKeySecurityInsecure) then set_SecurityInsecure e
       else e)
    vs ent.

Definition parse_bool_key (key value : string) : res bool :=
  match ParseBool value with
  | Some b => Ok b
  | None => Fail (Errorf ("invalid value " +:+ value +:+ " for boolean key " +:+ key))
  end.

(** One iteration of the loop of AddOverrides. *)
Definition AddOverrides_body (key : string) (o : Override)
    (st : Target * EntitlementConf) : res (Target * EntitlementConf) :=
  let '(t, ent) := st in
  let value := Value o in
  let keys := SplitN key "." 2 in
  let key0 := hd "" keys in
  if decide (key0 = "context") then Ok (set_Context (Some value) t, ent)
  else if decide (key0 = "dockerfile") then Ok (set_Dockerfile (Some value) t, ent)
  else if decide (key0 = "args") then
    match keys with
    | [_; k] => Ok (set_Args (Some (<[k:=Some value]> (default ∅ (Args t)))) t, ent)
    | _ => Fail (Errorf "invalid format for args, expecting args.<name>=<value>")
    end
  else if decide (key0 = "contexts") then
    match keys with
    | [_; k] => Ok (set_Contexts (Some (<[k:=value]> (default ∅ (Contexts t)))) t, ent)
    | _ => Fail (Errorf "invalid format for contexts, expecting contexts.<name>=<value>")
    end
  else if decide (key0 = "labels") then
    match keys with
    | [_; k] => Ok (set_Labels (Some (<[k:=Some value]> (default ∅ (Labels t)))) t, ent)
    | _ => Fail (Errorf "invalid format for labels, expecting labels.<name>=<value>")
    end
  else if decide (key0 = "tags") then Ok (set_Tags (ArrValue o) t, ent)
  else if decide (key0 = "cache-from") then
    cacheFrom ← of_parsed (ParseCacheEntry (ArrValue o));
    Ok (set_CacheFrom (ArrValue o) t, add_each add_FSRead (local_attrs "src" cacheFrom) ent)
  else if decide (key0 = "cache-to") then
    cacheTo ← of_parsed (ParseCacheEntry (ArrValue o));
    Ok (set_CacheTo (ArrValue o) t, add_each add_FSWrite (local_attrs "dest" cacheTo) ent)
  else if decide (key0 = "target") then Ok (set_Target_ (Some value) t, ent)
  else if decide (key0 = "call") then Ok (set_Call (Some value) t, ent)
  else if decide (key0 = "secrets") then
    secrets ← Wrap (of_parsed (ParseSecretSpecs (ArrValue o))) "invalid value for outputs";
    Ok (set_Secrets (ArrValue o) t,
        add_each add_FSRead
          (map (fun s => if decide (Secret_FilePath s = "") then [] else [Secret_FilePath s])
               secrets) ent)
  else if decide (key0 = "ssh") then
    ssh ← Wrap (of_parsed (ParseSSHSpecs (ArrValue o))) "invalid value for outputs";
    Ok (set_SSH (ArrValue o) t, add_each add_FSRead (map SSH_Paths ssh) ent)
  else if decide (key0 = "platform") then Ok (set_Platforms (ArrValue o) t, ent)
  else if decide (key0 = "output") then
    outputs ← Wrap (of_parsed (ParseExports (ArrValue o))) "invalid value for outputs";
    Ok (set_Outputs (ArrValue o) t,
        add_each add_FSWrite
          (map (fun e => if decide (Export_Destination e = "") then [] else [Export_Destination e])
               outputs) ent)
  else if decide (key0 = "entitlements") then
    Ok (set_Entitlements (append (Entitlements t) (elems (ArrValue o))) t,
        flag_entitlements (elems (ArrValue o)) ent)
  else if decide (key0 = "annotations") then
    Ok (set_Annotations (append (Annotations t) (elems (ArrValue o))) t, ent)
  else if decide (key0 = "attest") then
    Ok (set_Attest (append (Attest t) (elems (ArrValue o))) t, ent)
  else if decide (key0 = "no-cache") then
    noCache ← parse_bool_key "no-cache" value;
    Ok (set_NoCache (Some noCache) t, ent)
  else if decide (key0 = "no-cache-filter") then Ok (set_NoCacheFilter (ArrValue o) t, ent)
  else if decide (key0 = "shm-size") then Ok (set_ShmSize (Some value) t, ent)
  else if decide (key0 = "ulimits") then Ok (set_Ulimits (ArrValue o) t, ent)
  else if decide (key0 = "network") then Ok (set_NetworkMode (Some value) t, ent)
  else if decide (key0 = "pull") then
    pull ← parse_bool_key "pull" value;
    Ok (set_Pull (Some pull) t, ent)
  else if decide (key0 = "push") then
    push ← parse_bool_key "push" value;
    Ok (set_Outputs (setPushOverride (Outputs t) push) t, ent)
  else if decide (key0 = "load") then
    load ← parse_bool_key "load" value;
    Ok (set_Outputs (setLoadOverride (Outputs t) load) t, ent)
  else Fail (Errorf ("unknown key: " +:+ key0)).

(** AddOverrides; a nil table is [∅]. *)
Definition AddOverrides (t : Target) (overrides : gmap string Override)
    (ent : EntitlementConf) : res (Target * EntitlementConf) :=
  range_fold AddOverrides_body (range_order Override overrides) (t, ent).

(** ** Override engine: parsing *)

Definition find_target (c : Config) (name : string) : option Target :=
  find (fun t => bool_decide (Name t = name)) (Targets c).

Definition find_group (c : Config) (name : string) : option Group :=
  find (fun g => bool_decide (Group_Name g = name)) (Groups c).

(** The second loop of expandTargets: the names matching the pattern. *)
Fixpoint expandTargets_match (pattern : string) (ts : list Target) : option (list string) :=
  match ts with
  | [] => Some []
  | t :: ts' =>
      match path_Match pattern (Name t) with
      | None => None
      | Some ok =>
          names ← expandTargets_match pattern ts';
          Some (if ok then Name t :: names else names)
      end
  end.

Definition expandTargets (c : Config) (pattern : string) : res (list string) :=
  match find_target c pattern with
  | Some _ => Ok [pattern]
  | None =>
      match expandTargets_match pattern (Targets c) with
      | None =>
          Fail (Errorf ("could not match targets with '" +:+ pattern +:+ "': syntax error in pattern"))
      | Some [] =>
          Fail (Errorf ("could not find any target matching '" +:+ pattern +:+ "'"))
      | Some names => Ok names
      end
  end.

Definition list_keys : list string :=
  ["output"; "cache-to"; "cache-from"; "tags"; "platform"; "secrets"; "ssh";
   "attest"; "entitlements"; "network"].

(** The switch of newOverrides on [keys[1]], applied to the current entry
    [o]: the new entry, or [None] where the iteration is abandoned by
    [continue]. [has_value] is [len(parts) == 2], [value] is [parts[1]]. *)
Definition newOverrides_switch (part0 : string) (keys : list string)
    (has_value : bool) (value : string) (o : Override) : res (option Override) :=
  let key1 := nth 1 keys "" in
  let set_value (o : Override) : Override :=
    if has_value then {| Value := value; ArrValue := ArrValue o |} else o in
  if bool_decide (key1 ∈ list_keys) then
    Ok (Some (if has_value
              then {| Value := Value o; ArrValue := append (ArrValue o) [value] |}
              else o))
  else if decide (key1 = "args") then
    if negb (length keys =? 3)%nat then
      Fail (Errorf ("invalid key " +:+ part0 +:+ ", args requires name"))
    else if negb has_value then
      match LookupEnv (nth 2 keys "") with
      | None => Ok None
      | Some v => Ok (Some (set_value {| Value := v; ArrValue := ArrValue o |}))
      end
    else Ok (Some (set_value o))
  else if decide (key1 = "contexts") then
    if negb (length keys =? 3)%nat then
      Fail (Errorf ("invalid key " +:+ part0 +:+ ", contexts requires name"))
    else Ok (Some (set_value o))
  else Ok (Some (set_value o)).

(** The loop of newOverrides over the expanded names. *)
Fixpoint newOverrides_names (part0 kk1 : string) (keys : list string)
    (has_value : bool) (value : string) (names : list string)
    (m : gmap string (gmap string Override)) : res (gmap string (gmap string Override)) :=
  match names with
  | [] => Ok m
  | name :: names' =>
      let t := default ∅ (m !! name) in
      let o := default {| Value := ""; ArrValue := None |} (t !! kk1) in
      o' ← newOverrides_switch part0 keys has_value value o;
      let t' := match o' with Some o' => <[kk1:=o']> t | None => t end in
      newOverrides_names part0 kk1 keys has_value value names' (<[name:=t']> m)
  end.

(** One iteration of the outer loop of newOverrides. *)
Definition newOverrides_entry (c : Config) (v : string)
    (m : gmap string (gmap string Override)) : res (gmap string (gmap string Override)) :=
  let parts := SplitN v "=" 2 in
  let part0 := hd "" parts in
  let keys := SplitN part0 "." 3 in
  if (length keys <? 2)%nat then
    Fail (Errorf ("invalid override key " +:+ part0 +:+ ", expected target.name"))
  else
    let pattern := hd "" keys in
    let has_value := (length parts =? 2)%nat in
    if negb has_value && negb (bool_decide (nth 1 keys "" = "args")) then
      Fail (Errorf ("invalid override " +:+ v +:+ ", expected target.name=value"))
    else
      names ← expandTargets c pattern;
      match SplitN part0 "." 2 with
      | [_; kk1] =>
          newOverrides_names part0 kk1 keys has_value (nth 1 parts "") names m
      | _ => Fail Panic
      end.

Fixpoint newOverrides_from (c : Config) (v : list string)
    (m : gmap string (gmap string Override)) : res (gmap string (gmap string Override)) :=
  match v with
  | [] => Ok m
  | x :: v' => m' ← newOverrides_entry c x m; newOverrides_from c v' m'
  end.

Definition newOverrides (c : Config) (v : list string)
    : res (gmap string (gmap string Override)) :=
  newOverrides_from c v ∅.

(** ** Group expander *)

Record visit := {
  visit_target : list string;
  visit_group : list string;
}.

(** The loop of [group] over the members, [rec] being the recursive call. *)
Fixpoint group_members
    (rec : string -> gmap string visit -> res (list string * list string * gmap string visit))
    (ts : list string) (targets groups : list string) (visited : gmap string visit)
    : res (list string * list string * gmap string visit) :=
  match ts with
  | [] => Ok (targets, groups, visited)
  | t :: ts' =>
      '(ttarget, tgroup, visited') ← rec t visited;
      group_members rec ts'
        (match ttarget with [] => targets ++ [t] | _ => targets ++ ttarget end)
        (groups ++ tgroup) visited'
  end.

Fixpoint group (fuel : nat) (c : Config) (name : string) (visited : gmap string visit)
    : res (list string * list string * gmap string visit) :=
  match fuel with
  | 0 => Fail OutOfFuel
  | S fuel' =>
      match visited !! name with
      | Some v => Ok (visit_target v, visit_group v, visited)
      | None =>
          match find_group c name with
          | None => Ok ([name], [], visited)
          | Some g =>
              '(targets, groups, visited') ←
                group_members (group fuel' c) (elems (Group_Targets g)) [] [name]
                  (<[name := {| visit_target := []; visit_group := [] |}]> visited);
              Ok (targets, groups,
                  <[name := {| visit_target := targets; visit_group := groups |}]> visited')
          end
      end
  end.

(** The depth of the recursion of [group] is at most the number of groups
    plus one. *)
Definition ResolveGroup (c : Config) (name : string) : res (list string * list string) :=
  '(targets, groups, _) ← group (S (length (Groups c))) c name ∅;
  Ok (dedupSlice targets, dedupSlice groups).

(** ** Inheritance resolver *)

(** The loop of [target] over the inherited names, [rec] being the recursive
    call; [tt0] accumulates the parents. *)
Fixpoint target_inherits
    (rec : string -> gmap string (option Target) -> EntitlementConf ->
           res (option Target * gmap string (option Target) * EntitlementConf))
    (names : list string) (tt0 : Target) (visited : gmap string (option Target))
    (ent : EntitlementConf) : res (Target * gmap string (option Target) * EntitlementConf) :=
  match names with
  | [] => Ok (tt0, visited, ent)
  | name :: names' =>
      '(t, visited', ent') ← rec name visited ent;
      target_inherits rec names'
        (match t with Some t => Merge tt0 t | None => tt0 end) visited' ent'
  end.

Fixpoint target (fuel : nat) (c : Config) (name : string)
    (visited : gmap string (option Target))
    (overrides : gmap string (gmap string Override)) (ent : EntitlementConf)
    : res (option Target * gmap string (option Target) * EntitlementConf) :=
  match fuel with
  | 0 => Fail OutOfFuel
  | S fuel' =>
      match visited !! name with
      | Some t => Ok (t, visited, ent)
      | None =>
          match find_target c name with
          | None => Fail (Errorf ("failed to find target " +:+ name))
          | Some t =>
              '(tt0, visited', ent') ←
                target_inherits (fun n v e => target fuel' c n v overrides e)
                  (elems (Inherits t)) defaultTarget (<[name := None]> visited) ent;
              let m := Merge (Merge defaultTarget tt0) t in
              '(m', ent'') ← AddOverrides m (default ∅ (overrides !! name)) ent';
              let tt1 := normalize m' in
              Ok (Some tt1, <[name := Some tt1]> visited', ent'')
          end
      end
  end.

(** The assignments of ResolveTarget to the target that [target] returns. *)
Definition ResolveTarget_defaults (t : Target) : Target :=
  let t := set_Inherits None t in
  let t := if Context t is None then set_Context (Some ".") t else t in
  if Dockerfile t is None then set_Dockerfile (Some "Dockerfile") t else t.

(** The depth of the recursion of [target] is at most the number of targets
    plus one. *)
Definition ResolveTarget (c : Config) (name : string)
    (overrides : gmap string (gmap string Override)) (ent : EntitlementConf)
    : res (Target * EntitlementConf) :=
  '(t, _, ent') ← target (S (length (Targets c))) c name ∅ overrides ent;
  match t with
  | None => Fail Panic
  | Some t => Ok (ResolveTarget_defaults t, ent')
  end.

(** ** Link resolver *)

(** sort.Strings, by value. *)
Fixpoint sort_insert (x : string) (l : list string) : list string :=
  match l with
  | [] => [x]
  | y :: l' => if String.leb x y then x :: l else y :: sort_insert x l'
  end.

Definition sort_Strings (l : list string) : list string := foldr sort_insert [] l.

(** sliceEqual: the verdict, and the two slices as the call leaves them
    (sorted in place once the lengths agree). *)
Definition sliceEqual (s1 s2 : slice) : bool * slice * slice :=
  if negb (length (elems s1) =? length (elems s2))%nat then (false, s1, s2)
  else
    let s1' := sort_Strings <$> s1 in
    let s2' := sort_Strings <$> s2 in
    (bool_decide (elems s1' = elems s2'), s1', s2').

(** The verb %v on a slice of strings. *)
Definition fmt_v (s : slice) : string := "[" +:+ Join (elems s) " " +:+ "]".

(** [for _, ent := range t2.Entitlements { if !slices.Contains(...) {...} }] *)
Definition inherit_entitlements (dst src : slice) : slice :=
  fold_left (fun d e => if slices_Contains d e then d else append d [e]) (elems src) dst.

(** One iteration of the loop of loadLinks over the named contexts of the
    target [name]. The pointer [t] of the source is the one stored at
    [m[name]] at both of its call sites, and [t2] is stored at [m[target]]:
    the model reads and writes both targets through [m]. *)
Definition loadLinks_body
    (rec : string -> gmap string Target -> list string -> EntitlementConf ->
           res (gmap string Target * EntitlementConf))
    (c : Config) (name : string) (o : gmap string (gmap string Override))
    (visited : list string) (k v : string) (st : gmap string Target * EntitlementConf)
    : res (gmap string Target * EntitlementConf) :=
  let '(m, ent) := st in
  if HasPrefix v "target:" then
    let target := TrimPrefix v "target:" in
    if decide (target = name) then
      Fail (Errorf ("target " +:+ target +:+ " cannot link to itself"))
    else if decide (target ∈ visited) then
      Fail (Errorf ("infinite loop from " +:+ name +:+ " to " +:+ target))
    else
      '(m1, ent1) ←
        match m !! target with
        | Some _ => Ok (m, ent)
        | None =>
            '(t2, ent') ← ResolveTarget c target o ent;
            Ok (<[target := set_linked true (set_Outputs (Some ["type=cacheonly"]) t2)]> m, ent')
        end;
      '(m2, ent2) ← rec target m1 visited ent1;
      match m2 !! name, m2 !! target with
      | Some t, Some t2 =>
          let t := set_Entitlements (inherit_entitlements (Entitlements t) (Entitlements t2)) t in
          if (1 <? length (elems (Platforms t)))%nat && (1 <? length (elems (Platforms t2)))%nat then
            let '(eq, p, p2) := sliceEqual (Platforms t) (Platforms t2) in
            if eq then
              Ok (<[name := set_Platforms p t]> (<[target := set_Platforms p2 t2]> m2), ent2)
            else
              Fail (Errorf ("target " +:+ target +:+ " can't be used by " +:+ name +:+
                            " because it is defined for different platforms " +:+
                            fmt_v p2 +:+ " and " +:+ fmt_v p))
          else Ok (<[name := t]> m2, ent2)
      | _, _ => Fail Panic
      end
  else Ok (m, ent).

Fixpoint loadLinks (fuel : nat) (c : Config) (name : string) (m : gmap string Target)
    (o : gmap string (gmap string Override)) (visited : list string)
    (ent : EntitlementConf) : res (gmap string Target * EntitlementConf) :=
  match fuel with
  | 0 => Fail OutOfFuel
  | S fuel' =>
      match m !! name with
      | None => Fail Panic
      | Some t =>
          let visited := visited ++ [name] in
          range_fold
            (loadLinks_body (fun n m' vis e => loadLinks fuel' c n m' o vis e) c name o visited)
            (range_order string (default ∅ (Contexts t))) (m, ent)
      end
  end.

(** ** ReadTargets, from the parsed configuration on *)

(** The loop of ReadTargets over the target names of one requested name. *)
Fixpoint ReadTargets_targets (c : Config) (o : gmap string (gmap string Override))
    (ts : list string) (m : gmap string Target) (ent : EntitlementConf)
    : res (gmap string Target * EntitlementConf) :=
  match ts with
  | [] => Ok (m, ent)
  | tname :: ts' =>
      '(t, ent') ← ResolveTarget c tname o ent;
      ReadTargets_targets c o ts' (<[tname := t]> m) ent'
  end.

Definition ReadTargets_groups (c : Config) (gs : list string) (n : gmap string Group)
    : gmap string Group :=
  fold_left
    (fun n gname =>
       match find_group c gname with
       | Some g => <[gname := g]> n
       | None => n
       end)
    gs n.

(** The loop of ReadTargets over the requested names. *)
Fixpoint ReadTargets_resolve (c : Config) (o : gmap string (gmap string Override))
    (targets : list string) (m : gmap string Target) (n : gmap string Group)
    (ent : EntitlementConf) : res (gmap string Target * gmap string Group * EntitlementConf) :=
  match targets with
  | [] => Ok (m, n, ent)
  | target :: targets' =>
      '(ts, gs) ← ResolveGroup c target;
      '(m', ent') ← ReadTargets_targets c o ts m ent;
      ReadTargets_resolve c o targets' m' (ReadTargets_groups c gs n) ent'
  end.

(** The group "default" collecting the requested names. *)
Definition ReadTargets_default (targets : list string) (n : gmap string Group)
    : gmap string Group :=
  let n' :=
    fold_left
      (fun n target =>
         if decide (target = "default") then n
         else
           let g := default {| Group_Name := "default"; Group_Description := "";
                               Group_Targets := None |} (n !! "default") in
           <["default" := {| Group_Name := Group_Name g;
                            Group_Description := Group_Description g;
                            Group_Targets := append (Group_Targets g) [target] |}]> n)
      targets n in
  match n' !! "default" with
  | Some g =>
      <["default" := {| Group_Name := Group_Name g;
                       Group_Description := Group_Description g;
                       Group_Targets := dedupSlice <$> Group_Targets g |}]> n'
  | None => n'
  end.

(** The loop of ReadTargets over the resolved targets. The names are those
    of the map as the loop starts; a target added by loadLinks during the
    loop, which [range] may or may not produce, has had its own links
    loaded by the call that added it. *)
Fixpoint ReadTargets_links (fuel : nat) (c : Config) (o : gmap string (gmap string Override))
    (names : list string) (m : gmap string Target) (ent : EntitlementConf)
    : res (gmap string Target * EntitlementConf) :=
  match names with
  | [] => Ok (m, ent)
  | name :: names' =>
      '(m', ent') ← loadLinks fuel c name m o [] ent;
      ReadTargets_links fuel c o names' m' ent'
  end.

(** ReadTargets after ParseFiles, whose result is [c]. The depth of the
    recursion of loadLinks is at most the number of targets plus one. *)
Definition ReadTargets (c : Config) (targets overrides : list string)
    (ent : EntitlementConf) : res (gmap string Target * gmap string Group * EntitlementConf) :=
  let targets := map sanitizeTargetName targets in
  o ← newOverrides c overrides;
  '(m, n, ent1) ← ReadTargets_resolve c o targets ∅ ∅ ent;
  let n := ReadTargets_default targets n in
  '(m', ent2) ←
    ReadTargets_links (S (length (Targets c))) c o (map fst (range_order Target m)) m ent1;
  Ok (m', n, ent2).

End Resolver.

(** ** Matrix expander *)

#[local] Set Warnings "-register-all".

(** cty.Value with the four observations GetEvalContexts makes of it, and
    the order in which [range] visits the matrix. *)
Class Cty (Value : Type) := {
  Value_eq_dec :: EqDecision Value;
  IsMapOrObject : Value -> bool;
  AsValueMap : Value -> gmap string Value;
  CanIterateElements : Value -> bool;
  AsValueSlice : Value -> list Value;
  matrix_order : gmap string Value -> list (string * Value);
  matrix_order_perm : forall m, matrix_order m ≡ₚ map_to_list m;
}.

Section Matrix.

Context {Value : Type} `{Cty Value}.

(** hcl.EvalContext, without its functions. *)
Inductive EvalContext := {
  Variables : gmap string Value;
  parent : option EvalContext;
}.

(** ectx.NewChild() *)
Definition NewChild (ectx : EvalContext) : EvalContext :=
  {| Variables := ∅; parent := Some ectx |}.

(** Equality of contexts. The contexts GetEvalContexts compares by address
    are [ectx] and children of [ectx]; a child differs from [ectx] by its
    value too ([child_neq] below), so that the comparison of values decides
    the comparison of addresses. *)
Fixpoint EvalContext_eqb (x y : EvalContext) : bool :=
  bool_decide (Variables x = Variables y) &&
  match parent x, parent y with
  | None, None => true
  | Some p, Some q => EvalContext_eqb p q
  | _, _ => false
  end.

(** The body of the two inner loops: the context made from [e] for the
    value [v] of the variable [k]. *)
Definition matrix_child (ectx : EvalContext) (k : string) (v : Value) (e : EvalContext)
    : EvalContext :=
  {| Variables := <[k := v]> (if EvalContext_eqb e ectx then ∅ else Variables e);
     parent := Some ectx |}.

(** The loop of GetEvalContexts over the matrix. *)
Fixpoint matrix_loop (ectx : EvalContext) (kvs : list (string * Value))
    (ectxs : list EvalContext) : res (list EvalContext) :=
  match kvs with
  | [] => Ok ectxs
  | (k, expr) :: kvs' =>
      if negb (CanIterateElements expr) then Fail (Errorf "matrix values must be a list")
      else
        matrix_loop ectx kvs'
          (flat_map (fun v => map (matrix_child ectx k v) ectxs) (AsValueSlice expr))
  end.

(** GetEvalContexts of a target block. [content] stands for the block: the
    failure of PartialContent, or else the attribute "matrix" if the block
    has one, as the result of loading its dependencies and evaluating its
    expression in [ectx]. *)
Definition GetEvalContexts (ectx : EvalContext) (content : res (option (res Value)))
    : res (list EvalContext) :=
  attr ← content;
  match attr with
  | None => Ok [ectx]
  | Some value =>
      value ← value;
      if negb (IsMapOrObject value) then Fail (Errorf "matrix must be a map")
      else matrix_loop ectx (matrix_order (AsValueMap value)) [ectx]
  end.

(** The cartesian product of the candidate lists, as assignments of one
    candidate to each variable. *)
Fixpoint combinations (kvs : list (string * list Value)) : list (gmap string Value) :=
  match kvs with
  | [] => [∅]
  | (k, vs) :: kvs' => flat_map (fun c => map (fun v => <[k := v]> c) vs) (combinations kvs')
  end.

End Matrix.

(** ** The resolver over backing arrays

    The same functions with the slices of targets and overrides as Go has
    them: headers pointing into backing arrays, which assignment shares and
    which removeDupes, sort.Strings and append (within the capacity) write
    in place. Maps and the entitlement accumulator stay by value. *)

Module Aliased.

(** The backing arrays, by address. The capacity of an array is its length. *)
Abbreviation Store := (gmap nat (list string)).

Inductive Slice :=
  | NilSlice
  | SliceAt (array : nat) (len : nat).

Abbreviation Override := (Override_of Slice).
Abbreviation Target := (Target_of Slice).
Abbreviation Config := (Config_of Slice).

Definition cells (h : Store) (a : nat) : list string := default [] (h !! a).

(** The contents of a slice. *)
Definition read (h : Store) (s : Slice) : list string :=
  match s with
  | NilSlice => []
  | SliceAt a n => take n (cells h a)
  end.

Definition len (s : Slice) : nat :=
  match s with
  | NilSlice => 0
  | SliceAt _ n => n
  end.

Definition cap (h : Store) (s : Slice) : nat :=
  match s with
  | NilSlice => 0
  | SliceAt a _ => length (cells h a)
  end.

Definition is_nil (s : Slice) : bool :=
  match s with
  | NilSlice => true
  | SliceAt _ _ => false
  end.

(** A slice as the resolver by value has it. *)
Definition to_slice (h : Store) (s : Slice) : slice :=
  match s with
  | NilSlice => None
  | SliceAt _ _ => Some (read h s)
  end.

(** A new array holding [l]: the store with it, and its address. *)
Definition alloc (h : Store) (l : list string) : Store * nat :=
  let a := fresh (dom h) in
  (<[a := l]> h, a).

(** A new slice holding [l], of capacity its length. *)
Definition new_slice (h : Store) (l : list string) : Store * Slice :=
  let (h', a) := alloc h l in (h', SliceAt a (length l)).

Definition of_slice (h : Store) (s : slice) : Store * Slice :=
  match s with
  | None => (h, NilSlice)
  | Some l => new_slice h l
  end.

Definition map_Target {S S' : Type} (f : S -> S') (t : Target_of S) : Target_of S' :=
  {| Name := Name t; Description := Description t; Inherits := f (Inherits t);
     Annotations := f (Annotations t); Attest := f (Attest t); Context := Context t;
     Contexts := Contexts t; Dockerfile := Dockerfile t;
     DockerfileInline := DockerfileInline t; Args := Args t; Labels := Labels t;
     Tags := f (Tags t); CacheFrom := f (CacheFrom t); CacheTo := f (CacheTo t);
     Target_ := Target_ t; Secrets := f (Secrets t); SSH := f (SSH t);
     Platforms := f (Platforms t); Outputs := f (Outputs t); Pull := Pull t;
     NoCache := NoCache t; NetworkMode := NetworkMode t;
     NoCacheFilter := f (NoCacheFilter t); ShmSize := ShmSize t;
     Ulimits := f (Ulimits t); Call := Call t; Entitlements := f (Entitlements t);
     linked := linked t |}.

(** What a target holds, read through the store. *)
Definition view (h : Store) (t : Target) : Target_of slice := map_Target (to_slice h) t.

(** The document as the store shows it. *)
Definition view_Config (h : Store) (c : Config) : Config_of slice :=
  {| Groups := Groups c; Targets := map (view h) (Targets c) |}.

Section Resolver.

Context `{Runtime}.

(** The capacity the Go runtime gives a grown array, from the old capacity
    and the length needed. *)
Variable growcap : nat -> nat -> nat.

(** append(s, xs...): in place within the capacity, else into a new array. *)
Definition append (h : Store) (s : Slice) (xs : list string) : Store * Slice :=
  match xs with
  | [] => (h, s)
  | _ =>
      let need := len s + length xs in
      match s with
      | SliceAt a n =>
          if (need <=? length (cells h a))%nat then
            (<[a := take n (cells h a) ++ xs ++ drop need (cells h a)]> h, SliceAt a need)
          else
            let (h', a') :=
              alloc h (read h s ++ xs ++
                       replicate (Nat.max need (growcap (length (cells h a)) need) - need) "") in
            (h', SliceAt a' need)
      | NilSlice =>
          let (h', a') := alloc h (xs ++ replicate (Nat.max need (growcap 0 need) - need) "") in
          (h', SliceAt a' need)
      end
  end.

(** [if src != nil { dst = append(dst, src...) }] *)
Definition merge_append (h : Store) (dst src : Slice) : Store * Slice :=
  if is_nil src then (h, dst) else append h dst (read h src).

(** [if src != nil { dst = src }]: the header is copied, the array shared. *)
Definition replace_if_set (dst src : Slice) : Slice :=
  if is_nil src then dst else src.

(** The loop of removeDupes: [js] are the indices still to visit, [i] the
    next position written. *)
Fixpoint removeDupes_loop (a : nat) (js : list nat) (i : nat) (seen : gset string)
    (h : Store) : Store * nat :=
  match js with
  | [] => (h, i)
  | j :: js' =>
      let v := default "" (cells h a !! j) in
      if decide (v ∈ seen) then removeDupes_loop a js' i seen h
      else if decide (v = "") then removeDupes_loop a js' i seen h
      else removeDupes_loop a js' (S i) ({[v]} ∪ seen) (<[a := <[i := v]> (cells h a)]> h)
  end.

Definition removeDupes (h : Store) (s : Slice) : Store * Slice :=
  match s with
  | NilSlice => (h, NilSlice)
  | SliceAt a n =>
      let (h', i) := removeDupes_loop a (seq 0 n) 0 ∅ h in
      (h', SliceAt a i)
  end.

(** removeAttestDupes: the result is a new array. *)
Definition removeAttestDupes (h : Store) (s : Slice) : Store * Slice :=
  new_slice h (removeAttestDupes_from ∅ [] (read h s)).

Definition Merge (h : Store) (t t2 : Target) : Store * Target :=
  let '(h, annotations) := merge_append h (Annotations t) (Annotations t2) in
  let '(h, attest) :=
    if is_nil (Attest t2) then (h, Attest t)
    else let (h, s) := append h (Attest t) (read h (Attest t2)) in removeAttestDupes h s in
  let '(h, secrets) := merge_append h (Secrets t) (Secrets t2) in
  let '(h, ssh) := merge_append h (SSH t) (SSH t2) in
  let '(h, cacheFrom) := merge_append h (CacheFrom t) (CacheFrom t2) in
  let '(h, noCacheFilter) := merge_append h (NoCacheFilter t) (NoCacheFilter t2) in
  let '(h, ulimits) := merge_append h (Ulimits t) (Ulimits t2) in
  let '(h, entitlements) := merge_append h (Entitlements t) (Entitlements t2) in
  let '(h, inherits) := append h (Inherits t) (read h (Inherits t2)) in
  (h,
   {| Name := Name t;
      Context := replace_ptr (Context t) (Context t2);
      Dockerfile := replace_ptr (Dockerfile t) (Dockerfile t2);
      DockerfileInline := replace_ptr (DockerfileInline t) (DockerfileInline t2);
      Args := merge_ptr_map (Args t) (Args t2);
      Contexts := merge_str_map (Contexts t) (Contexts t2);
      Labels := merge_ptr_map (Labels t) (Labels t2);
      Tags := replace_if_set (Tags t) (Tags t2);
      Target_ := replace_ptr (Target_ t) (Target_ t2);
      Call := replace_ptr (Call t) (Call t2);
      Annotations := annotations;
      Attest := attest;
      Secrets := secrets;
      SSH := ssh;
      Platforms := replace_if_set (Platforms t) (Platforms t2);
      CacheFrom := cacheFrom;
      CacheTo := replace_if_set (CacheTo t) (CacheTo t2);
      Outputs := replace_if_set (Outputs t) (Outputs t2);
      Pull := replace_ptr (Pull t) (Pull t2);
      NoCache := replace_ptr (NoCache t) (NoCache t2);
      NetworkMode := replace_ptr (NetworkMode t) (NetworkMode t2);
      NoCacheFilter := noCacheFilter;
      ShmSize := replace_ptr (ShmSize t) (ShmSize t2);
      Ulimits := ulimits;
      Description :=
        if decide (Description t2 = "") then Description t else Description t2;
      Entitlements := entitlements;
      Inherits := inherits;
      linked := linked t |}).

Definition normalize (h : Store) (t : Target) : Store * Target :=
  let '(h, annotations) := removeDupes h (Annotations t) in
  let '(h, attest) := removeAttestDupes h (Attest t) in
  let '(h, tags) := removeDupes h (Tags t) in
  let '(h, secrets) := removeDupes h (Secrets t) in
  let '(h, ssh) := removeDupes h (SSH t) in
  let '(h, platforms) := removeDupes h (Platforms t) in
  let '(h, cacheFrom) := removeDupes h (CacheFrom t) in
  let '(h, cacheTo) := removeDupes h (CacheTo t) in
  let '(h, outputs) := removeDupes h (Outputs t) in
  let '(h, noCacheFilter) := removeDupes h (NoCacheFilter t) in
  let '(h, ulimits) := removeDupes h (Ulimits t) in
  let '(h, entitlements) :=
    if decide (NetworkMode t = Some "host")
    then append h (Entitlements t) ["network.host"]
    else (h, Entitlements t) in
  let '(h, entitlements) := removeDupes h entitlements in
  (h,
   {| Name := Name t;
      Description := Description t;
      Inherits := Inherits t;
      Annotations := annotations;
      Attest := attest;
      Context := Context t;
      Contexts := normalize_Contexts (Contexts t);
      Dockerfile := Dockerfile t;
      DockerfileInline := DockerfileInline t;
      Args := Args t;
      Labels := Labels t;
      Tags := tags;
      CacheFrom := cacheFrom;
      CacheTo := cacheTo;
      Target_ := Target_ t;
      Secrets := secrets;
      SSH := ssh;
      Platforms := platforms;
      Outputs := outputs;
      Pull := Pull t;
      NoCache := NoCache t;
      NetworkMode := NetworkMode t;
      NoCacheFilter := noCacheFilter;
      ShmSize := ShmSize t;
      Ulimits := ulimits;
      Call := Call t;
      Entitlements := entitlements;
      linked := linked t |}).

(** setPushOverride: the result is built in a new array. *)
Definition setPushOverride (h : Store) (outputs : Slice) (push : bool) : Store * Slice :=
  of_slice h (setPushOverride (to_slice h outputs) push).

Definition setLoadOverride (h : Store) (outputs : Slice) (load : bool) : Store * Slice :=
  if negb load then (h, outputs)
  else if setLoadOverride_loop (read h outputs) then append h outputs ["type=docker"]
  else (h, outputs).

(** One iteration of the loop of AddOverrides. *)
Definition AddOverrides_body (key : string) (o : Override)
    (st : Store * Target * EntitlementConf) : res (Store * Target * EntitlementConf) :=
  let '(h, t, ent) := st in
  let value := Value o in
  let arr := to_slice h (ArrValue o) in
  let keys := SplitN key "." 2 in
  let key0 := hd "" keys in
  if decide (key0 = "context") then Ok (h, set_Context (Some value) t, ent)
  else if decide (key0 = "dockerfile") then Ok (h, set_Dockerfile (Some value) t, ent)
  else if decide (key0 = "args") then
    match keys with
    | [_; k] => Ok (h, set_Args (Some (<[k:=Some value]> (default ∅ (Args t)))) t, ent)
    | _ => Fail (Errorf "invalid format for args, expecting args.<name>=<value>")
    end
  else if decide (key0 = "contexts") then
    match keys with
    | [_; k] => Ok (h, set_Contexts (Some (<[k:=value]> (default ∅ (Contexts t)))) t, ent)
    | _ => Fail (Errorf "invalid format for contexts, expecting contexts.<name>=<value>")
    end
  else if decide (key0 = "labels") then
    match keys with
    | [_; k] => Ok (h, set_Labels (Some (<[k:=Some value]> (default ∅ (Labels t)))) t, ent)
    | _ => Fail (Errorf "invalid format for labels, expecting labels.<name>=<value>")
    end
  else if decide (key0 = "tags") then Ok (h, set_Tags (ArrValue o) t, ent)
  else if decide (key0 = "cache-from") then
    cacheFrom ← of_parsed (ParseCacheEntry arr);
    Ok (h, set_CacheFrom (ArrValue o) t,
        add_each add_FSRead (local_attrs "src" cacheFrom) ent)
  else if decide (key0 = "cache-to") then
    cacheTo ← of_parsed (ParseCacheEntry arr);
    Ok (h, set_CacheTo (ArrValue o) t,
        add_each add_FSWrite (local_attrs "dest" cacheTo) ent)
  else if decide (key0 = "target") then Ok (h, set_Target_ (Some value) t, ent)
  else if decide (key0 = "call") then Ok (h, set_Call (Some value) t, ent)
  else if decide (key0 = "secrets") then
    secrets ← Wrap (of_parsed (ParseSecretSpecs arr)) "invalid value for outputs";
    Ok (h, set_Secrets (ArrValue o) t,
        add_each add_FSRead
          (map (fun s => if decide (Secret_FilePath s = "") then [] else [Secret_FilePath s])
               secrets) ent)
  else if decide (key0 = "ssh") then
    ssh ← Wrap (of_parsed (ParseSSHSpecs arr)) "invalid value for outputs";
    Ok (h, set_SSH (ArrValue o) t, add_each add_FSRead (map SSH_Paths ssh) ent)
  else if decide (key0 = "platform") then Ok (h, set_Platforms (ArrValue o) t, ent)
  else if decide (key0 = "output") then
    outputs ← Wrap (of_parsed (ParseExports arr)) "invalid value for outputs";
    Ok (h, set_Outputs (ArrValue o) t,
        add_each add_FSWrite
          (map (fun e => if decide (Export_Destination e = "") then [] else [Export_Destination e])
               outputs) ent)
  else if decide (key0 = "entitlements") then
    let (h', s) := append h (Entitlements t) (read h (ArrValue o)) in
    Ok (h', set_Entitlements s t, flag_entitlements (read h (ArrValue o)) ent)
  else if decide (key0 = "annotations") then
    let (h', s) := append h (Annotations t) (read h (ArrValue o)) in
    Ok (h', set_Annotations s t, ent)
  else if decide (key0 = "attest") then
    let (h', s) := append h (Attest t) (read h (ArrValue o)) in
    Ok (h', set_Attest s t, ent)
  else if decide (key0 = "no-cache") then
    noCache ← parse_bool_key "no-cache" value;
    Ok (h, set_NoCache (Some noCache) t, ent)
  else if decide (key0 = "no-cache-filter") then Ok (h, set_NoCacheFilter (ArrValue o) t, ent)
  else if decide (key0 = "shm-size") then Ok (h, set_ShmSize (Some value) t, ent)
  else if decide (key0 = "ulimits") then Ok (h, set_Ulimits (ArrValue o) t, ent)
  else if decide (key0 = "network") then Ok (h, set_NetworkMode (Some value) t, ent)
  else if decide (key0 = "pull") then
    pull ← parse_bool_key "pull" value;
    Ok (h, set_Pull (Some pull) t, ent)
  else if decide (key0 = "push") then
    push ← parse_bool_key "push" value;
    let (h', s) := setPushOverride h (Outputs t) push in
    Ok (h', set_Outputs s t, ent)
  else if decide (key0 = "load") then
    load ← parse_bool_key "load" value;
    let (h', s) := setLoadOverride h (Outputs t) load in
    Ok (h', set_Outputs s t, ent)
  else Fail (Errorf ("unknown key: " +:+ key0)).

Definition AddOverrides (h : Store) (t : Target) (overrides : gmap string Override)
    (ent : EntitlementConf) : res (Store * Target * EntitlementConf) :=
  range_fold AddOverrides_body (range_order Override overrides) (h, t, ent).

Definition find_target (c : Config) (name : string) : option Target :=
  find (fun t => bool_decide (Name t = name)) (Targets c).

(** &Target{} *)
Definition defaultTarget : Target := map_Target (fun _ => NilSlice) defaultTarget.

(** The loop of [target] over the inherited names. *)
Fixpoint target_inherits
    (rec : string -> Store -> gmap string (option Target) -> EntitlementConf ->
           res (option Target * Store * gmap string (option Target) * EntitlementConf))
    (names : list string) (h : Store) (tt0 : Target) (visited : gmap string (option Target))
    (ent : EntitlementConf)
    : res (Target * Store * gmap string (option Target) * EntitlementConf) :=
  match names with
  | [] => Ok (tt0, h, visited, ent)
  | name :: names' =>
      '(t, h', visited', ent') ← rec name h visited ent;
      let (h'', tt1) := match t with Some t => Merge h' tt0 t | None => (h', tt0) end in
      target_inherits rec names' h'' tt1 visited' ent'
  end.

Fixpoint target (fuel : nat) (c : Config) (name : string) (h : Store)
    (visited : gmap string (option Target))
    (overrides : gmap string (gmap string Override)) (ent : EntitlementConf)
    : res (option Target * Store * gmap string (option Target) * EntitlementConf) :=
  match fuel with
  | 0 => Fail OutOfFuel
  | S fuel' =>
      match visited !! name with
      | Some t => Ok (t, h, visited, ent)
      | None =>
          match find_target c name with
          | None => Fail (Errorf ("failed to find target " +:+ name))
          | Some t =>
              '(tt0, h, visited', ent') ←
                target_inherits (fun n h v e => target fuel' c n h v overrides e)
                  (read h (Inherits t)) h defaultTarget (<[name := None]> visited) ent;
              let (h, m) := Merge h defaultTarget tt0 in
              let (h, m) := Merge h m t in
              '(h, m', ent'') ← AddOverrides h m (default ∅ (overrides !! name)) ent';
              let (h, tt1) := normalize h m' in
              Ok (Some tt1, h, <[name := Some tt1]> visited', ent'')
          end
      end
  end.

Definition ResolveTarget (c : Config) (name : string) (h : Store)
    (overrides : gmap string (gmap string Override)) (ent : EntitlementConf)
    : res (Target * Store * EntitlementConf) :=
  '(t, h', _, ent') ← target (S (length (Targets c))) c name h ∅ overrides ent;
  match t with
  | None => Fail Panic
  | Some t =>
      let t := set_Inherits NilSlice t in
      let t := if Context t is None then set_Context (Some ".") t else t in
      let t := if Dockerfile t is None then set_Dockerfile (Some "Dockerfile") t else t in
      Ok (t, h', ent')
  end.

(** sort.Strings(s): the elements of the slice are sorted in their array. *)
Definition sort_Strings (h : Store) (s : Slice) : Store :=
  match s with
  | NilSlice => h
  | SliceAt a n => <[a := sort_Strings (read h s) ++ drop n (cells h a)]> h
  end.

Definition sliceEqual (h : Store) (s1 s2 : Slice) : bool * Store :=
  if negb (len s1 =? len s2)%nat then (false, h)
  else
    let h := sort_Strings h s1 in
    let h := sort_Strings h s2 in
    (bool_decide (read h s1 = read h s2), h).

End Resolver.

End Aliased.


(** ** Vocabulary of the statements *)

(** The names the glob selects, when the pattern is well formed. *)
Definition glob_names `{Runtime} (pattern : string) (ts : list Target) : list string :=
  map Name (filter (fun t => path_Match pattern (Name t) = Some true) ts).

(** The pattern of an override, as newOverrides takes it. *)
Definition override_pattern (v : string) : string :=
  hd "" (SplitN (hd "" (SplitN v "=" 2)) "." 3).

(** The pointer-valued fields of a target: Merge replaces each of them when
    the merged target has it set. *)
Inductive ptr_field :=
  | FContext | FDockerfile | FDockerfileInline | FTarget | FCall
  | FPull | FNoCache | FNetworkMode | FShmSize.

Inductive ptr_value :=
  | PString (s : string)
  | PBool (b : bool).

Definition get_ptr (f : ptr_field) (t : Target) : option ptr_value :=
  match f with
  | FContext => PString <$> Context t
  | FDockerfile => PString <$> Dockerfile t
  | FDockerfileInline => PString <$> DockerfileInline t
  | FTarget => PString <$> Target_ t
  | FCall => PString <$> Call t
  | FPull => PBool <$> Pull t
  | FNoCache => PBool <$> NoCache t
  | FNetworkMode => PString <$> NetworkMode t
  | FShmSize => PString <$> ShmSize t
  end.

(** The override key whose case in AddOverrides assigns the field. *)
Definition ptr_key (f : ptr_field) : string :=
  match f with
  | FContext => "context"
  | FDockerfile => "dockerfile"
  | FDockerfileInline => "dockerfile-inline"
  | FTarget => "target"
  | FCall => "call"
  | FPull => "pull"
  | FNoCache => "no-cache"
  | FNetworkMode => "network"
  | FShmSize => "shm-size"
  end.

(** The first component of an override key, on which AddOverrides
    dispatches. *)
Definition key_head (key : string) : string := hd "" (SplitN key "." 2).

(** No override of the target [name] assigns the field [f]. *)
Definition not_overridden (o : gmap string (gmap string Override)) (name : string)
    (f : ptr_field) : Prop :=
  map_Forall (fun key _ => key_head key ≠ ptr_key f) (default ∅ (o !! name)).

(** The accumulator of [target] after its loop: the resolved parents merged
    in order, the absent ones ([None], a nil pointer) skipped. *)
Definition merge_parents `{Runtime} (ps : list (option Target)) (tt0 : Target) : Target :=
  fold_left (fun acc p => match p with Some t => Merge acc t | None => acc end) ps tt0.

(** The number of occurrences of [x] in [l]. *)
Definition count (x : string) (l : list string) : nat :=
  length (filter (fun y => y = x) l).

(** A name is in progress in the memo of [target]: registered, not yet
    resolved. *)
Definition in_progress (visited : gmap string (option Target)) (n : string) : Prop :=
  visited !! n = Some None.

(** *** The shape of a resolution, for a property [Good] of resolved targets *)

Section Shape.

Context `{Runtime}.
Variable c : Config.
Variable o : gmap string (gmap string Override).
Variable Good : string -> Target -> Prop.

(** The resolved entries of the memo are good. *)
Definition memo_good (visited : gmap string (option Target)) : Prop :=
  forall n t, visited !! n = Some (Some t) -> Good n t.

(** A parent as the loop of the call for [name], entered with the memo
    [visited], meets it: resolved and good, or in progress and skipped. *)
Definition parent_ok (visited : gmap string (option Target)) (name n : string)
    (p : option Target) : Prop :=
  match p with
  | Some t => Good n t
  | None => n = name \/ in_progress visited n
  end.

(** What a successful call leaves: the memo extended, with no name left in
    progress that was not so before; and on a first visit the result as
    [target] builds it. *)
Definition target_post (name : string) (visited : gmap string (option Target))
    (r : option Target) (visited' : gmap string (option Target))
    (ent' : EntitlementConf) : Prop :=
  memo_good visited' /\
  (forall n x, visited !! n = Some x -> visited' !! n = Some x) /\
  (forall n, in_progress visited' n -> in_progress visited n) /\
  match visited !! name with
  | Some x => r = x
  | None =>
      exists decl ps m' ent1,
        find_target c name = Some decl /\
        Forall2 (parent_ok visited name) (elems (Inherits decl)) ps /\
        AddOverrides (Merge (Merge defaultTarget (merge_parents ps defaultTarget)) decl)
          (default ∅ (o !! name)) ent1 = Ok (m', ent') /\
        r = Some (normalize m') /\
        visited' !! name = Some (Some (normalize m'))
  end.

End Shape.

(** The names of the declared targets, and of the declared groups. *)
Definition target_names (c : Config) : gset string := list_to_set (map Name (Targets c)).
Definition group_names (c : Config) : gset string := list_to_set (map Group_Name (Groups c)).

(** An error of the program itself: a message, not a panic and not the
    bound of the model. *)
Definition is_Errorf (e : error) : Prop :=
  match e with
  | Errorf _ => True
  | _ => False
  end.

(** The declared names not yet in the memo of [target] bound the depth of
    recursion still needed. *)
Definition unmet (c : Config) (visited : gmap string (option Target)) : nat :=
  size (target_names c ∖ dom visited).

(** [a] is the target [n] or a target it inherits from, directly or not. *)
Inductive inherits_from (c : Config) : string -> string -> Prop :=
  | inherits_refl (n : string) : inherits_from c n n
  | inherits_step (n p a : string) (decl : Target) :
      find_target c n = Some decl ->
      p ∈ elems (Inherits decl) ->
      inherits_from c p a ->
      inherits_from c n a.

(** The field [f] is neither declared nor overridden on [name] or on any
    target it inherits from. *)
Definition unset_for (c : Config) (o : gmap string (gmap string Override))
    (f : ptr_field) (name : string) : Prop :=
  forall a, inherits_from c name a ->
    (forall decl, find_target c a = Some decl -> get_ptr f decl = None) /\
    not_overridden o a f.

(** ** Sample inputs

    A small environment and small documents on which the statements are
    run. *)

(** A matcher for patterns made of literal characters, [*] and [?]; any
    pattern with a bracket or a backslash is reported as malformed. *)
Fixpoint sample_glob (p s : string) : bool :=
  match p with
  | EmptyString => bool_decide (s = "")
  | String a p' =>
      if Ascii.eqb a "*" then
        (fix try (s : string) : bool :=
           sample_glob p' s ||
           match s with
           | EmptyString => false
           | String _ s' => try s'
           end) s
      else
        match s with
        | EmptyString => false
        | String b s' => (Ascii.eqb a "?" || Ascii.eqb a b) && sample_glob p' s'
        end
  end.

Fixpoint sample_wellformed (p : string) : bool :=
  match p with
  | EmptyString => true
  | String a p' => negb (Ascii.eqb a "[") && negb (Ascii.eqb a "\") && sample_wellformed p'
  end.

(** The environment: maps ranged in the order of [map_to_list], no
    environment variable set, parsers that find nothing to report. *)
#[export] Instance sample_Runtime : Runtime := {|
  range_order := fun A m => map_to_list m;
  range_order_perm := fun A m => reflexivity (map_to_list m);
  path_Match := fun p n => if sample_wellformed p then Some (sample_glob p n) else None;
  LookupEnv := fun _ => None;
  ParseCacheEntry := fun _ => Parsed [];
  ParseSecretSpecs := fun _ => Parsed [];
  ParseSSHSpecs := fun _ => Parsed [];
  ParseExports := fun _ => Parsed [];
  ParseAttest := fun _ => None;
  csvFields := fun s => Some [s];
|}.

Definition sample_ent : EntitlementConf :=
  {| NetworkHost := false; SecurityInsecure := false; FSRead := None; FSWrite := None |}.

(** A target with a name and nothing else declared. *)
Definition sample_target (name : string) : Target :=
  {| Name := name; Description := ""; Inherits := None; Annotations := None;
     Attest := None; Context := None; Contexts := None; Dockerfile := None;
     DockerfileInline := None; Args := None; Labels := None; Tags := None;
     CacheFrom := None; CacheTo := None; Target_ := None; Secrets := None;
     SSH := None; Platforms := None; Outputs := None; Pull := None;
     NoCache := None; NetworkMode := None; NoCacheFilter := None;
     ShmSize := None; Ulimits := None; Call := None; Entitlements := None;
     linked := false |}.

(** [web] inherits from [base] and [prod]; all three declare host
    networking and its entitlement. *)
Definition sample_config : Config :=
  {| Groups :=
       [ {| Group_Name := "all"; Group_Description := "";
            Group_Targets := Some ["web"; "tools"] |};
         {| Group_Name := "tools"; Group_Description := "";
            Group_Targets := Some ["base"; "all"] |} ];
     Targets :=
       [ set_Entitlements (Some ["network.host"; "network.host"])
           (set_NetworkMode (Some "host")
              (set_Inherits (Some ["base"; "prod"]) (sample_target "web")));
         set_Entitlements (Some ["network.host"])
           (set_NetworkMode (Some "host")
              (set_Dockerfile (Some "Dockerfile.base")
                 (set_Context (Some "./base") (sample_target "base"))));
         set_Entitlements (Some ["security.insecure"; "network.host"])
           (set_Context (Some "./prod") (sample_target "prod")) ] |}.

(** The target of a successful resolution, for the samples. *)
Definition resolved (r : res (Target * EntitlementConf)) : Target :=
  match r with
  | Ok (t, _) => t
  | Fail _ => defaultTarget
  end.

Definition sample_web : Target :=
  Eval vm_compute in resolved (ResolveTarget sample_config "web" ∅ sample_ent).

(** The declaration of [web] in the sample. *)
Definition sample_web_decl : Target :=
  set_Entitlements (Some ["network.host"; "network.host"])
    (set_NetworkMode (Some "host")
       (set_Inherits (Some ["base"; "prod"]) (sample_target "web"))).

(** A document with one target that declares nothing. *)
Definition sample_plain : Config :=
  {| Groups := []; Targets := [sample_target "app"] |}.

Definition sample_app : Target :=
  Eval vm_compute in resolved (ResolveTarget sample_plain "app" ∅ sample_ent).

(** ** Vocabulary of the statements on groups *)

(** The entry [visit{}] that [group] registers for a name before its loop. *)
Definition empty_visit : visit := {| visit_target := []; visit_group := [] |}.

(** The members of a group; none for a name that is not a group. *)
Definition members (c : Config) (h : string) : list string :=
  match find_group c h with
  | Some g => elems (Group_Targets g)
  | None => []
  end.

(** [h] is the group [g] or a group among its members, direct or not. *)
Inductive group_path (c : Config) (g : string) : string -> Prop :=
  | group_path_refl : group_path c g g
  | group_path_step (h m : string) :
      group_path c g h -> m ∈ members c h -> is_Some (find_group c m) ->
      group_path c g m.

(** The member list of [g] reaches [g] itself. *)
Definition group_cycle (c : Config) (g : string) : Prop :=
  exists h, group_path c g h /\ g ∈ members c h.

(** The declared groups not yet in the memo of [group] bound the depth of
    recursion still needed. *)
Definition unmet_groups (c : Config) (visited : gmap string visit) : nat :=
  size (group_names c ∖ dom visited).

(** What a successful call of [group] leaves, [x] being a name in progress:
    the memo extended; each entry it adds is a group, lists [x] among its
    targets if [x] is a member of it, has its targets among those returned,
    and has its member groups in the memo. *)
Definition group_post (c : Config) (x name : string) (visited : gmap string visit)
    (ts : list string) (visited' : gmap string visit) : Prop :=
  (forall n v, visited !! n = Some v -> visited' !! n = Some v) /\
  (forall h v, visited !! h = None -> visited' !! h = Some v ->
     is_Some (find_group c h) /\
     (x ∈ members c h -> x ∈ visit_target v) /\
     (forall y, y ∈ visit_target v -> y ∈ ts) /\
     (forall m, m ∈ members c h -> is_Some (find_group c m) -> m ∈ dom visited')) /\
  (is_Some (find_group c name) -> name ∈ dom visited').

(** ** Vocabulary of the statements on links *)




(** ** Vocabulary of the statements on the matrix *)

Section MatrixVocabulary.

Context {Value : Type} `{Cty Value}.

(** The number of contexts above a context. *)
Fixpoint depth (e : @EvalContext Value) : nat :=
  match parent e with
  | None => 0
  | Some p => S (depth p)
  end.

(** The matrix variables bound in a context of the expansion of [ectx]:
    none in [ectx] itself, the variables of a context made for the matrix. *)
Definition bound_variables (ectx e : @EvalContext Value) : gmap string Value :=
  if EvalContext_eqb e ectx then ∅ else Variables e.

(** One step of the loop of GetEvalContexts on the contexts. *)
Definition matrix_step (ectx : @EvalContext Value) (ectxs : list (@EvalContext Value))
    (kv : string * Value) : list (@EvalContext Value) :=
  flat_map (fun v => map (matrix_child ectx kv.1 v) ectxs) (AsValueSlice kv.2).

(** The cartesian product of the assignments so far against the candidate
    values of one more variable, each assignment copied for each value. *)
Definition product_step (assignments : list (gmap string Value))
    (kv : string * Value) : list (gmap string Value) :=
  flat_map (fun v => map (fun a => <[kv.1 := v]> a) assignments) (AsValueSlice kv.2).

(** The assignments of the matrix: one empty assignment to start with, the
    product against each variable in turn. *)
Definition matrix_assignments (kvs : list (string * Value)) : list (gmap string Value) :=
  fold_left product_step kvs [∅].

(** The product of the numbers of candidate values. *)
Definition matrix_size (kvs : list (string * Value)) : nat :=
  foldr (fun kv n => length (AsValueSlice kv.2) * n) 1 kvs.

(** An assignment of one candidate value to each variable of the matrix,
    and of nothing else. *)
Definition is_combination (matrix : gmap string Value) (a : gmap string Value) : Prop :=
  (forall k, matrix !! k = None -> a !! k = None) /\
  (forall k e, matrix !! k = Some e -> exists v, v ∈ AsValueSlice e /\ a !! k = Some v).

End MatrixVocabulary.

(** A sample of cty values: strings, lists of strings, and objects whose
    attributes are lists of strings. *)
Inductive sample_value :=
  | SString (s : string)
  | SList (l : list string)
  | SObject (m : gmap string (list string)).

#[export] Instance sample_value_eq_dec : EqDecision sample_value.
Proof. solve_decision. Defined.

#[export] Instance sample_Cty : Cty sample_value := {|
  IsMapOrObject := fun v => match v with SObject _ => true | _ => false end;
  AsValueMap := fun v => match v with SObject m => SList <$> m | _ => ∅ end;
  CanIterateElements := fun v => match v with SString _ => false | _ => true end;
  AsValueSlice := fun v =>
    match v with
    | SList l => SString <$> l
    | SObject m => (fun kv => SList kv.2) <$> map_to_list m
    | SString _ => []
    end;
  matrix_order := fun m => map_to_list m;
  matrix_order_perm := fun m => reflexivity (map_to_list m);
|}.

(** matrix = { os = ["linux", "darwin"], arch = ["amd64", "arm64"] } *)
Definition sample_matrix : sample_value :=
  SObject {[ "os" := ["linux"; "darwin"]; "arch" := ["amd64"; "arm64"] ]}.

Definition sample_ectx : @EvalContext sample_value :=
  {| Variables := {[ "TAG" := SString "latest" ]}; parent := None |}.

(** A document over backing arrays: the target [web] declares the tags
    held by the array at address 0, one of them twice. *)
Definition sample_aliased_web : Aliased.Target :=
  set_Tags (Aliased.SliceAt 0 3)
    (Aliased.map_Target (fun _ : slice => Aliased.NilSlice) (sample_target "web")).

Definition sample_aliased_config : Aliased.Config :=
  {| Groups := []; Targets := [sample_aliased_web] |}.

Definition sample_store : Aliased.Store :=
  {[ 0 := ["app:latest"; "app:latest"; "app:v1"] ]}.

(** Two platform lists, as two resolved targets hold them. *)
Definition sample_platforms : Aliased.Store :=
  {[ 1 := ["linux/arm64"; "linux/amd64"]; 2 := ["linux/amd64"; "linux/arm64"] ]}.


(** ** Vocabulary of the further properties *)

(** The index table of removeAttestDupes: a type is mapped to an index
    exactly when the entry at this index has the type. *)
Definition attest_index `{Runtime} (m : gmap string nat) (res : list string) : Prop :=
  forall ty i, m !! ty = Some i <-> exists v, res !! i = Some v /\ ParseAttest v = Some ty.

(** No two entries of the list parse to the same attestation type. *)
Definition attest_unique `{Runtime} (l : list string) : Prop :=
  forall i j v v' ty,
    l !! i = Some v -> l !! j = Some v' ->
    ParseAttest v = Some ty -> ParseAttest v' = Some ty -> i = j.

(** The list fields that normalize passes through removeDupes. *)
Definition deduped_fields (t : Target) : list slice :=
  [Annotations t; Tags t; Secrets t; SSH t; Platforms t; CacheFrom t; CacheTo t;
   Outputs t; NoCacheFilter t; Ulimits t; Entitlements t].

(** The keys that have a case in the switch of AddOverrides. *)
Definition override_keys : list string :=
  ["context"; "dockerfile"; "args"; "contexts"; "labels"; "tags"; "cache-from";
   "cache-to"; "target"; "call"; "secrets"; "ssh"; "platform"; "output";
   "entitlements"; "annotations"; "attest"; "no-cache"; "no-cache-filter";
   "shm-size"; "ulimits"; "network"; "pull"; "push"; "load"].

(** The keys whose value AddOverrides parses as a boolean. *)
Definition boolean_keys : list string := ["no-cache"; "pull"; "push"; "load"].

(** An output that leaves a load override in force: an image, a registry or
    an oci output, or a docker output written to a destination. *)
Definition load_compatible `{Runtime} (output : string) : Prop :=
  let typ := parseOutputType output in
  typ = "image" \/ typ = "registry" \/ typ = "oci" \/
  (typ = "docker" /\ exists v, parseOutput output = Some v /\ is_Some (v !! "dest")).

(** What the loop of setPushOverride appends for one output. *)
Definition push_output `{Runtime} (push : bool) (output : string) : list string :=
  let typ := parseOutputType output in
  if decide (typ = "registry") then (if push then [output] else [])
  else if decide (typ = "image") then [output +:+ ",push=" +:+ FormatBool push]
  else [output].

(** ** Vocabulary and samples of the amended claims *)

(** A search for [s] in [msg], which decides [Contains msg s]. *)
Fixpoint Containsb (s msg : string) : bool :=
  String.prefix s msg ||
  match msg with
  | EmptyString => false
  | String _ msg' => Containsb s msg'
  end.

(** The entries that [m'] has and [m] has not are resolved targets, as far
    as their named contexts go. *)
Definition adds_resolved `{Runtime} (c : Config) (o : gmap string (gmap string Override))
    (m m' : gmap string Target) : Prop :=
  forall n t, m !! n = None -> m' !! n = Some t ->
    exists ent t0 ent', ResolveTarget c n o ent = Ok (t0, ent') /\ Contexts t = Contexts t0.


(** The group [all] lists itself after the target [bad], which inherits
    from a target that is not declared. *)
Definition sample_cyclic : Config :=
  {| Groups := [ {| Group_Name := "all"; Group_Description := "";
                    Group_Targets := Some ["bad"; "all"] |} ];
     Targets := [ set_Inherits (Some ["nope"]) (sample_target "bad") ] |}.



(** * Properties *)

(** ** Strings and results *)

Lemma append_cons (a : ascii) (s t : string) : String a s +:+ t = String a (s +:+ t).
Proof. reflexivity. Qed.

Lemma append_empty_l (s : string) : "" +:+ s = s.
Proof. reflexivity. Qed.

Lemma append_empty_r (s : string) : s +:+ "" = s.
Proof. induction s as [|a s IH]; [done | by rewrite append_cons, IH]. Qed.

Lemma append_assoc (a b c : string) : (a +:+ b) +:+ c = a +:+ b +:+ c.
Proof. induction a as [|x a IH]; [done | by rewrite !append_cons, IH]. Qed.

(** Literal prefixes are pushed inside, appends are nested to the right. *)
Ltac norm_append :=
  repeat first [ rewrite append_cons | rewrite append_empty_l
               | rewrite append_empty_r | rewrite append_assoc ].

Lemma Contains_middle (pre s post : string) : Contains (pre +:+ s +:+ post) s.
Proof. by exists pre, post. Qed.

Lemma bind_Ok {A B} (r : res A) (k : A -> res B) (b : B) :
  r ≫= k = Ok b -> exists a, r = Ok a /\ k a = Ok b.
Proof. destruct r as [a|e]; [by exists a | done]. Qed.

Lemma bind_Fail {A B} (r : res A) (k : A -> res B) (e : error) :
  r = Fail e -> r ≫= k = Fail e.
Proof. by intros ->. Qed.

(** [Containsb] finds every occurrence. *)
Lemma prefix_append (s post : string) : String.prefix s (s +:+ post) = true.
Proof.
  induction s as [|a s IH]; [by destruct post|].
  rewrite append_cons. simpl. by destruct (Ascii.ascii_dec a a).
Qed.

Lemma Contains_Containsb (msg s : string) : Contains msg s -> Containsb s msg = true.
Proof.
  assert (Hp : forall m, String.prefix s m = true -> Containsb s m = true).
  { intros m Hm. destruct m; cbn [Containsb]; by rewrite Hm. }
  intros (pre & post & ->). induction pre as [|a pre IH].
  - rewrite append_empty_l. apply Hp, prefix_append.
  - rewrite append_cons. simpl. rewrite IH. apply orb_true_r.
Qed.

(** ** Override patterns *)

Section ExpandTargets.

Context `{Runtime}.

Lemma find_target_Some (c : Config) (name : string) (t : Target) :
  find_target c name = Some t -> t ∈ Targets c /\ Name t = name.
Proof.
  unfold find_target. intros Hf. apply find_some in Hf as [Hin Hn].
  split; [by apply list_elem_of_In | by apply bool_decide_eq_true in Hn].
Qed.

Lemma find_target_None (c : Config) (name : string) :
  find_target c name = None <-> forall t, t ∈ Targets c -> Name t ≠ name.
Proof.
  unfold find_target. split.
  - intros Hf t Hin Hn. apply list_elem_of_In in Hin.
    pose proof (find_none _ _ Hf t Hin) as Hb. simpl in Hb.
    by apply bool_decide_eq_false in Hb.
  - intros Hall. destruct (find _ _) as [t|] eqn:Hf; [|done].
    apply find_some in Hf as [Hin Hn]. apply bool_decide_eq_true in Hn.
    apply list_elem_of_In in Hin. by destruct (Hall t Hin).
Qed.

Lemma find_target_is_Some (c : Config) (name : string) :
  name ∈ map Name (Targets c) -> is_Some (find_target c name).
Proof.
  intros Hin. destruct (find_target c name) eqn:Hf; [by eexists|].
  apply list_elem_of_In, in_map_iff in Hin as (t & Hn & Hin).
  apply list_elem_of_In in Hin.
  by destruct (proj1 (find_target_None c name) Hf t Hin).
Qed.

Lemma expandTargets_match_Some (pattern : string) (ts : list Target) :
  (forall t, t ∈ ts -> is_Some (path_Match pattern (Name t))) ->
  expandTargets_match pattern ts = Some (glob_names pattern ts).
Proof.
  unfold glob_names. induction ts as [|t ts IH]; intros Hall; [done|].
  simpl. destruct (Hall t) as [ok Hok]; [by left|]. rewrite Hok.
  rewrite IH by (intros; apply Hall; by right). simpl.
  destruct ok.
  - by rewrite filter_cons_True.
  - rewrite filter_cons_False; [done|]. by rewrite Hok.
Qed.

Lemma expandTargets_match_names (pattern : string) (ts : list Target) (names : list string) :
  expandTargets_match pattern ts = Some names ->
  forall n, n ∈ names -> exists t, t ∈ ts /\ Name t = n /\ path_Match pattern n = Some true.
Proof.
  revert names. induction ts as [|t ts IH]; intros names; simpl.
  - intros [= <-] n Hn. by apply elem_of_nil in Hn.
  - destruct (path_Match pattern (Name t)) as [ok|] eqn:Hok; [|done].
    destruct (expandTargets_match pattern ts) as [names'|]; [|done].
    simpl. intros [= <-] n Hn.
    destruct ok.
    + apply elem_of_cons in Hn as [->|Hn].
      * exists t. split; [by left | done].
      * destruct (IH _ eq_refl n Hn) as (t' & ? & ? & ?).
        exists t'. split; [by right | done].
    + destruct (IH _ eq_refl n Hn) as (t' & ? & ? & ?).
      exists t'. split; [by right | done].
Qed.

Lemma newOverrides_entry_fails (c : Config) (v : string)
    (m : gmap string (gmap string Override)) (e : error) :
  expandTargets c (override_pattern v) = Fail e ->
  exists e', newOverrides_entry c v m = Fail e'.
Proof.
  intros He. unfold newOverrides_entry.
  destruct (_ <? 2)%nat; [by eexists|].
  destruct (_ && _); [by eexists|].
  fold (override_pattern v). rewrite He. by eexists.
Qed.

Lemma newOverrides_from_fails (c : Config) (l : list string) (v : string)
    (m : gmap string (gmap string Override)) (e : error) :
  v ∈ l ->
  expandTargets c (override_pattern v) = Fail e ->
  exists e', newOverrides_from c l m = Fail e'.
Proof.
  intros Hin He. revert m. induction l as [|x l IH]; intros m.
  - by apply elem_of_nil in Hin.
  - simpl. apply elem_of_cons in Hin as [<-|Hin].
    + destruct (newOverrides_entry_fails c v m e He) as [e' ->]. by eexists.
    + destruct (newOverrides_entry c x m) as [m'|e']; [|by eexists].
      simpl. by apply IH.
Qed.

(** C8. An override pattern equal to the name of a declared target expands
    to that name alone, without any glob matching. Otherwise the pattern is
    matched as a glob against the names of all declared targets, and
    expands to the names it matches, in declaration order. A pattern that
    matches no name makes expandTargets fail with an error quoting the
    pattern, and newOverrides fail on any list holding such an override. *)
Theorem C8_expandTargets (c : Config) (pattern : string) :
  (pattern ∈ map Name (Targets c) -> expandTargets c pattern = Ok [pattern]) /\
  (pattern ∉ map Name (Targets c) ->
   (forall t, t ∈ Targets c -> is_Some (path_Match pattern (Name t))) ->
   glob_names pattern (Targets c) ≠ [] ->
   expandTargets c pattern = Ok (glob_names pattern (Targets c))) /\
  (pattern ∉ map Name (Targets c) ->
   (forall t, t ∈ Targets c -> path_Match pattern (Name t) ≠ Some true) ->
   (exists msg, expandTargets c pattern = Fail (Errorf msg) /\
                Contains msg ("'" +:+ pattern +:+ "'")) /\
   forall (l : list string) (v : string),
     v ∈ l -> override_pattern v = pattern ->
     exists e, newOverrides c l = Fail e).
Proof.
  assert (Hnone : pattern ∉ map Name (Targets c) -> find_target c pattern = None).
  { intros Hnot. apply find_target_None. intros t Hin Hn. apply Hnot.
    apply list_elem_of_In, in_map_iff. exists t. split; [done | by apply list_elem_of_In]. }
  split; [|split].
  - intros Hin. unfold expandTargets.
    by destruct (find_target_is_Some c pattern Hin) as [t ->].
  - intros Hnot Hall Hne. unfold expandTargets.
    rewrite (Hnone Hnot), (expandTargets_match_Some _ _ Hall).
    by destruct (glob_names pattern (Targets c)).
  - intros Hnot Hno.
    assert (Hfail : exists msg, expandTargets c pattern = Fail (Errorf msg) /\
                                Contains msg ("'" +:+ pattern +:+ "'")).
    { unfold expandTargets. rewrite (Hnone Hnot).
      destruct (expandTargets_match pattern (Targets c)) as [names|] eqn:Hm.
      - destruct names as [|n names].
        + eexists. split; [done|].
          exists "could not find any target matching ", "". by norm_append.
        + destruct (expandTargets_match_names _ _ _ Hm n) as (t & Hin & <- & Hok);
            [by left|]. by destruct (Hno t Hin).
      - eexists. split; [done|].
        exists "could not match targets with ", ": syntax error in pattern".
        by norm_append. }
    split; [done|].
    intros l v Hin Hpat. destruct Hfail as (msg & Hmsg & _).
    unfold newOverrides. eapply newOverrides_from_fails; [done|]. by rewrite Hpat.
Qed.

End ExpandTargets.

(** ** Resolved targets *)

Section Target.

Context `{Runtime}.

Lemma range_order_elem {A} (m : gmap string A) (k : string) (v : A) :
  (k, v) ∈ range_order A m <-> m !! k = Some v.
Proof. by rewrite (range_order_perm A m), elem_of_map_to_list. Qed.

Lemma get_ptr_Merge (f : ptr_field) (t t2 : Target) :
  get_ptr f (Merge t t2) = replace_ptr (get_ptr f t) (get_ptr f t2).
Proof. destruct f; simpl; by destruct t2; simpl; destruct_all (option string); destruct_all (option bool). Qed.

Lemma get_ptr_normalize (f : ptr_field) (t : Target) : get_ptr f (normalize t) = get_ptr f t.
Proof. by destruct f. Qed.

Lemma get_ptr_default (f : ptr_field) : get_ptr f defaultTarget = None.
Proof. by destruct f. Qed.

(** An iteration of AddOverrides on a key that does not dispatch to the
    case of a pointer field leaves the field as it is. *)
Lemma AddOverrides_body_get_ptr (f : ptr_field) (key : string) (ov : Override)
    (t t' : Target) (ent ent' : EntitlementConf) :
  AddOverrides_body key ov (t, ent) = Ok (t', ent') ->
  key_head key ≠ ptr_key f ->
  get_ptr f t' = get_ptr f t.
Proof.
  unfold AddOverrides_body, key_head. intros Hb Hk.
  repeat case_decide;
    repeat match type of Hb with
           | context [match ?x with _ => _ end] => destruct x; try discriminate
           | (_ ≫= _) = Ok _ => apply bind_Ok in Hb as (? & ? & Hb)
           end;
    simplify_eq; destruct f, t; simpl in *; congruence.
Qed.

Lemma range_fold_get_ptr (f : ptr_field) (kvs : list (string * Override))
    (t t' : Target) (ent ent' : EntitlementConf) :
  range_fold AddOverrides_body kvs (t, ent) = Ok (t', ent') ->
  Forall (fun kv => key_head kv.1 ≠ ptr_key f) kvs ->
  get_ptr f t' = get_ptr f t.
Proof.
  revert t ent. induction kvs as [|[k ov] kvs IH]; intros t ent; simpl.
  - by intros [= -> ->].
  - intros Hb Hall. apply bind_Ok in Hb as ([t1 ent1] & Hb1 & Hb2).
    apply Forall_cons in Hall as [Hk Hall].
    rewrite (IH _ _ Hb2 Hall). by eapply AddOverrides_body_get_ptr.
Qed.

Lemma AddOverrides_get_ptr (f : ptr_field) (t t' : Target) (ov : gmap string Override)
    (ent ent' : EntitlementConf) :
  AddOverrides t ov ent = Ok (t', ent') ->
  map_Forall (fun key _ => key_head key ≠ ptr_key f) ov ->
  get_ptr f t' = get_ptr f t.
Proof.
  unfold AddOverrides. intros Hb Hall. eapply range_fold_get_ptr; [done|].
  apply Forall_forall. intros [k v] Hin. apply range_order_elem in Hin.
  by apply (Hall k v).
Qed.

(** *** The shape of a resolution

    [Good] is a property of resolved targets that every resolution
    establishes once the parents merged have it. *)
Section Resolved.

Variable c : Config.
Variable o : gmap string (gmap string Override).
Variable Good : string -> Target -> Prop.

#[local] Abbreviation memo_good := (memo_good Good).
#[local] Abbreviation parent_ok := (parent_ok Good).
#[local] Abbreviation target_post := (target_post c o Good).

Hypothesis Good_step :
  forall (name : string) (decl : Target) (ps : list (option Target)) (m' : Target)
         (ent ent' : EntitlementConf),
    find_target c name = Some decl ->
    Forall2 (fun n p => forall t, p = Some t -> Good n t) (elems (Inherits decl)) ps ->
    AddOverrides (Merge (Merge defaultTarget (merge_parents ps defaultTarget)) decl)
      (default ∅ (o !! name)) ent = Ok (m', ent') ->
    Good name (normalize m').

Lemma target_inherits_post
    (rec : string -> gmap string (option Target) -> EntitlementConf ->
           res (option Target * gmap string (option Target) * EntitlementConf))
    (visited0 : gmap string (option Target)) (name : string) :
  (forall n v e r v' e',
     rec n v e = Ok (r, v', e') -> memo_good v -> target_post n v r v' e') ->
  forall (names : list string) (tt0 : Target) (visited : gmap string (option Target))
         (ent : EntitlementConf) (tt1 : Target) (visited' : gmap string (option Target))
         (ent' : EntitlementConf),
    target_inherits rec names tt0 visited ent = Ok (tt1, visited', ent') ->
    memo_good visited ->
    (forall n, in_progress visited n -> n = name \/ in_progress visited0 n) ->
    memo_good visited' /\
    (forall n x, visited !! n = Some x -> visited' !! n = Some x) /\
    (forall n, in_progress visited' n -> in_progress visited n) /\
    exists ps, Forall2 (parent_ok visited0 name) names ps /\ tt1 = merge_parents ps tt0.
Proof.
  intros Hrec. induction names as [|n names IH];
    intros tt0 visited ent tt1 visited' ent' Hloop Hgood Hprog; simpl in Hloop.
  - injection Hloop as <- <- <-. repeat split; [done..|]. exists []. by split.
  - apply bind_Ok in Hloop as ([[t v1] e1] & Hcall & Hloop).
    destruct (Hrec _ _ _ _ _ _ Hcall Hgood) as (Hgood1 & Hmono1 & Hprog1 & Hres).
    destruct (IH _ _ _ _ _ _ Hloop Hgood1) as (Hgood' & Hmono' & Hprog' & ps & Hps & ->).
    { intros n' Hn'. by apply Hprog, Hprog1. }
    repeat split; [done | by intros; apply Hmono', Hmono1 | by intros; apply Hprog1, Hprog' |].
    exists (t :: ps). split; [|done].
    constructor; [|done].
    destruct (visited !! n) as [x|] eqn:Hn.
    + subst x. destruct t as [t|]; simpl.
      * by apply Hgood.
      * by apply Hprog.
    + destruct Hres as (decl & ps' & m' & ent1 & _ & _ & _ & -> & Hv1). simpl.
      by apply Hgood1.
Qed.

Lemma target_post_holds (fuel : nat) :
  forall (name : string) (visited : gmap string (option Target)) (ent : EntitlementConf)
         (r : option Target) (visited' : gmap string (option Target))
         (ent' : EntitlementConf),
    target fuel c name visited o ent = Ok (r, visited', ent') ->
    memo_good visited ->
    target_post name visited r visited' ent'.
Proof.
  induction fuel as [|fuel IH]; intros name visited ent r visited' ent' Hcall Hgood;
    [done|].
  simpl in Hcall. unfold target_post.
  destruct (visited !! name) as [x|] eqn:Hname.
  { injection Hcall as <- <- <-. by repeat split. }
  destruct (find_target c name) as [decl|] eqn:Hdecl; [|done].
  apply bind_Ok in Hcall as ([[tt0 v1] e1] & Hloop & Hcall).
  apply bind_Ok in Hcall as ([m' e2] & Hov & Hcall).
  injection Hcall as <- <- <-.
  destruct (target_inherits_post _ visited name IH _ _ _ _ _ _ _ Hloop)
    as (Hgood1 & Hmono1 & Hprog1 & ps & Hps & ->).
  { intros n t. rewrite lookup_insert. case_decide; [done|]. apply Hgood. }
  { intros n. unfold in_progress. rewrite lookup_insert. case_decide; [by left | by right]. }
  assert (Hg : Good name (normalize m')).
  { eapply Good_step; [done| |done].
    eapply Forall2_impl; [done|]. intros n p Hp t ->. exact Hp. }
  repeat split.
  - intros n t. rewrite lookup_insert. case_decide as Hn.
    + intros [= <-]. by subst n.
    + apply Hgood1.
  - intros n x Hn. assert (name ≠ n) by congruence.
    rewrite lookup_insert_ne by done. apply Hmono1. by rewrite lookup_insert_ne.
  - intros n. unfold in_progress. rewrite lookup_insert. case_decide as Hn; [done|].
    intros Hn'. apply Hprog1 in Hn'. unfold in_progress in Hn'.
    by rewrite lookup_insert_ne in Hn'.
  - exists decl, ps, m', e1. repeat split; [done..|]. by rewrite lookup_insert_eq.
Qed.

End Resolved.

End Target.

(** *** Resolution returns: the bound on the depth is never reached *)

Section TargetReturns.

Context `{Runtime}.

Lemma size_list_to_set_le (l : list string) : size (list_to_set (C := gset string) l) <= length l.
Proof.
  induction l as [|x l IH].
  - by rewrite list_to_set_nil, size_empty.
  - rewrite list_to_set_cons, size_union_alt, size_singleton. cbn [length].
    assert (size (list_to_set (C := gset string) l ∖ {[x]}) <= size (list_to_set (C := gset string) l))
      by (apply subseteq_size; set_solver).
    lia.
Qed.

Lemma of_parsed_error {A} (p : parsed A) (e : error) : of_parsed p = Fail e -> is_Errorf e.
Proof. destruct p; simpl; [done | by intros [= <-]]. Qed.

Lemma Wrap_error {A} (r : res A) (msg : string) (e : error) :
  (forall e', r = Fail e' -> is_Errorf e') -> Wrap r msg = Fail e -> is_Errorf e.
Proof.
  intros Hr. destruct r as [a|e0]; simpl; [done|].
  pose proof (Hr e0 eq_refl) as He0. destruct e0; try done. by intros [= <-].
Qed.

Lemma bind_error {A B} (r : res A) (k : A -> res B) (e : error) :
  r ≫= k = Fail e -> r = Fail e \/ exists a, r = Ok a /\ k a = Fail e.
Proof.
  destruct r as [a|e0]; intros Hr.
  - right. exists a. split; [done | exact Hr].
  - left. by injection Hr as ->.
Qed.

Lemma parse_bool_key_error (key value : string) (e : error) :
  parse_bool_key key value = Fail e -> is_Errorf e.
Proof. unfold parse_bool_key. destruct (ParseBool value); [done | by intros [= <-]]. Qed.

Lemma AddOverrides_body_error (key : string) (ov : Override)
    (st : Target * EntitlementConf) (e : error) :
  AddOverrides_body key ov st = Fail e -> is_Errorf e.
Proof.
  destruct st as [t ent]. unfold AddOverrides_body. intros Hb.
  repeat case_decide;
    repeat match type of Hb with
           | context [match ?x with _ => _ end] => destruct x; try discriminate
           end;
    try discriminate;
    try (injection Hb as <-; done);
    apply bind_error in Hb as [Hb|(? & _ & Hb)]; try discriminate;
    first [ by eapply parse_bool_key_error
          | by eapply of_parsed_error
          | eapply Wrap_error; [|done]; by intros ? ?%of_parsed_error ].
Qed.

Lemma range_fold_error {A S : Type} (body : string -> A -> S -> res S)
    (kvs : list (string * A)) (s : S) (e : error) :
  (forall k v s' e', body k v s' = Fail e' -> is_Errorf e') ->
  range_fold body kvs s = Fail e -> is_Errorf e.
Proof.
  intros Hbody. revert s. induction kvs as [|[k v] kvs IH]; intros s; simpl; [done|].
  intros [Hb|(s' & _ & Hb)]%bind_error; [by eapply Hbody | by eapply IH].
Qed.

Lemma AddOverrides_error (t : Target) (ov : gmap string Override) (ent : EntitlementConf)
    (e : error) :
  AddOverrides t ov ent = Fail e -> is_Errorf e.
Proof. apply range_fold_error. intros k v s' e'. apply AddOverrides_body_error. Qed.

Section Fuel.

Variable c : Config.
Variable o : gmap string (gmap string Override).

Lemma target_dom_mono (fuel : nat) (name : string) (visited : gmap string (option Target))
    (ent : EntitlementConf) (r : option Target) (visited' : gmap string (option Target))
    (ent' : EntitlementConf) :
  target fuel c name visited o ent = Ok (r, visited', ent') ->
  dom visited ⊆ dom visited'.
Proof.
  intros Hcall.
  destruct (target_post_holds c o (fun _ _ => True) (fun _ _ _ _ _ _ _ _ _ => I)
              fuel _ _ _ _ _ _ Hcall) as (_ & Hmono & _); [done|].
  intros n [x Hx]%elem_of_dom. apply elem_of_dom. exists x. by apply Hmono.
Qed.

#[local] Abbreviation unmet := (unmet c).

Lemma unmet_mono (visited visited' : gmap string (option Target)) :
  dom visited ⊆ dom visited' -> unmet visited' <= unmet visited.
Proof. intros Hsub. unfold unmet. apply subseteq_size. set_solver. Qed.

Lemma unmet_insert (visited : gmap string (option Target)) (name : string)
    (x : option Target) :
  name ∈ target_names c -> visited !! name = None ->
  unmet (<[name := x]> visited) < unmet visited.
Proof.
  intros Hin Hnone. unfold unmet. apply subset_size.
  rewrite dom_insert_L. apply not_elem_of_dom in Hnone. set_solver.
Qed.

Lemma target_inherits_error (fuel : nat) :
  (forall name visited ent e,
     unmet visited < fuel -> target fuel c name visited o ent = Fail e -> is_Errorf e) ->
  forall (names : list string) (tt0 : Target) (visited : gmap string (option Target))
         (ent : EntitlementConf) (e : error),
    unmet visited < fuel ->
    target_inherits (fun n v e => target fuel c n v o e) names tt0 visited ent = Fail e ->
    is_Errorf e.
Proof.
  intros IH. induction names as [|n names IHn]; intros tt0 visited ent e Hlt; simpl; [done|].
  intros [Hb|([[t v1] e1] & Hcall & Hb)]%bind_error; [by eapply IH|].
  eapply IHn; [|done].
  eapply Nat.le_lt_trans; [|done]. by eapply unmet_mono, target_dom_mono.
Qed.

Lemma target_error (fuel : nat) :
  forall (name : string) (visited : gmap string (option Target)) (ent : EntitlementConf)
         (e : error),
    unmet visited < fuel ->
    target fuel c name visited o ent = Fail e -> is_Errorf e.
Proof.
  induction fuel as [|fuel IH]; intros name visited ent e Hlt; [lia|].
  simpl. destruct (visited !! name) eqn:Hname; [done|].
  destruct (find_target c name) as [decl|] eqn:Hdecl; [|by intros [= <-]].
  intros [Hb|([[tt0 v1] e1] & _ & Hb)]%bind_error.
  - eapply target_inherits_error; [done| |done].
    apply find_target_Some in Hdecl as [Hin Hn].
    assert (Hdeclared : name ∈ target_names c).
    { unfold target_names. apply elem_of_list_to_set, list_elem_of_In, in_map_iff.
      exists decl. split; [done | by apply list_elem_of_In]. }
    pose proof (unmet_insert visited name None Hdeclared Hname). lia.
  - apply bind_error in Hb as [Hb|([m' e2] & _ & Hb)]; [|done].
    by eapply AddOverrides_error.
Qed.

(** ResolveTarget returns a target or an error of the program: the bound of
    the model is not reached and no nil pointer is dereferenced. *)
Lemma ResolveTarget_error (name : string) (ent : EntitlementConf) (e : error) :
  ResolveTarget c name o ent = Fail e -> is_Errorf e.
Proof.
  unfold ResolveTarget.
  intros [Hb|([[r v] e1] & Hcall & Hb)]%bind_error.
  - eapply target_error; [|done]. unfold unmet.
    eapply Nat.le_lt_trans; [apply subseteq_size|].
    + apply subseteq_difference_l. reflexivity.
    + unfold target_names. pose proof (size_list_to_set_le (map Name (Targets c))) as Hs.
      rewrite length_map in Hs. lia.
  - destruct (target_post_holds c o (fun _ _ => True) (fun _ _ _ _ _ _ _ _ _ => I)
                _ _ _ _ _ _ _ Hcall) as (_ & _ & _ & Hres); [done|].
    rewrite lookup_empty in Hres. destruct Hres as (? & ? & ? & ? & _ & _ & _ & -> & _).
    done.
Qed.

End Fuel.

End TargetReturns.

(** *** What ResolveTarget returns *)

Section ResolveTarget.

Context `{Runtime}.

Variable c : Config.
Variable o : gmap string (gmap string Override).

(** A successful ResolveTarget is a first visit with an empty memo. *)
Lemma ResolveTarget_Ok (Good : string -> Target -> Prop) (name : string)
    (ent ent' : EntitlementConf) (r : Target) :
  (forall (name : string) (decl : Target) (ps : list (option Target)) (m' : Target)
          (ent ent' : EntitlementConf),
     find_target c name = Some decl ->
     Forall2 (fun n p => forall t, p = Some t -> Good n t) (elems (Inherits decl)) ps ->
     AddOverrides (Merge (Merge defaultTarget (merge_parents ps defaultTarget)) decl)
       (default ∅ (o !! name)) ent = Ok (m', ent') ->
     Good name (normalize m')) ->
  ResolveTarget c name o ent = Ok (r, ent') ->
  exists decl ps m' ent1,
    find_target c name = Some decl /\
    Forall2 (fun n p => match p with Some t => Good n t | None => n = name end)
      (elems (Inherits decl)) ps /\
    AddOverrides (Merge (Merge defaultTarget (merge_parents ps defaultTarget)) decl)
      (default ∅ (o !! name)) ent1 = Ok (m', ent') /\
    Good name (normalize m') /\
    r = ResolveTarget_defaults (normalize m').
Proof.
  intros Hstep. unfold ResolveTarget.
  intros ([[r0 v] e1] & Hcall & Hr)%bind_Ok.
  destruct (target_post_holds c o Good Hstep _ _ _ _ _ _ _ Hcall)
    as (Hgood & _ & _ & Hres); [done|].
  rewrite lookup_empty in Hres.
  destruct Hres as (decl & ps & m' & ent1 & Hdecl & Hps & Hov & -> & Hv).
  injection Hr as <- <-.
  exists decl, ps, m', ent1. repeat split; [done| |done|by eapply Hgood].
  eapply Forall2_impl; [done|]. intros n [t|]; simpl; [done|].
  intros [->|Hn]; [done|]. unfold in_progress in Hn. by rewrite lookup_empty in Hn.
Qed.

End ResolveTarget.

(** ** Deduplication *)

Lemma removeDupes_from_elem (seen : gset string) (l : list string) (x : string) :
  x ∈ removeDupes_from seen l <-> x ∈ l /\ x ∉ seen /\ (x ≠ "").
Proof.
  revert seen. induction l as [|v l IH]; intros seen; simpl.
  - rewrite elem_of_nil. naive_solver.
  - destruct (decide (v ∈ seen)) as [Hs|Hs]; [|destruct (decide (v = "")) as [He|He]].
    + rewrite IH, elem_of_cons. naive_solver.
    + rewrite IH, elem_of_cons. naive_solver.
    + rewrite elem_of_cons, IH, elem_of_cons, elem_of_union, elem_of_singleton.
      destruct (decide (x = v)); naive_solver.
Qed.

Lemma removeDupes_from_NoDup (seen : gset string) (l : list string) :
  NoDup (removeDupes_from seen l).
Proof.
  revert seen. induction l as [|v l IH]; intros seen; simpl; [constructor|].
  repeat case_decide; try apply IH.
  constructor; [|apply IH]. rewrite removeDupes_from_elem, elem_of_union, elem_of_singleton.
  naive_solver.
Qed.

Lemma count_not_elem (x : string) (l : list string) : x ∉ l -> count x l = 0.
Proof.
  unfold count. induction l as [|y l IH]; intros Hx; [done|].
  apply not_elem_of_cons in Hx as [Hne Hx].
  rewrite filter_cons_False by congruence. by apply IH.
Qed.

Lemma count_NoDup (x : string) (l : list string) : NoDup l -> x ∈ l -> count x l = 1.
Proof.
  induction 1 as [|y l Hy Hnd IH]; intros Hin.
  - by apply elem_of_nil in Hin.
  - destruct (decide (y = x)) as [->|Hne].
    + unfold count. rewrite filter_cons_True by done. simpl. f_equal.
      by apply count_not_elem.
    + unfold count. rewrite filter_cons_False by done. apply IH.
      apply elem_of_cons in Hin as [->|Hin]; done.
Qed.

(** ** The claims on resolved targets *)

Section ResolvedClaims.

Context `{Runtime}.

Lemma ResolveTarget_defaults_fields (t : Target) :
  Entitlements (ResolveTarget_defaults t) = Entitlements t /\
  NetworkMode (ResolveTarget_defaults t) = NetworkMode t /\
  Tags (ResolveTarget_defaults t) = Tags t /\
  Inherits (ResolveTarget_defaults t) = None /\
  Context (ResolveTarget_defaults t) = Some (default "." (Context t)) /\
  Dockerfile (ResolveTarget_defaults t) = Some (default "Dockerfile" (Dockerfile t)).
Proof. destruct t as [? ? ? ? ? [?|] ? [?|]]; by repeat split. Qed.

(** C4. A resolved target whose network mode is "host" lists the
    entitlement "network.host" exactly once, however the mode and the
    entitlements came to it. *)
Theorem C4_network_host_entitlement (c : Config) (o : gmap string (gmap string Override))
    (name : string) (ent ent' : EntitlementConf) (t : Target) :
  ResolveTarget c name o ent = Ok (t, ent') ->
  NetworkMode t = Some "host" ->
  count "network.host" (elems (Entitlements t)) = 1.
Proof.
  intros Hres Hnet.
  destruct (ResolveTarget_Ok c o (fun _ _ => True) name ent ent' t)
    as (decl & ps & m' & ent1 & _ & _ & _ & _ & ->); [done..|].
  destruct (ResolveTarget_defaults_fields (normalize m')) as (-> & Hnm & _).
  rewrite Hnm in Hnet. simpl in Hnet. simpl. rewrite decide_True by done.
  unfold removeDupes, append. simpl.
  apply count_NoDup; [apply removeDupes_from_NoDup|].
  apply removeDupes_from_elem.
  split; [apply elem_of_app; right; by left | split; [apply not_elem_of_empty | done]].
Qed.

Lemma range_order_singleton {A} (k : string) (v : A) :
  range_order A {[k := v]} = [(k, v)].
Proof.
  apply Permutation_singleton_r. rewrite range_order_perm.
  by rewrite map_to_list_singleton.
Qed.

(** C2. With a target named web declared, the two overrides of web.tags
    parse to one table entry accumulating both values, and the two overrides
    of web.context to one entry keeping the last value. Applying the first
    table replaces the tags of any target by the two values, which are the
    tags of web once resolved; applying the second sets the context to the
    last value, which is the context of web once resolved. *)
Theorem C2_override_accumulation (c : Config) :
  "web" ∈ map Name (Targets c) ->
  let tags := {| Value := ""; ArrValue := Some ["foo:latest"; "foo:dev"] |} in
  let context := {| Value := "./other"; ArrValue := None |} in
  newOverrides c ["web.tags=foo:latest"; "web.tags=foo:dev"]
    = Ok {["web" := {["tags" := tags]}]} /\
  newOverrides c ["web.context=./app"; "web.context=./other"]
    = Ok {["web" := {["context" := context]}]} /\
  (forall (t : Target) (ent : EntitlementConf),
     exists t', AddOverrides t {["tags" := tags]} ent = Ok (t', ent) /\
                Tags t' = Some ["foo:latest"; "foo:dev"]) /\
  (forall (t : Target) (ent : EntitlementConf),
     exists t', AddOverrides t {["context" := context]} ent = Ok (t', ent) /\
                Context t' = Some "./other") /\
  (forall (ent ent' : EntitlementConf) (t : Target),
     ResolveTarget c "web" {["web" := {["tags" := tags]}]} ent = Ok (t, ent') ->
     Tags t = Some ["foo:latest"; "foo:dev"]) /\
  (forall (ent ent' : EntitlementConf) (t : Target),
     ResolveTarget c "web" {["web" := {["context" := context]}]} ent = Ok (t, ent') ->
     Context t = Some "./other").
Proof.
  intros Hin tags context.
  assert (Hexp : expandTargets c "web" = Ok ["web"]).
  { unfold expandTargets. by destruct (find_target_is_Some c "web" Hin) as [t ->]. }
  assert (Htags : forall (t : Target) (ent : EntitlementConf),
            AddOverrides t {["tags" := tags]} ent
            = Ok (set_Tags (Some ["foo:latest"; "foo:dev"]) t, ent)).
  { intros t ent. unfold AddOverrides. by rewrite range_order_singleton. }
  assert (Hctx : forall (t : Target) (ent : EntitlementConf),
            AddOverrides t {["context" := context]} ent
            = Ok (set_Context (Some "./other") t, ent)).
  { intros t ent. unfold AddOverrides. by rewrite range_order_singleton. }
  repeat apply conj.
  - unfold newOverrides. simpl. unfold newOverrides_entry. simpl.
    rewrite Hexp. simpl. by vm_compute.
  - unfold newOverrides. simpl. unfold newOverrides_entry. simpl.
    rewrite Hexp. simpl. by vm_compute.
  - intros t ent. eexists. split; [apply Htags | by destruct t].
  - intros t ent. eexists. split; [apply Hctx | by destruct t].
  - intros ent ent' t Hres.
    destruct (ResolveTarget_Ok c {["web" := {["tags" := tags]}]} (fun _ _ => True)
                "web" ent ent' t)
      as (decl & ps & m' & ent1 & _ & _ & Hov & _ & ->); [done..|].
    destruct (ResolveTarget_defaults_fields (normalize m')) as (_ & _ & -> & _).
    rewrite lookup_singleton_eq in Hov. cbn [from_option id] in Hov.
    set (m0 := Merge _ decl) in Hov. clearbody m0.
    rewrite Htags in Hov. injection Hov as <- <-. by destruct m0.
  - intros ent ent' t Hres.
    destruct (ResolveTarget_Ok c {["web" := {["context" := context]}]} (fun _ _ => True)
                "web" ent ent' t)
      as (decl & ps & m' & ent1 & _ & _ & Hov & _ & ->); [done..|].
    destruct (ResolveTarget_defaults_fields (normalize m')) as (_ & _ & _ & _ & -> & _).
    rewrite lookup_singleton_eq in Hov. cbn [from_option id] in Hov.
    set (m0 := Merge _ decl) in Hov. clearbody m0.
    rewrite Hctx in Hov. injection Hov as <- <-. by destruct m0.
Qed.

Lemma get_ptr_defaults (f : ptr_field) (t : Target) (v : ptr_value) :
  get_ptr f t = Some v -> get_ptr f (ResolveTarget_defaults t) = Some v.
Proof. destruct f, t as [? ? ? ? ? [?|] ? [?|]]; simpl; done. Qed.

Lemma replace_ptr_None {A} (x : option A) : replace_ptr x None = x.
Proof. done. Qed.

(** The accumulator of the parents has a pointer field unset when the
    parents merged have it unset. *)
Lemma merge_parents_unset (f : ptr_field) (P : string -> Prop) (names : list string)
    (ps : list (option Target)) (tt0 : Target) :
  Forall2 (fun n p => forall t, p = Some t -> P n -> get_ptr f t = None) names ps ->
  (forall n, n ∈ names -> P n) ->
  get_ptr f tt0 = None ->
  get_ptr f (merge_parents ps tt0) = None.
Proof.
  intros Hps. revert tt0. induction Hps as [|n p names ps Hp Hps IH]; intros tt0 HP Htt0.
  - done.
  - simpl. apply IH; [intros; apply HP; by right|].
    destruct p as [t|]; [|done].
    rewrite get_ptr_Merge, (Hp t eq_refl) by (apply HP; by left). done.
Qed.

(** C6. A target that ResolveTarget returns has a context and a dockerfile,
    "." and "Dockerfile" where none was declared, inherited or overridden,
    and no inherits list. *)
Theorem C6_ResolveTarget_postcondition (c : Config) (o : gmap string (gmap string Override))
    (name : string) (ent ent' : EntitlementConf) (t : Target) :
  ResolveTarget c name o ent = Ok (t, ent') ->
  is_Some (Context t) /\ is_Some (Dockerfile t) /\ Inherits t = None /\
  (unset_for c o FContext name -> Context t = Some ".") /\
  (unset_for c o FDockerfile name -> Dockerfile t = Some "Dockerfile").
Proof.
  intros Hres.
  destruct (ResolveTarget_Ok c o
              (fun n t => forall f, unset_for c o f n -> get_ptr f t = None)
              name ent ent' t) as (decl & ps & m' & ent1 & _ & _ & _ & Hgood & ->);
    [|done|].
  { clear. intros name decl ps m' ent ent' Hdecl Hps Hov f Hunset.
    destruct (Hunset name (inherits_refl c name)) as [Hdecl_f Hnot].
    rewrite get_ptr_normalize, (AddOverrides_get_ptr f _ _ _ _ _ Hov Hnot).
    rewrite get_ptr_Merge, (Hdecl_f decl Hdecl), replace_ptr_None.
    rewrite get_ptr_Merge, get_ptr_default.
    rewrite (merge_parents_unset f (fun n => n ∈ elems (Inherits decl))
               (elems (Inherits decl)) ps defaultTarget); [done| |done|apply get_ptr_default].
    eapply Forall2_impl; [exact Hps|]. intros n p Hp t -> Hn. apply Hp; [done|].
    intros a Ha. apply Hunset. by eapply inherits_step. }
  destruct (ResolveTarget_defaults_fields (normalize m')) as (_ & _ & _ & -> & -> & ->).
  repeat apply conj; [by eexists | by eexists | done | |].
  - intros Hunset. pose proof (Hgood FContext Hunset) as Hc.
    cbn [get_ptr normalize Context] in *. by destruct (Context m').
  - intros Hunset. pose proof (Hgood FDockerfile Hunset) as Hd.
    cbn [get_ptr normalize Dockerfile] in *. by destruct (Dockerfile m').
Qed.

(** C1. For a target T with inherits = [A, B] and a pointer field that no
    override of T assigns: the resolved T has T's own value where T declares
    the field; where T does not, it has B's value when B declares the field
    and no override of B assigns it, also when A declares the field too. *)
Theorem C1_inheritance_precedence (c : Config) (o : gmap string (gmap string Override))
    (T A B : string) (decl : Target) (ent ent' : EntitlementConf) (r : Target)
    (f : ptr_field) :
  find_target c T = Some decl ->
  elems (Inherits decl) = [A; B] ->
  ResolveTarget c T o ent = Ok (r, ent') ->
  not_overridden o T f ->
  (forall v, get_ptr f decl = Some v -> get_ptr f r = Some v) /\
  (get_ptr f decl = None ->
   forall declB v,
     find_target c B = Some declB -> get_ptr f declB = Some v -> not_overridden o B f ->
     get_ptr f r = Some v) /\
  (get_ptr f decl = None ->
   forall declA declB va vb,
     find_target c A = Some declA -> get_ptr f declA = Some va ->
     find_target c B = Some declB -> get_ptr f declB = Some vb -> not_overridden o B f ->
     get_ptr f r = Some vb).
Proof.
  intros Hdecl Hinh Hres HnotT.
  destruct (ResolveTarget_Ok c o
              (fun n t => forall d v, find_target c n = Some d -> get_ptr f d = Some v ->
                                      not_overridden o n f -> get_ptr f t = Some v)
              T ent ent' r) as (decl' & ps & m' & ent1 & Hdecl' & Hps & Hov & _ & ->);
    [|done|].
  { clear. intros name decl ps m' ent ent' Hdecl _ Hov d v Hd Hv Hnot.
    assert (d = decl) as -> by congruence.
    rewrite get_ptr_normalize, (AddOverrides_get_ptr f _ _ _ _ _ Hov Hnot).
    by rewrite get_ptr_Merge, Hv. }
  assert (decl' = decl) as -> by congruence.
  rewrite Hinh in Hps.
  assert (Hown : forall v, get_ptr f decl = Some v ->
                           get_ptr f (ResolveTarget_defaults (normalize m')) = Some v).
  { intros v Hv. apply get_ptr_defaults.
    rewrite get_ptr_normalize, (AddOverrides_get_ptr f _ _ _ _ _ Hov HnotT).
    by rewrite get_ptr_Merge, Hv. }
  assert (HB : get_ptr f decl = None ->
               forall declB v,
                 find_target c B = Some declB -> get_ptr f declB = Some v ->
                 not_overridden o B f ->
                 get_ptr f (ResolveTarget_defaults (normalize m')) = Some v).
  { intros Hnone declB v HdeclB Hv HnotB. apply get_ptr_defaults.
    rewrite get_ptr_normalize, (AddOverrides_get_ptr f _ _ _ _ _ Hov HnotT).
    rewrite get_ptr_Merge, Hnone, replace_ptr_None.
    apply Forall2_cons_inv_l in Hps as (pA & ps' & _ & Hps & ->).
    apply Forall2_cons_inv_l in Hps as (pB & ps'' & HpB & Hps & ->).
    apply Forall2_nil_inv_l in Hps as ->.
    destruct pB as [tB|].
    - pose proof (HpB declB v HdeclB Hv HnotB) as HtB.
      unfold merge_parents. simpl. by rewrite get_ptr_Merge, get_ptr_Merge, HtB.
    - simpl in HpB. subst B. congruence. }
  repeat apply conj; [done | done |].
  intros Hnone declA declB va vb _ _ HdeclB Hvb HnotB. by eapply HB.
Qed.

End ResolvedClaims.

Lemma C4_network_host_entitlement_witness :
  ResolveTarget sample_config "web" ∅ sample_ent = Ok (sample_web, sample_ent) /\
  NetworkMode sample_web = Some "host" /\
  count "network.host" (elems (Entitlements sample_web)) = 1.
Proof.
  assert (Hres : ResolveTarget sample_config "web" ∅ sample_ent = Ok (sample_web, sample_ent))
    by (vm_compute; reflexivity).
  assert (Hnet : NetworkMode sample_web = Some "host") by reflexivity.
  split; [exact Hres|]. split; [exact Hnet|].
  exact (C4_network_host_entitlement sample_config ∅ "web" sample_ent sample_ent
           sample_web Hres Hnet).
Defined.

Lemma C2_override_accumulation_witness :
  "web" ∈ map Name (Targets sample_config) /\
  newOverrides sample_config ["web.tags=foo:latest"; "web.tags=foo:dev"]
    = Ok {["web" := {["tags" := {| Value := ""; ArrValue := Some ["foo:latest"; "foo:dev"] |}]}]}.
Proof.
  assert (Hin : "web" ∈ map Name (Targets sample_config)) by (simpl; left).
  split; [exact Hin|].
  exact (proj1 (C2_override_accumulation sample_config Hin)).
Defined.

Lemma C6_ResolveTarget_postcondition_witness :
  ResolveTarget sample_plain "app" ∅ sample_ent = Ok (sample_app, sample_ent) /\
  Context sample_app = Some "." /\ Dockerfile sample_app = Some "Dockerfile" /\
  Inherits sample_app = None /\
  is_Some (Context sample_app).
Proof.
  assert (Hres : ResolveTarget sample_plain "app" ∅ sample_ent = Ok (sample_app, sample_ent))
    by (vm_compute; reflexivity).
  split; [exact Hres|]. split; [reflexivity|]. split; [reflexivity|].
  split; [reflexivity|].
  exact (proj1 (C6_ResolveTarget_postcondition sample_plain ∅ "app" sample_ent sample_ent
                  sample_app Hres)).
Defined.

Lemma C1_inheritance_precedence_witness :
  find_target sample_config "web" = Some sample_web_decl /\
  elems (Inherits sample_web_decl) = ["base"; "prod"] /\
  ResolveTarget sample_config "web" ∅ sample_ent = Ok (sample_web, sample_ent) /\
  not_overridden ∅ "web" FContext /\
  get_ptr FContext sample_web = Some (PString "./prod").
Proof.
  assert (Hdecl : find_target sample_config "web" = Some sample_web_decl) by reflexivity.
  assert (Hinh : elems (Inherits sample_web_decl) = ["base"; "prod"]) by reflexivity.
  assert (Hres : ResolveTarget sample_config "web" ∅ sample_ent = Ok (sample_web, sample_ent))
    by (vm_compute; reflexivity).
  assert (Hnot : forall n, not_overridden ∅ n FContext).
  { intros n. unfold not_overridden. rewrite lookup_empty. apply map_Forall_empty. }
  split; [exact Hdecl|]. split; [exact Hinh|]. split; [exact Hres|].
  split; [exact (Hnot "web")|].
  destruct (C1_inheritance_precedence sample_config ∅ "web" "base" "prod" sample_web_decl
              sample_ent sample_ent sample_web FContext Hdecl Hinh Hres (Hnot "web"))
    as (_ & HB & _).
  eapply (HB eq_refl); [reflexivity | reflexivity | exact (Hnot "prod")].
Defined.

(** ** Group expansion *)

Section Group.

Context `{Runtime}.

Variable c : Config.

Lemma find_group_Some (name : string) (g : Group) :
  find_group c name = Some g -> g ∈ Groups c /\ Group_Name g = name.
Proof.
  unfold find_group. intros Hf. apply find_some in Hf as [Hin Hn].
  split; [by apply list_elem_of_In | by apply bool_decide_eq_true in Hn].
Qed.

Lemma find_group_names (name : string) :
  is_Some (find_group c name) -> name ∈ group_names c.
Proof.
  intros [g [Hin Hn]%find_group_Some]. unfold group_names.
  apply elem_of_list_to_set, list_elem_of_In, in_map_iff.
  exists g. split; [done | by apply list_elem_of_In].
Qed.

(** *** Expansion returns *)

Lemma group_members_total
    (rec : string -> gmap string visit -> res (list string * list string * gmap string visit))
    (bound : nat) :
  (forall name visited, unmet_groups c visited < bound ->
     exists ts gs visited', rec name visited = Ok (ts, gs, visited') /\
                            dom visited ⊆ dom visited') ->
  forall (ms targets groups : list string) (visited : gmap string visit),
    unmet_groups c visited < bound ->
    exists ts gs visited',
      group_members rec ms targets groups visited = Ok (ts, gs, visited') /\
      dom visited ⊆ dom visited'.
Proof.
  intros Hrec. induction ms as [|m ms IH]; intros targets groups visited Hlt; simpl.
  - by exists targets, groups, visited.
  - destruct (Hrec m visited Hlt) as (tt & tg & v1 & -> & Hsub). simpl.
    destruct (IH (match tt with [] => targets ++ [m] | _ => targets ++ tt end)
                (groups ++ tg) v1) as (ts & gs & v2 & -> & Hsub2).
    { eapply Nat.le_lt_trans; [|exact Hlt]. unfold unmet_groups.
      apply subseteq_size. set_solver. }
    exists ts, gs, v2. split; [done | set_solver].
Qed.

Lemma group_total (fuel : nat) :
  forall (name : string) (visited : gmap string visit),
    unmet_groups c visited < fuel ->
    exists ts gs visited',
      group fuel c name visited = Ok (ts, gs, visited') /\ dom visited ⊆ dom visited'.
Proof.
  induction fuel as [|fuel IH]; intros name visited Hlt; [lia|].
  simpl. destruct (visited !! name) as [v|] eqn:Hname.
  { by exists (visit_target v), (visit_group v), visited. }
  destruct (find_group c name) as [g|] eqn:Hg.
  2: { by exists [name], [], visited. }
  destruct (group_members_total (group fuel c) fuel IH (elems (Group_Targets g)) [] [name]
              (<[name := {| visit_target := []; visit_group := [] |}]> visited))
    as (ts & gs & v2 & -> & Hsub).
  { assert (unmet_groups c (<[name := {| visit_target := []; visit_group := [] |}]> visited)
            < unmet_groups c visited); [|lia].
    unfold unmet_groups. apply subset_size. rewrite dom_insert_L.
    apply not_elem_of_dom in Hname.
    assert (name ∈ group_names c) by (apply find_group_names; by rewrite Hg).
    set_solver. }
  simpl. eexists _, _, _. split; [done|].
  rewrite dom_insert_L. rewrite dom_insert_L in Hsub. set_solver.
Qed.

(** More fuel does not change a result. *)
Lemma group_members_fuel_mono
    (rec rec' : string -> gmap string visit -> res (list string * list string * gmap string visit)) :
  (forall name visited r, rec name visited = Ok r -> rec' name visited = Ok r) ->
  forall ms targets groups visited r,
    group_members rec ms targets groups visited = Ok r ->
    group_members rec' ms targets groups visited = Ok r.
Proof.
  intros Hrec. induction ms as [|m ms IH]; intros targets groups visited r; simpl; [done|].
  intros ([[tt tg] v1] & Hm & Hloop)%bind_Ok. rewrite (Hrec _ _ _ Hm). simpl.
  by apply IH.
Qed.

Lemma group_fuel_mono (fuel fuel' : nat) (name : string) (visited : gmap string visit)
    (r : list string * list string * gmap string visit) :
  fuel <= fuel' -> group fuel c name visited = Ok r -> group fuel' c name visited = Ok r.
Proof.
  revert fuel' name visited r.
  induction fuel as [|fuel IH]; intros fuel' name visited r Hle; [done|].
  destruct fuel' as [|fuel']; [lia|]. simpl.
  destruct (visited !! name); [done|]. destruct (find_group c name); [|done].
  intros ([[ts gs] v2] & Hloop & Hr)%bind_Ok.
  rewrite (group_members_fuel_mono (group fuel c) (group fuel' c)) with (r := (ts, gs, v2));
    [done| |done].
  intros n v r'. apply IH. lia.
Qed.

Lemma unmet_groups_empty : unmet_groups c ∅ <= length (Groups c).
Proof.
  unfold unmet_groups. etrans; [apply subseteq_size, subseteq_difference_l; reflexivity|].
  unfold group_names. pose proof (size_list_to_set_le (map Group_Name (Groups c))) as Hs.
  by rewrite length_map in Hs.
Qed.

(** C9. ResolveGroup returns for every name and every document, groups that
    list themselves included; a name in progress is answered from its empty
    memo entry without recursion; the result does not depend on the bound
    of the model, and two calls on the same document and name are equal. *)
Theorem C9_ResolveGroup_total (name : string) :
  (exists targets groups,
     ResolveGroup c name = Ok (targets, groups) /\
     forall fuel, length (Groups c) < fuel ->
       exists ts gs visited,
         group fuel c name ∅ = Ok (ts, gs, visited) /\
         dedupSlice ts = targets /\ dedupSlice gs = groups) /\
  (forall fuel visited,
     visited !! name = Some empty_visit ->
     group (S fuel) c name visited = Ok ([], [], visited)) /\
  (forall r1 r2, ResolveGroup c name = r1 -> ResolveGroup c name = r2 -> r1 = r2).
Proof.
  split; [|split].
  - destruct (group_total (S (length (Groups c))) name ∅) as (ts & gs & v & Hg & _).
    { pose proof unmet_groups_empty. lia. }
    exists (dedupSlice ts), (dedupSlice gs). split.
    + unfold ResolveGroup. by rewrite Hg.
    + intros fuel Hlt. exists ts, gs, v. split; [|done].
      eapply group_fuel_mono; [|exact Hg]. lia.
  - intros fuel visited Hv. simpl. by rewrite Hv.
  - congruence.
Qed.

(** *** The names a cycle leaves among the targets *)

Section InProgress.

(** A name in progress during the calls considered. *)
Variable x : string.

Lemma group_members_post
    (rec : string -> gmap string visit -> res (list string * list string * gmap string visit)) :
  (forall name visited ts gs visited',
     visited !! x = Some empty_visit ->
     rec name visited = Ok (ts, gs, visited') ->
     group_post c x name visited ts visited') ->
  (forall visited r,
     visited !! x = Some empty_visit -> rec x visited = Ok r -> r = ([], [], visited)) ->
  forall (ms targets groups : list string) (visited : gmap string visit)
         (ts gs : list string) (visited' : gmap string visit),
    visited !! x = Some empty_visit ->
    group_members rec ms targets groups visited = Ok (ts, gs, visited') ->
    (forall y, y ∈ targets -> y ∈ ts) /\
    (forall n v, visited !! n = Some v -> visited' !! n = Some v) /\
    (forall h v, visited !! h = None -> visited' !! h = Some v ->
       is_Some (find_group c h) /\
       (x ∈ members c h -> x ∈ visit_target v) /\
       (forall y, y ∈ visit_target v -> y ∈ ts) /\
       (forall m, m ∈ members c h -> is_Some (find_group c m) -> m ∈ dom visited')) /\
    (forall m, m ∈ ms -> is_Some (find_group c m) -> m ∈ dom visited') /\
    (x ∈ ms -> x ∈ ts).
Proof.
  intros Hrec Hrecx.
  induction ms as [|m ms IH]; intros targets groups visited ts gs visited' Hx Hloop;
    simpl in Hloop.
  - injection Hloop as <- <- <-.
    split; [done|]. split; [done|]. split; [intros h v Hh Hh'; congruence|].
    split; [intros m Hm; by apply elem_of_nil in Hm|].
    intros Hm. by apply elem_of_nil in Hm.
  - apply bind_Ok in Hloop as ([[tt tg] v1] & Hm & Hloop).
    destruct (Hrec _ _ _ _ _ Hx Hm) as (Hmono1 & Hnew1 & Hdom1).
    pose proof (Hmono1 _ _ Hx) as Hx1.
    destruct (IH _ _ _ _ _ _ Hx1 Hloop) as (Hpre & Hmono2 & Hnew2 & Hdom2 & Hx2).
    set (targets1 := match tt with [] => targets ++ [m] | _ => targets ++ tt end) in *.
    assert (Htargets : forall y, y ∈ targets -> y ∈ targets1).
    { intros y Hy. unfold targets1. destruct tt; apply elem_of_app; by left. }
    assert (Htt : forall y, y ∈ tt -> y ∈ targets1).
    { intros y Hy. unfold targets1. destruct tt as [|? ?]; [by apply elem_of_nil in Hy|].
      apply elem_of_app. by right. }
    assert (Hdomsub : forall n, n ∈ dom v1 -> n ∈ dom visited').
    { intros n [v Hv]%elem_of_dom. apply elem_of_dom. exists v. by apply Hmono2. }
    split; [|split; [|split; [|split]]].
    + intros y Hy. by apply Hpre, Htargets.
    + intros n v Hn. by apply Hmono2, Hmono1.
    + intros h v Hh Hh'. destruct (v1 !! h) as [v'|] eqn:Hv1.
      * destruct (Hnew1 h v' Hh Hv1) as (Hg & Hp1 & Hp2 & Hp3).
        pose proof (Hmono2 _ _ Hv1) as Hv'. assert (v = v') as -> by congruence.
        split; [done|]. split; [done|]. split.
        -- intros y Hy. by apply Hpre, Htt, Hp2.
        -- intros m' Hm' Hg'. by apply Hdomsub, Hp3.
      * exact (Hnew2 h v Hv1 Hh').
    + intros m' [->|Hm']%elem_of_cons Hg'; [by apply Hdomsub, Hdom1 | by apply Hdom2].
    + intros [<-|Hin]%elem_of_cons; [|by apply Hx2].
      pose proof (Hrecx _ _ Hx Hm) as Hr. injection Hr as -> -> ->.
      apply Hpre. unfold targets1. apply elem_of_app. right. by left.
Qed.

Lemma group_post_holds (fuel : nat) :
  forall (name : string) (visited : gmap string visit) (ts gs : list string)
         (visited' : gmap string visit),
    visited !! x = Some empty_visit ->
    group fuel c name visited = Ok (ts, gs, visited') ->
    group_post c x name visited ts visited'.
Proof.
  induction fuel as [|fuel IH]; intros name visited ts gs visited' Hx Hcall; [done|].
  simpl in Hcall. unfold group_post.
  destruct (visited !! name) as [v0|] eqn:Hname.
  { injection Hcall as <- <- <-.
    split; [done|]. split; [intros h v Hh Hh'; congruence|].
    intros _. apply elem_of_dom. by exists v0. }
  destruct (find_group c name) as [g|] eqn:Hg.
  2: { injection Hcall as <- <- <-.
       split; [done|]. split; [intros h v Hh Hh'; congruence|]. by intros [? ?]. }
  apply bind_Ok in Hcall as ([[ts' gs'] v2] & Hloop & Hcall).
  injection Hcall as <- <- <-.
  assert (Hne : name ≠ x) by congruence.
  assert (Hx1 : <[name := {| visit_target := []; visit_group := [] |}]> visited !! x
                = Some empty_visit) by (by rewrite lookup_insert_ne).
  assert (Hrecx : forall visited r,
            visited !! x = Some empty_visit -> group fuel c x visited = Ok r ->
            r = ([], [], visited)).
  { clear. intros visited r Hv Hr. destruct fuel as [|fuel]; [done|].
    simpl in Hr. rewrite Hv in Hr. by injection Hr as <-. }
  destruct (group_members_post (group fuel c) IH Hrecx _ _ _ _ _ _ _ Hx1 Hloop)
    as (_ & Hmono & Hnew & Hdom & Hxin).
  assert (Hmembers : members c name = elems (Group_Targets g))
    by (unfold members; by rewrite Hg).
  split; [|split].
  - intros n v Hn. assert (name ≠ n) by congruence.
    rewrite lookup_insert_ne by done. apply Hmono. by rewrite lookup_insert_ne.
  - intros h v Hh Hh'. destruct (decide (h = name)) as [->|Hhn].
    + rewrite lookup_insert_eq in Hh'. injection Hh' as <-. simpl.
      split; [by rewrite Hg|]. split; [by rewrite Hmembers|]. split; [done|].
      intros m Hm Hgm. rewrite dom_insert_L. apply elem_of_union. right.
      apply Hdom; [by rewrite <- Hmembers | done].
    + rewrite lookup_insert_ne in Hh' by done.
      destruct (Hnew h v) as (Hgh & Hp1 & Hp2 & Hp3); [by rewrite lookup_insert_ne | done |].
      split; [done|]. split; [done|]. split; [done|].
      intros m Hm Hgm. rewrite dom_insert_L. apply elem_of_union. right. by apply Hp3.
  - intros _. rewrite dom_insert_L. apply elem_of_union. left. by apply elem_of_singleton.
Qed.

End InProgress.

Lemma dedup_from_elem (seen : gset string) (l : list string) (y : string) :
  y ∈ dedup_from seen l <-> y ∈ l /\ y ∉ seen.
Proof.
  revert seen. induction l as [|v l IH]; intros seen; simpl.
  - rewrite elem_of_nil. naive_solver.
  - destruct (decide (v ∈ seen)) as [Hs|Hs].
    + rewrite IH, elem_of_cons. naive_solver.
    + rewrite elem_of_cons, IH, elem_of_cons, elem_of_union, elem_of_singleton.
      destruct (decide (y = v)); naive_solver.
Qed.

Lemma dedupSlice_elem (l : list string) (y : string) : y ∈ dedupSlice l <-> y ∈ l.
Proof. unfold dedupSlice. rewrite dedup_from_elem. set_solver. Qed.

Lemma group_path_is_group (g h : string) :
  group_path c g h -> h = g \/ is_Some (find_group c g).
Proof.
  induction 1 as [|h m Hpath IH Hm Hgm]; [by left|]. right.
  destruct IH as [->|IH]; [|done].
  unfold members in Hm. destruct (find_group c g); [by eexists|].
  by apply elem_of_nil in Hm.
Qed.

Lemma group_cycle_is_group (g : string) : group_cycle c g -> is_Some (find_group c g).
Proof.
  intros (h & Hpath & Hm). destruct (group_path_is_group g h Hpath) as [->|Hg]; [|done].
  unfold members in Hm. destruct (find_group c g); [by eexists|].
  by apply elem_of_nil in Hm.
Qed.

(** The name of a group whose members reach it is among the targets of its
    expansion. *)
Lemma group_cycle_target (fuel : nat) (g : string) (ts gs : list string)
    (visited : gmap string visit) :
  group_cycle c g -> group fuel c g ∅ = Ok (ts, gs, visited) -> g ∈ ts.
Proof.
  intros Hcycle Hcall. destruct (group_cycle_is_group g Hcycle) as [decl Hdecl].
  destruct fuel as [|fuel]; [done|]. simpl in Hcall.
  rewrite lookup_empty, Hdecl in Hcall.
  apply bind_Ok in Hcall as ([[ts' gs'] v2] & Hloop & Hcall).
  injection Hcall as <- <- <-.
  assert (Hx1 : <[g := {| visit_target := []; visit_group := [] |}]> (∅ : gmap string visit) !! g
                = Some empty_visit) by apply lookup_insert_eq.
  assert (Hrecx : forall visited r,
            visited !! g = Some empty_visit -> group fuel c g visited = Ok r ->
            r = ([], [], visited)).
  { clear. intros visited r Hv Hr. destruct fuel as [|fuel]; [done|].
    simpl in Hr. rewrite Hv in Hr. by injection Hr as <-. }
  destruct (group_members_post g (group fuel c) (group_post_holds g fuel) Hrecx
              _ _ _ _ _ _ _ Hx1 Hloop) as (_ & Hmono & Hnew & Hdom & Hxin).
  assert (Hmembers : members c g = elems (Group_Targets decl))
    by (unfold members; by rewrite Hdecl).
  assert (Hfresh : forall h, h ≠ g ->
            <[g := {| visit_target := []; visit_group := [] |}]> (∅ : gmap string visit) !! h
            = None).
  { intros h Hh. by rewrite lookup_insert_ne, lookup_empty. }
  assert (Hpaths : forall h, group_path c g h -> h = g \/ h ∈ dom v2).
  { induction 1 as [|h m Hpath IH Hm Hgm]; [by left|]. right.
    destruct IH as [->|Hh].
    - apply Hdom; [by rewrite <- Hmembers | done].
    - destruct (decide (h = g)) as [->|Hne].
      + apply Hdom; [by rewrite <- Hmembers | done].
      + apply elem_of_dom in Hh as [v Hv].
        destruct (Hnew h v (Hfresh h Hne) Hv) as (_ & _ & _ & Hp3). by apply Hp3. }
  destruct Hcycle as (h & Hpath & Hm).
  destruct (decide (h = g)) as [->|Hne].
  - apply Hxin. by rewrite <- Hmembers.
  - destruct (Hpaths h Hpath) as [->|Hh]; [done|].
    apply elem_of_dom in Hh as [v Hv].
    destruct (Hnew h v (Hfresh h Hne) Hv) as (_ & Hp1 & Hp2 & _).
    by apply Hp2, Hp1.
Qed.

End Group.

Section CyclicGroup.

Context `{Runtime}.

Lemma ResolveTarget_not_found (c : Config) (o : gmap string (gmap string Override))
    (name : string) (ent : EntitlementConf) :
  find_target c name = None ->
  ResolveTarget c name o ent = Fail (Errorf ("failed to find target " +:+ name)).
Proof. intros Hnone. unfold ResolveTarget. simpl. by rewrite lookup_empty, Hnone. Qed.

Lemma ResolveGroup_returns (c : Config) (name : string) :
  exists ts gs, ResolveGroup c name = Ok (ts, gs).
Proof.
  destruct (group_total c (S (length (Groups c))) name ∅) as (ts & gs & v & Hg & _).
  { pose proof (unmet_groups_empty c). lia. }
  exists (dedupSlice ts), (dedupSlice gs). unfold ResolveGroup. by rewrite Hg.
Qed.

(** A failure of the loop of ReadTargets over target names is that of
    ResolveTarget on one of them. *)
Lemma ReadTargets_targets_error (c : Config) (o : gmap string (gmap string Override))
    (ts : list string) (m : gmap string Target) (ent : EntitlementConf) (e : error) :
  ReadTargets_targets c o ts m ent = Fail e ->
  exists tname ent0, tname ∈ ts /\ ResolveTarget c tname o ent0 = Fail e.
Proof.
  revert m ent. induction ts as [|t ts IH]; intros m ent; simpl; [done|].
  destruct (ResolveTarget c t o ent) as [[r ent1]|e'] eqn:Hres; simpl.
  - intros (tname & ent0 & Hin & Hf)%IH. exists tname, ent0. split; [by right | done].
  - intros [= ->]. exists t, ent. split; [by left | done].
Qed.

Lemma ReadTargets_targets_meets (c : Config) (o : gmap string (gmap string Override))
    (g : string) (ts : list string) (m : gmap string Target) (ent : EntitlementConf) :
  find_target c g = None -> g ∈ ts ->
  exists e, ReadTargets_targets c o ts m ent = Fail e /\
            (e = Errorf ("failed to find target " +:+ g) \/
             exists tname ent0, tname ∈ ts /\ tname ≠ g /\
                                ResolveTarget c tname o ent0 = Fail e).
Proof.
  intros Hnone. revert m ent. induction ts as [|t ts IH]; intros m ent Hin.
  - by apply elem_of_nil in Hin.
  - simpl. destruct (decide (t = g)) as [->|Hne].
    { rewrite (ResolveTarget_not_found c o g ent Hnone). eexists. split; [done | by left]. }
    apply elem_of_cons in Hin as [->|Hin]; [done|].
    destruct (ResolveTarget c t o ent) as [[r ent1]|e] eqn:Hres.
    + destruct (IH (<[t := r]> m) ent1 Hin) as (e & He & Hor).
      exists e. split; [done|].
      destruct Hor as [->|(tname & ent0 & Htn & Hneq & Hfail)]; [by left|].
      right. exists tname, ent0. split; [by right | done].
    + exists e. split; [done|]. right. exists t, ent. split; [by left | done].
Qed.

Lemma ReadTargets_resolve_meets (c : Config) (o : gmap string (gmap string Override))
    (g : string) (targets : list string) (m : gmap string Target) (n : gmap string Group)
    (ent : EntitlementConf) :
  find_target c g = None ->
  (forall ts gs, ResolveGroup c g = Ok (ts, gs) -> g ∈ ts) ->
  g ∈ targets ->
  exists e, ReadTargets_resolve c o targets m n ent = Fail e /\
            (e = Errorf ("failed to find target " +:+ g) \/
             exists tname ent0, tname ≠ g /\ ResolveTarget c tname o ent0 = Fail e).
Proof.
  intros Hnone Hexp. revert m n ent.
  induction targets as [|t ts IH]; intros m n ent Hin.
  - by apply elem_of_nil in Hin.
  - simpl. destruct (ResolveGroup_returns c t) as (tts & tgs & Hres).
    rewrite Hres. simpl.
    destruct (ReadTargets_targets c o tts m ent) as [[m' ent']|e] eqn:Hts.
    + simpl. apply elem_of_cons in Hin as [<-|Hin].
      * destruct (ReadTargets_targets_meets c o g tts m ent Hnone (Hexp _ _ Hres))
          as (e & He & _). congruence.
      * by apply IH.
    + exists e. split; [done|].
      destruct (ReadTargets_targets_error c o tts m ent e Hts) as (tname & ent0 & _ & Hf).
      destruct (decide (tname = g)) as [->|Hne].
      * left. rewrite (ResolveTarget_not_found c o g ent0 Hnone) in Hf. congruence.
      * right. by exists tname, ent0.
Qed.

(** Where every other name resolves, the loop stops at [g]. *)
Lemma ReadTargets_targets_exact (c : Config) (o : gmap string (gmap string Override))
    (g : string) (ts : list string) (m : gmap string Target) (ent : EntitlementConf) :
  find_target c g = None ->
  (forall tname ent0, tname ∈ ts -> tname ≠ g ->
     exists r, ResolveTarget c tname o ent0 = Ok r) ->
  if decide (g ∈ ts)
  then ReadTargets_targets c o ts m ent = Fail (Errorf ("failed to find target " +:+ g))
  else exists r, ReadTargets_targets c o ts m ent = Ok r.
Proof.
  intros Hnone. revert m ent. induction ts as [|t ts IH]; intros m ent Hok.
  - rewrite decide_False by apply not_elem_of_nil. by eexists.
  - simpl. destruct (decide (t = g)) as [->|Hne].
    { rewrite decide_True by (by left). by rewrite (ResolveTarget_not_found c o g ent Hnone). }
    destruct (Hok t ent) as [[r ent1] ->]; [by left | done |]. simpl.
    specialize (IH (<[t := r]> m) ent1 (fun tname ent0 Hin => Hok tname ent0 (list_elem_of_further _ _ _ Hin))).
    destruct (decide (g ∈ ts)) as [Hin|Hnin].
    + by rewrite decide_True by (by right).
    + rewrite decide_False; [done|]. intros [?|?]%elem_of_cons; done.
Qed.

Lemma ReadTargets_resolve_exact (c : Config) (o : gmap string (gmap string Override))
    (g : string) (targets : list string) (m : gmap string Target) (n : gmap string Group)
    (ent : EntitlementConf) :
  find_target c g = None ->
  (forall ts gs, ResolveGroup c g = Ok (ts, gs) -> g ∈ ts) ->
  (forall t ts gs tname ent0,
     t ∈ targets -> ResolveGroup c t = Ok (ts, gs) -> tname ∈ ts -> tname ≠ g ->
     exists r, ResolveTarget c tname o ent0 = Ok r) ->
  g ∈ targets ->
  ReadTargets_resolve c o targets m n ent = Fail (Errorf ("failed to find target " +:+ g)).
Proof.
  intros Hnone Hexp. revert m n ent.
  induction targets as [|t ts IH]; intros m n ent Hok Hin.
  - by apply elem_of_nil in Hin.
  - simpl. destruct (ResolveGroup_returns c t) as (tts & tgs & Hres).
    rewrite Hres. simpl.
    pose proof (ReadTargets_targets_exact c o g tts m ent Hnone
                  (fun tname ent0 Hm Hne =>
                     Hok t tts tgs tname ent0 (list_elem_of_here _ _) Hres Hm Hne)) as Hex.
    destruct (decide (g ∈ tts)) as [Hg|Hg]; [by rewrite Hex|].
    destruct Hex as [[m' ent'] ->]. simpl.
    apply elem_of_cons in Hin as [<-|Hin]; [destruct Hg; by eapply Hexp|].
    apply IH; [|done]. intros t' ts' gs' tname ent0 Ht'. apply Hok. by right.
Qed.

(** C10, as amended. The name of a group whose members reach the group
    itself is among the target names that ResolveGroup returns for it.
    Where no target has that name, ResolveTarget fails on it with "failed
    to find target" and the name, and ReadTargets fails on every request
    that includes the group: with this error when the overrides parse and
    every other name of the expansions resolves; otherwise with this error
    or with the error met before it, that of newOverrides or of
    ResolveTarget on another name. The same holds of the loop of
    ReadTargets over the expansion of the group. *)
Theorem C10_cyclic_group_is_leaf (c : Config) (g : string) :
  group_cycle c g ->
  (exists ts gs, ResolveGroup c g = Ok (ts, gs) /\ g ∈ ts) /\
  (find_target c g = None ->
   (forall o ent,
      ResolveTarget c g o ent = Fail (Errorf ("failed to find target " +:+ g))) /\
   (forall o ts gs m ent,
      ResolveGroup c g = Ok (ts, gs) ->
      exists e, ReadTargets_targets c o ts m ent = Fail e /\
                (e = Errorf ("failed to find target " +:+ g) \/
                 exists tname ent0, tname ∈ ts /\ tname ≠ g /\
                                    ResolveTarget c tname o ent0 = Fail e)) /\
   (forall targets overrides ent,
      g ∈ map sanitizeTargetName targets ->
      exists e, ReadTargets c targets overrides ent = Fail e /\
                (e = Errorf ("failed to find target " +:+ g) \/
                 newOverrides c overrides = Fail e \/
                 exists o tname ent0, tname ≠ g /\ ResolveTarget c tname o ent0 = Fail e)) /\
   (forall targets overrides o ent,
      newOverrides c overrides = Ok o ->
      g ∈ map sanitizeTargetName targets ->
      (forall t ts gs tname ent0,
         t ∈ map sanitizeTargetName targets -> ResolveGroup c t = Ok (ts, gs) ->
         tname ∈ ts -> tname ≠ g ->
         exists r, ResolveTarget c tname o ent0 = Ok r) ->
      ReadTargets c targets overrides ent
      = Fail (Errorf ("failed to find target " +:+ g)))).
Proof.
  intros Hcycle.
  assert (Hexp : forall ts gs, ResolveGroup c g = Ok (ts, gs) -> g ∈ ts).
  { intros ts gs. unfold ResolveGroup.
    intros ([[ts' gs'] v] & Hcall & Hr)%bind_Ok. injection Hr as <- <-.
    apply dedupSlice_elem. by eapply group_cycle_target. }
  split.
  { destruct (ResolveGroup_returns c g) as (ts & gs & Hres).
    exists ts, gs. split; [done | by eapply Hexp]. }
  intros Hnone. split; [|split; [|split]].
  - intros o ent. by apply ResolveTarget_not_found.
  - intros o ts gs m ent Hres. apply ReadTargets_targets_meets; [done | by eapply Hexp].
  - intros targets overrides ent Hin. unfold ReadTargets.
    destruct (newOverrides c overrides) as [o|e]; [|exists e; split; [done | by right; left]].
    destruct (ReadTargets_resolve_meets c o g (map sanitizeTargetName targets) ∅ ∅ ent
                Hnone Hexp Hin) as (e & He & Hor).
    exists e. simpl. rewrite He. split; [done|].
    destruct Hor as [->|(tname & ent0 & Hne & Hf)]; [by left|].
    right. right. by exists o, tname, ent0.
  - intros targets overrides o ent Hov Hin Hok. unfold ReadTargets. rewrite Hov. simpl.
    by rewrite (ReadTargets_resolve_exact c o g (map sanitizeTargetName targets) ∅ ∅ ent
                  Hnone Hexp Hok Hin).
Qed.

End CyclicGroup.

Lemma sample_group_cycle : group_cycle sample_config "all".
Proof.
  exists "tools". split.
  - eapply (group_path_step _ _ "all" "tools"); [constructor | |].
    + apply list_elem_of_In. vm_compute. tauto.
    + by eexists.
  - apply list_elem_of_In. vm_compute. tauto.
Defined.

Lemma sample_cyclic_cycle : group_cycle sample_cyclic "all".
Proof.
  exists "all". split; [constructor|]. apply list_elem_of_In. vm_compute. tauto.
Defined.

(** C10, counterexample. In the sample the group [all] reaches itself and
    no target has its name, yet ReadTargets on a request for it fails with
    the error of the target listed before it in the group, an error that
    does not name the group. *)
Lemma C10_counterexample :
  group_cycle sample_cyclic "all" /\
  find_target sample_cyclic "all" = None /\
  ReadTargets sample_cyclic ["all"] [] sample_ent
  = Fail (Errorf "failed to find target nope") /\
  ~ Contains "failed to find target nope" "all".
Proof.
  split; [exact sample_cyclic_cycle|]. split; [reflexivity|].
  split; [by vm_compute|].
  intros Hc%Contains_Containsb. by vm_compute in Hc.
Qed.


(** ** Links *)




Lemma Contains_refl_prefix (pre s : string) : Contains (pre +:+ s) s.
Proof. exists pre, "". by rewrite append_empty_r. Qed.

Section Links.

Context `{Runtime}.

Variable c : Config.
Variable o : gmap string (gmap string Override).







(** *** loadLinks keeps the targets of the map and their named contexts *)








End Links.

(** *** Resolution does not read the entitlements *)
Section EntIndependent.

Context `{Runtime}.

Variable c : Config.
Variable o : gmap string (gmap string Override).

(** The target that AddOverrides builds, and whether it fails, do not
    depend on the entitlements it is given. *)
Lemma AddOverrides_body_ent (key : string) (ov : Override) (t t' : Target)
    (e1 e1' e2 : EntitlementConf) :
  AddOverrides_body key ov (t, e1) = Ok (t', e1') ->
  exists e2', AddOverrides_body key ov (t, e2) = Ok (t', e2').
Proof.
  unfold AddOverrides_body. intros Hb.
  repeat case_decide;
    repeat match type of Hb with
           | context [match ?x with _ => _ end] => destruct x; try discriminate
           | (?r ≫= _) = Ok _ =>
               let Hr := fresh "Hr" in
               apply bind_Ok in Hb as (? & Hr & Hb); rewrite Hr
           end;
    simplify_eq; simpl; by eexists.
Qed.

Lemma range_fold_ent (kvs : list (string * Override)) (t t' : Target)
    (e1 e1' e2 : EntitlementConf) :
  range_fold AddOverrides_body kvs (t, e1) = Ok (t', e1') ->
  exists e2', range_fold AddOverrides_body kvs (t, e2) = Ok (t', e2').
Proof.
  revert t e1 e2. induction kvs as [|[k ov] kvs IH]; intros t e1 e2; cbn [range_fold].
  - intros [= <- <-]. by eexists.
  - intros ([t1 e1''] & Hb & Hrest)%bind_Ok.
    destruct (AddOverrides_body_ent k ov t t1 e1 e1'' e2 Hb) as [e2'' ->].
    cbn [mbind res_bind]. by eapply IH.
Qed.

Lemma target_inherits_ent
    (rec : string -> gmap string (option Target) -> EntitlementConf ->
           res (option Target * gmap string (option Target) * EntitlementConf)) :
  (forall n v e1 e2 r v' e1',
     rec n v e1 = Ok (r, v', e1') -> exists e2', rec n v e2 = Ok (r, v', e2')) ->
  forall (names : list string) (tt0 : Target) (visited : gmap string (option Target))
         (e1 e2 : EntitlementConf) (tt1 : Target) (visited' : gmap string (option Target))
         (e1' : EntitlementConf),
    target_inherits rec names tt0 visited e1 = Ok (tt1, visited', e1') ->
    exists e2', target_inherits rec names tt0 visited e2 = Ok (tt1, visited', e2').
Proof.
  intros Hrec. induction names as [|n names IH]; intros tt0 visited e1 e2 tt1 visited' e1'; simpl.
  - intros [= <- <- <-]. by eexists.
  - intros ([[t v1] e1''] & Hcall & Hloop)%bind_Ok.
    destruct (Hrec _ _ _ e2 _ _ _ Hcall) as [e2'' ->]. simpl. by eapply IH.
Qed.

Lemma target_ent (fuel : nat) :
  forall (name : string) (visited : gmap string (option Target)) (e1 e2 : EntitlementConf)
         (r : option Target) (visited' : gmap string (option Target)) (e1' : EntitlementConf),
    target fuel c name visited o e1 = Ok (r, visited', e1') ->
    exists e2', target fuel c name visited o e2 = Ok (r, visited', e2').
Proof.
  induction fuel as [|fuel IH]; intros name visited e1 e2 r visited' e1'; [done|].
  simpl. destruct (visited !! name) as [x|].
  { intros [= <- <- <-]. by eexists. }
  destruct (find_target c name) as [decl|]; [|done].
  intros ([[tt0 v1] e1''] & Hloop & Hcall)%bind_Ok.
  apply bind_Ok in Hcall as ([m' e3] & Hov & Hcall). injection Hcall as <- <- <-.
  destruct (target_inherits_ent (fun n v e => target fuel c n v o e)
              (fun n v e1 e2 r v' e1' => IH n v e1 e2 r v' e1')
              _ _ _ _ e2 _ _ _ Hloop) as [e2'' ->].
  simpl. destruct (range_fold_ent _ _ _ _ _ e2'' Hov) as [e3' He3].
  unfold AddOverrides. rewrite He3. simpl. by eexists.
Qed.

(** The target that ResolveTarget returns does not depend on the
    entitlements it is given. *)
Lemma ResolveTarget_ent (name : string) (e1 e2 e1' : EntitlementConf) (t : Target) :
  ResolveTarget c name o e1 = Ok (t, e1') ->
  exists e2', ResolveTarget c name o e2 = Ok (t, e2').
Proof.
  unfold ResolveTarget. intros ([[r v] e1''] & Hcall & Hr)%bind_Ok.
  destruct (target_ent _ _ _ _ e2 _ _ _ Hcall) as [e2' ->]. simpl.
  destruct r as [r|]; [|done]. injection Hr as <- <-. by eexists.
Qed.

End EntIndependent.

Section LinkAdds.

Context `{Runtime}.

Variable c : Config.
Variable o : gmap string (gmap string Override).



Lemma adds_resolved_update (m : gmap string Target) (n : string) (t' : Target) :
  is_Some (m !! n) -> adds_resolved c o m (<[n := t']> m).
Proof.
  intros [t Ht] n0 t0 Hn0 Hn0'. destruct (decide (n = n0)) as [<-|Hne]; [congruence|].
  rewrite lookup_insert_ne in Hn0' by done. congruence.
Qed.






End LinkAdds.

(** ** Matrix expansion *)

Section MatrixFacts.

Context {Value : Type} `{Cty Value}.

Fixpoint EvalContext_eqb_refl (x : @EvalContext Value) : EvalContext_eqb x x = true.
Proof.
  destruct x as [vars [p|]]; simpl.
  - rewrite bool_decide_eq_true_2 by done. apply EvalContext_eqb_refl.
  - by rewrite bool_decide_eq_true_2.
Qed.

Fixpoint EvalContext_eqb_depth (x y : @EvalContext Value) :
  EvalContext_eqb x y = true -> depth x = depth y.
Proof.
  destruct x as [vx [px|]], y as [vy [py|]]; simpl; intros [_ Hp]%andb_true_iff;
    try done.
  f_equal. by apply EvalContext_eqb_depth.
Qed.

(** A context made for the matrix is not [ectx]. *)
Lemma child_neq (ectx : @EvalContext Value) (k : string) (v : Value) (e : @EvalContext Value) :
  EvalContext_eqb (matrix_child ectx k v e) ectx = false.
Proof.
  destruct (EvalContext_eqb _ ectx) eqn:Heq; [|done].
  apply EvalContext_eqb_depth in Heq. simpl in Heq. lia.
Qed.

Lemma bound_variables_child (ectx : @EvalContext Value) (k : string) (v : Value)
    (e : @EvalContext Value) :
  bound_variables ectx (matrix_child ectx k v e) = <[k := v]> (bound_variables ectx e).
Proof. unfold bound_variables at 1. by rewrite child_neq. Qed.

Lemma bound_variables_ambient (ectx : @EvalContext Value) : bound_variables ectx ectx = ∅.
Proof. unfold bound_variables. by rewrite EvalContext_eqb_refl. Qed.

(** With iterable values only, the loop is the steps one after the other. *)
Lemma matrix_loop_steps (ectx : @EvalContext Value) (kvs : list (string * Value))
    (ectxs : list (@EvalContext Value)) :
  Forall (fun kv => CanIterateElements kv.2 = true) kvs ->
  matrix_loop ectx kvs ectxs = Ok (fold_left (matrix_step ectx) kvs ectxs).
Proof.
  intros Hall. revert ectxs. induction Hall as [|[k e] kvs He Hall IH]; intros ectxs; [done|].
  simpl in *. rewrite He. simpl. apply IH.
Qed.

Lemma length_flat_map_const {A B} (f : A -> list B) (l : list A) (n : nat) :
  (forall x, length (f x) = n) -> length (flat_map f l) = length l * n.
Proof.
  intros Hf. induction l as [|x l IH]; [done|].
  simpl. rewrite length_app, Hf, IH. lia.
Qed.

Lemma length_matrix_steps (ectx : @EvalContext Value) (kvs : list (string * Value))
    (ectxs : list (@EvalContext Value)) :
  length (fold_left (matrix_step ectx) kvs ectxs) = length ectxs * matrix_size kvs.
Proof.
  revert ectxs. induction kvs as [|[k e] kvs IH]; intros ectxs; simpl; [lia|].
  rewrite IH. unfold matrix_step.
  rewrite (length_flat_map_const _ _ (length ectxs)) by (intros; apply length_map).
  simpl. lia.
Qed.

Lemma matrix_size_perm (kvs kvs' : list (string * Value)) :
  kvs ≡ₚ kvs' -> matrix_size kvs = matrix_size kvs'.
Proof.
  unfold matrix_size. induction 1 as [|x l l' Hp IH| |]; simpl; [done| |lia|congruence].
  by rewrite IH.
Qed.

Lemma bound_matrix_steps (ectx : @EvalContext Value) (kvs : list (string * Value))
    (ectxs : list (@EvalContext Value)) :
  map (bound_variables ectx) (fold_left (matrix_step ectx) kvs ectxs)
  = fold_left product_step kvs (map (bound_variables ectx) ectxs).
Proof.
  revert ectxs. induction kvs as [|[k e] kvs IH]; intros ectxs; simpl; [done|].
  rewrite IH. f_equal. unfold matrix_step, product_step. simpl.
  induction (AsValueSlice e) as [|v vs IHv]; simpl; [done|].
  rewrite map_app, IHv. f_equal. rewrite !map_map.
  apply map_ext. intros x. apply bound_variables_child.
Qed.

(** After a step every context is one made for the matrix: its variables
    are the matrix variables bound in it. *)
Lemma matrix_steps_children (ectx : @EvalContext Value) (kvs : list (string * Value))
    (ectxs : list (@EvalContext Value)) :
  kvs ≠ [] \/ Forall (fun e => bound_variables ectx e = Variables e) ectxs ->
  Forall (fun e => bound_variables ectx e = Variables e)
    (fold_left (matrix_step ectx) kvs ectxs).
Proof.
  revert ectxs. induction kvs as [|[k e] kvs IH]; intros ectxs Hor; simpl.
  - by destruct Hor.
  - apply IH. right. unfold matrix_step. simpl.
    apply Forall_forall. intros x Hx.
    apply list_elem_of_In, in_flat_map in Hx as (v & _ & Hx).
    apply in_map_iff in Hx as (e0 & <- & _).
    unfold bound_variables. by rewrite child_neq.
Qed.

(** The assignments of the product: one candidate for each variable of the
    list, and elsewhere what an assignment of the start has. *)
Lemma product_steps_elem (kvs : list (string * Value)) (acc : list (gmap string Value))
    (a : gmap string Value) :
  NoDup kvs.*1 ->
  a ∈ fold_left product_step kvs acc <->
  exists a0, a0 ∈ acc /\
    (forall k e, (k, e) ∈ kvs -> exists v, v ∈ AsValueSlice e /\ a !! k = Some v) /\
    (forall k, k ∉ kvs.*1 -> a !! k = a0 !! k).
Proof.
  revert acc. induction kvs as [|[k e] kvs IH]; intros acc Hnd; simpl.
  - split.
    + intros Ha. exists a. split; [done|]. split; [|done].
      intros k e Hin. by apply elem_of_nil in Hin.
    + intros (a0 & Ha0 & _ & Hag). assert (a = a0) as -> by (apply map_eq; intros k; apply Hag, not_elem_of_nil). done.
  - apply NoDup_cons in Hnd as [Hk Hnd]. rewrite (IH _ Hnd). split.
    + intros (a1 & Ha1 & Hch & Hag).
      apply list_elem_of_In, in_flat_map in Ha1 as (v & Hv & Ha1).
      apply in_map_iff in Ha1 as (a0 & <- & Ha0). simpl in *.
      exists a0. split; [by apply list_elem_of_In|]. split.
      * intros k' e' [[= -> ->]|Hin]%elem_of_cons; [|by apply Hch].
        exists v. split; [by apply list_elem_of_In|].
        by rewrite (Hag k Hk), lookup_insert_eq.
      * intros k' Hk'. apply not_elem_of_cons in Hk' as [Hne Hk'].
        by rewrite (Hag k' Hk'), lookup_insert_ne.
    + intros (a0 & Ha0 & Hch & Hag).
      destruct (Hch k e) as (v & Hv & Hav); [by left|].
      exists (<[k := v]> a0). split; [|split].
      * apply list_elem_of_In, in_flat_map. exists v. split; [by apply list_elem_of_In|].
        apply in_map_iff. exists a0. split; [done | by apply list_elem_of_In].
      * intros k' e' Hin. apply Hch. by right.
      * intros k' Hk'. destruct (decide (k = k')) as [<-|Hne].
        -- by rewrite lookup_insert_eq.
        -- rewrite lookup_insert_ne by done. apply Hag.
           apply not_elem_of_cons. by split.
Qed.

(** C7. A target block without a matrix attribute has one evaluation
    context, the ambient one. With a matrix of iterable values the
    expansion returns as many contexts as the product of the numbers of
    candidate values; the matrix variables bound in them are the cartesian
    product built variable by variable, each step copying the variables
    bound so far; and for a matrix with a variable, the variables of the
    contexts are the assignments of one candidate to each variable. *)
Theorem C7_matrix_product (ectx : @EvalContext Value) :
  GetEvalContexts ectx (Ok None) = Ok [ectx] /\
  forall value,
    IsMapOrObject value = true ->
    map_Forall (fun _ e => CanIterateElements e = true) (AsValueMap value) ->
    exists ectxs,
      GetEvalContexts ectx (Ok (Some (Ok value))) = Ok ectxs /\
      length ectxs = matrix_size (map_to_list (AsValueMap value)) /\
      map (bound_variables ectx) ectxs
        = matrix_assignments (matrix_order (AsValueMap value)) /\
      (AsValueMap value ≠ ∅ ->
       forall a, a ∈ map Variables ectxs <-> is_combination (AsValueMap value) a).
Proof.
  split; [done|]. intros value Hmap Hiter.
  set (m := AsValueMap value) in *.
  assert (Hall : Forall (fun kv => CanIterateElements kv.2 = true) (matrix_order m)).
  { apply Forall_forall. intros [k e] Hin. rewrite (matrix_order_perm m) in Hin.
    apply elem_of_map_to_list in Hin. by apply (Hiter k e). }
  exists (fold_left (matrix_step ectx) (matrix_order m) [ectx]).
  split; [|split; [|split]].
  - unfold GetEvalContexts. simpl. rewrite Hmap. simpl. fold m.
    by apply matrix_loop_steps.
  - rewrite length_matrix_steps. simpl.
    rewrite (matrix_size_perm _ _ (matrix_order_perm m)). lia.
  - rewrite bound_matrix_steps. simpl. by rewrite bound_variables_ambient.
  - intros Hne a.
    assert (Hkvs : matrix_order m ≠ []).
    { intros Hnil. apply Hne. apply map_to_list_empty_iff.
      apply Permutation_nil_r. by rewrite <- (matrix_order_perm m), Hnil. }
    assert (Hvars : map Variables (fold_left (matrix_step ectx) (matrix_order m) [ectx])
                    = fold_left product_step (matrix_order m) [∅]).
    { rewrite <- (bound_variables_ambient ectx).
      change [bound_variables ectx ectx] with (map (bound_variables ectx) [ectx]).
      rewrite <- bound_matrix_steps. symmetry. apply map_ext_Forall.
      apply matrix_steps_children. by left. }
    rewrite Hvars, product_steps_elem.
    2: { rewrite (matrix_order_perm m). apply NoDup_fst_map_to_list. }
    unfold is_combination. split.
    + intros (a0 & Ha0 & Hch & Hag). apply list_elem_of_singleton in Ha0 as ->. split.
      * intros k Hk. rewrite Hag; [done|].
        intros Hin. apply list_elem_of_fmap in Hin as ([k' e] & -> & Hin).
        rewrite (matrix_order_perm m) in Hin. apply elem_of_map_to_list in Hin.
        simpl in Hk. congruence.
      * intros k e Hk. apply Hch. rewrite (matrix_order_perm m).
        by apply elem_of_map_to_list.
    + intros [Hnone Hch]. exists ∅. split; [by left|]. split.
      * intros k e Hin. apply Hch. rewrite (matrix_order_perm m) in Hin.
        by apply elem_of_map_to_list in Hin.
      * intros k Hk. rewrite lookup_empty. apply Hnone.
        destruct (m !! k) as [e|] eqn:Hm; [|done]. exfalso. apply Hk.
        apply list_elem_of_fmap. exists (k, e). split; [done|].
        rewrite (matrix_order_perm m). by apply elem_of_map_to_list.
Qed.

End MatrixFacts.

Lemma C7_matrix_product_witness :
  IsMapOrObject sample_matrix = true /\
  map_Forall (fun _ e => CanIterateElements e = true) (AsValueMap sample_matrix) /\
  exists ectxs,
    GetEvalContexts sample_ectx (Ok (Some (Ok sample_matrix))) = Ok ectxs /\
    length ectxs = 4.
Proof.
  assert (Hmap : IsMapOrObject sample_matrix = true) by reflexivity.
  assert (Hiter : map_Forall (fun _ e => CanIterateElements e = true)
                    (AsValueMap sample_matrix)).
  { intros k e Hk. simpl in Hk. apply lookup_fmap_Some in Hk as (l & <- & _). done. }
  split; [exact Hmap|]. split; [exact Hiter|].
  destruct (proj2 (C7_matrix_product sample_ectx) sample_matrix Hmap Hiter)
    as (ectxs & Hres & Hlen & _).
  exists ectxs. split; [exact Hres|]. rewrite Hlen. vm_compute. reflexivity.
Defined.

Lemma C10_cyclic_group_is_leaf_witness :
  group_cycle sample_config "all" /\
  (exists ts gs, ResolveGroup sample_config "all" = Ok (ts, gs) /\ "all" ∈ ts) /\
  ReadTargets sample_config ["all"] [] sample_ent
  = Fail (Errorf "failed to find target all").
Proof.
  split; [exact sample_group_cycle|].
  destruct (C10_cyclic_group_is_leaf sample_config "all" sample_group_cycle) as [Hexp Hnone].
  split; [exact Hexp|].
  destruct (Hnone eq_refl) as (_ & _ & _ & Hexact).
  apply (Hexact ["all"] [] ∅ sample_ent eq_refl).
  - by left.
  - intros t ts gs tname ent0 Ht Hres Hin Hne.
    apply list_elem_of_singleton in Ht as ->.
    assert (Hts : ts = ["web"; "base"; "all"]).
    { assert (Hg : ResolveGroup sample_config "all" = Ok (["web"; "base"; "all"], ["all"; "tools"]))
        by (vm_compute; reflexivity).
      change (ResolveGroup sample_config "all" = Ok (ts, gs)) in Hres.
      rewrite Hg in Hres. by injection Hres as <- <-. }
    subst ts.
    assert (Hweb : exists r, ResolveTarget sample_config "web" ∅ sample_ent = Ok r)
      by (vm_compute; eexists; reflexivity).
    assert (Hbase : exists r, ResolveTarget sample_config "base" ∅ sample_ent = Ok r)
      by (vm_compute; eexists; reflexivity).
    destruct Hweb as [[tw ew] Hweb]. destruct Hbase as [[tb eb] Hbase].
    apply elem_of_cons in Hin as [->|Hin].
    { destruct (ResolveTarget_ent sample_config ∅ "web" sample_ent ent0 ew tw Hweb) as [e2 He2].
      eexists. exact He2. }
    apply elem_of_cons in Hin as [->|Hin].
    { destruct (ResolveTarget_ent sample_config ∅ "base" sample_ent ent0 eb tb Hbase) as [e2 He2].
      eexists. exact He2. }
    apply list_elem_of_singleton in Hin. by destruct Hne.
Defined.



(** ** The document under resolution, over backing arrays *)

(** C5, on the code. Resolving [web] in the sample document compacts the
    tags in the array of the declaration itself: the document read before
    and after differs, the declared tags ["app:latest", "app:latest",
    "app:v1"] having become ["app:latest", "app:v1", "app:v1"]; the resolved
    target holds the first two elements of that same array, and so does the
    target of a second resolution. sliceEqual likewise leaves the arrays of
    both its arguments sorted. *)
Theorem C5_resolution_writes_declared_arrays (growcap : nat -> nat -> nat) :
  exists t h ent,
    Aliased.ResolveTarget growcap sample_aliased_config "web" sample_store ∅ sample_ent
      = Ok (t, h, ent) /\
    Tags <$> Targets (Aliased.view_Config sample_store sample_aliased_config)
      = [Some ["app:latest"; "app:latest"; "app:v1"]] /\
    Tags <$> Targets (Aliased.view_Config h sample_aliased_config)
      = [Some ["app:latest"; "app:v1"; "app:v1"]] /\
    Aliased.view_Config h sample_aliased_config
      ≠ Aliased.view_Config sample_store sample_aliased_config /\
    Tags t = Aliased.SliceAt 0 2 /\
    (exists t' h' ent',
       Aliased.ResolveTarget growcap sample_aliased_config "web" h ∅ ent = Ok (t', h', ent') /\
       Tags t' = Aliased.SliceAt 0 2) /\
    (Aliased.sliceEqual sample_platforms (Aliased.SliceAt 1 2) (Aliased.SliceAt 2 2)).2 !! 1
      = Some ["linux/amd64"; "linux/arm64"].
Proof.
  eexists _, _, _. split; [vm_compute; reflexivity|].
  split; [vm_compute; reflexivity|]. split; [vm_compute; reflexivity|].
  split; [|split; [vm_compute; reflexivity|split]].
  - intros Heq. apply (f_equal (fun c => Tags <$> Targets c)) in Heq.
    vm_compute in Heq. discriminate Heq.
  - eexists _, _, _. split; vm_compute; reflexivity.
  - vm_compute. reflexivity.
Qed.

(** * Further properties of the code *)

(** ** removeDupes and dedupSlice *)


Lemma removeDupes_from_id (seen : gset string) (l : list string) :
  NoDup l -> (forall x, x ∈ l -> x ∉ seen /\ (x ≠ "")) -> removeDupes_from seen l = l.
Proof.
  intros Hnd. revert seen. induction Hnd as [|v l Hv Hnd IH]; intros seen Hl; simpl; [done|].
  destruct (Hl v) as [Hs He]; [by left|].
  rewrite decide_False, decide_False by done. f_equal. apply IH.
  intros x Hx. destruct (Hl x) as [Hxs Hxe]; [by right|]. split; [|done].
  rewrite elem_of_union, elem_of_singleton. intros [->|?]; done.
Qed.






(** ** sort.Strings and sliceEqual *)

Lemma String_compare_trans (s1 s2 s3 : string) :
  String.compare s1 s2 ≠ Gt -> String.compare s2 s3 ≠ Gt -> String.compare s1 s3 ≠ Gt.
Proof.
  revert s2 s3. induction s1 as [|c1 s1 IH]; intros [|c2 s2] [|c3 s3]; simpl; try done.
  unfold Ascii.compare.
  destruct (N.compare_spec (N_of_ascii c1) (N_of_ascii c2)) as [H12|H12|H12]; [| |done].
  - rewrite H12. destruct (N.compare_spec (N_of_ascii c2) (N_of_ascii c3)); [|done..].
    apply IH.
  - intros _. destruct (N.compare_spec (N_of_ascii c2) (N_of_ascii c3)) as [H23|H23|H23];
      [| |done]; intros _.
    + rewrite <- H23. by apply N.compare_lt_iff in H12 as ->.
    + assert (H13 : (N_of_ascii c1 < N_of_ascii c3)%N) by lia.
      by apply N.compare_lt_iff in H13 as ->.
Qed.

Lemma String_leb_trans (s1 s2 s3 : string) :
  String.leb s1 s2 = true -> String.leb s2 s3 = true -> String.leb s1 s3 = true.
Proof.
  unfold String.leb. intros H12 H23.
  pose proof (String_compare_trans s1 s2 s3) as Ht.
  destruct (String.compare s1 s2); try done;
    destruct (String.compare s2 s3); try done;
    destruct (String.compare s1 s3); try done; by destruct Ht.
Qed.

Lemma sort_insert_perm (x : string) (l : list string) : sort_insert x l ≡ₚ x :: l.
Proof.
  induction l as [|y l IH]; simpl; [done|].
  destruct (String.leb x y); [done|]. rewrite IH. apply Permutation_swap.
Qed.

Lemma sort_Strings_perm (l : list string) : sort_Strings l ≡ₚ l.
Proof.
  induction l as [|x l IH]; simpl; [done|]. by rewrite sort_insert_perm, IH.
Qed.

Lemma sort_insert_sorted (x : string) (l : list string) :
  StronglySorted (fun a b => String.leb a b = true) l ->
  StronglySorted (fun a b => String.leb a b = true) (sort_insert x l).
Proof.
  induction 1 as [|y l Hs IH Hy]; simpl.
  - repeat constructor.
  - destruct (String.leb x y) eqn:Hxy.
    + constructor; [by constructor|]. constructor; [done|].
      eapply Forall_impl; [exact Hy|]. intros z Hz. by eapply String_leb_trans.
    + constructor; [done|]. rewrite sort_insert_perm. constructor; [|done].
      destruct (String.leb_total x y) as [Hle|Hle]; [congruence | done].
Qed.

Lemma sort_Strings_sorted (l : list string) :
  StronglySorted (fun a b => String.leb a b = true) (sort_Strings l).
Proof.
  induction l as [|x l IH]; simpl; [constructor | by apply sort_insert_sorted].
Qed.

Lemma sorted_perm_eq (l1 l2 : list string) :
  StronglySorted (fun a b => String.leb a b = true) l1 ->
  StronglySorted (fun a b => String.leb a b = true) l2 ->
  l1 ≡ₚ l2 -> l1 = l2.
Proof.
  intros Hs1. revert l2. induction Hs1 as [|x l1 Hs1 IH Hx]; intros l2 Hs2 Hp.
  - by apply Permutation_nil_l in Hp.
  - destruct Hs2 as [|y l2 Hs2 Hy]; [by apply Permutation_nil_r in Hp|].
    assert (x = y) as ->.
    { assert (Hxin : x ∈ y :: l2) by (rewrite <- Hp; by left).
      assert (Hyin : y ∈ x :: l1) by (rewrite Hp; by left).
      apply elem_of_cons in Hxin as [->|Hxin]; [done|].
      apply elem_of_cons in Hyin as [->|Hyin]; [done|].
      apply String.leb_antisym.
      - by apply (proj1 (Forall_forall _ _) Hx).
      - by apply (proj1 (Forall_forall _ _) Hy). }
    f_equal. apply IH; [done|]. by apply Permutation_cons_inv in Hp.
Qed.

Lemma sort_Strings_eq_iff (l1 l2 : list string) :
  sort_Strings l1 = sort_Strings l2 <-> l1 ≡ₚ l2.
Proof.
  split.
  - intros Heq. by rewrite <- (sort_Strings_perm l1), Heq, sort_Strings_perm.
  - intros Hp. apply sorted_perm_eq; [apply sort_Strings_sorted..|].
    by rewrite !sort_Strings_perm.
Qed.

(** X3. sliceEqual compares two slices as multisets: it returns true
    exactly when one holds the elements of the other in some order. It
    leaves both slices with their elements, sorted when the lengths agree
    and untouched when they differ. *)
Theorem X3_sliceEqual (s1 s2 : slice) :
  ((sliceEqual s1 s2).1.1 = true <-> elems s1 ≡ₚ elems s2) /\
  elems (sliceEqual s1 s2).1.2 ≡ₚ elems s1 /\
  elems (sliceEqual s1 s2).2 ≡ₚ elems s2 /\
  (length (elems s1) = length (elems s2) ->
   (sliceEqual s1 s2).1.2 = sort_Strings <$> s1 /\
   (sliceEqual s1 s2).2 = sort_Strings <$> s2) /\
  (length (elems s1) ≠ length (elems s2) ->
   sliceEqual s1 s2 = (false, s1, s2)).
Proof.
  assert (Hel : forall s : slice, elems (sort_Strings <$> s) = sort_Strings (elems s)).
  { by intros [l|]. }
  unfold sliceEqual.
  destruct (Nat.eqb_spec (length (elems s1)) (length (elems s2))) as [Hlen|Hlen]; simpl.
  - rewrite !Hel. repeat split; try done; try apply sort_Strings_perm.
    + intros Hb. apply bool_decide_eq_true in Hb. by apply sort_Strings_eq_iff.
    + intros Hp. apply bool_decide_eq_true. by apply sort_Strings_eq_iff.
  - repeat split; try done.
    intros Hp. destruct Hlen. by rewrite Hp.
Qed.

(** ** Merge *)

Section MergeFacts.

Context `{Runtime}.

Lemma merge_ptr_map_lookup (dst src : option (gmap string (option string))) (k : string) :
  default ∅ (merge_ptr_map dst src) !! k =
    match default ∅ src !! k with
    | Some (Some v) => Some (Some v)
    | _ => default ∅ dst !! k
    end.
Proof.
  unfold merge_ptr_map.
  set (add := filter (fun kv : string * option string => is_Some kv.2) (default ∅ src)).
  assert (Hadd : add !! k = match default ∅ src !! k with
                            | Some (Some v) => Some (Some v)
                            | _ => None
                            end).
  { destruct (default ∅ src !! k) as [[v|]|] eqn:Hk.
    - apply map_lookup_filter_Some. split; [done | by eexists].
    - apply map_lookup_filter_None. right. intros x Hx [y Hy]. simpl in Hy. congruence.
    - apply map_lookup_filter_None. by left. }
  case_decide as He.
  - rewrite He, lookup_empty in Hadd. by destruct (default ∅ src !! k) as [[v|]|].
  - simpl. rewrite lookup_union, Hadd.
    destruct (default ∅ src !! k) as [[v|]|]; simpl;
      [by destruct (default ∅ dst !! k) | by rewrite (left_id None _)..].
Qed.

Lemma merge_ptr_map_nil (dst src : option (gmap string (option string))) :
  merge_ptr_map dst src = None <->
  dst = None /\ forall k v, default ∅ src !! k = Some v -> v = None.
Proof.
  unfold merge_ptr_map. case_decide as He.
  - split.
    + intros ->. split; [done|]. intros k v Hk. destruct v as [v|]; [|done].
      assert (Hin : filter (fun kv : string * option string => is_Some kv.2) (default ∅ src) !! k
                    = Some (Some v)).
      { apply map_lookup_filter_Some. split; [done | by eexists]. }
      by rewrite He, lookup_empty in Hin.
    + by intros [-> _].
  - split; [done|]. intros [_ Hnil]. destruct He. apply map_empty. intros k.
    apply map_lookup_filter_None. destruct (default ∅ src !! k) as [v|] eqn:Hk; [|by left].
    right. intros x Hx [y Hy]. simpl in Hy. injection Hx as <-.
    by rewrite (Hnil k v Hk) in Hy.
Qed.

Lemma merge_str_map_lookup (dst src : option (gmap string string)) (k : string) :
  default ∅ (merge_str_map dst src) !! k =
    match default ∅ src !! k with
    | Some v => Some v
    | None => default ∅ dst !! k
    end.
Proof.
  unfold merge_str_map. case_decide as He.
  - by rewrite He, lookup_empty.
  - simpl. rewrite lookup_union.
    destruct (default ∅ src !! k); simpl;
      [by destruct (default ∅ dst !! k) | by rewrite (left_id None _)].
Qed.

(** X4. Merging [t2] into [t] merges the maps key by key. A build argument
    or a label of [t2] replaces that of [t], except where [t2] holds a nil
    value, which leaves the entry of [t] as it is (and adds none); a named
    context of [t2] always replaces that of [t]. The names set in neither
    stay unset, and a map of [t] is allocated only when an entry is
    written. *)
Theorem X4_Merge_maps (t t2 : Target) (k : string) :
  default ∅ (Args (Merge t t2)) !! k =
    match default ∅ (Args t2) !! k with
    | Some (Some v) => Some (Some v)
    | _ => default ∅ (Args t) !! k
    end /\
  default ∅ (Labels (Merge t t2)) !! k =
    match default ∅ (Labels t2) !! k with
    | Some (Some v) => Some (Some v)
    | _ => default ∅ (Labels t) !! k
    end /\
  default ∅ (Contexts (Merge t t2)) !! k =
    match default ∅ (Contexts t2) !! k with
    | Some v => Some v
    | None => default ∅ (Contexts t) !! k
    end /\
  (Args (Merge t t2) = None <->
   Args t = None /\ forall k v, default ∅ (Args t2) !! k = Some v -> v = None) /\
  (Labels (Merge t t2) = None <->
   Labels t = None /\ forall k v, default ∅ (Labels t2) !! k = Some v -> v = None) /\
  (Contexts (Merge t t2) = None <-> Contexts t = None /\ default ∅ (Contexts t2) = ∅).
Proof.
  split; [apply merge_ptr_map_lookup|]. split; [apply merge_ptr_map_lookup|].
  split; [apply merge_str_map_lookup|]. split; [apply merge_ptr_map_nil|].
  split; [apply merge_ptr_map_nil|].
  simpl. unfold merge_str_map. case_decide as He.
  - rewrite He. naive_solver.
  - split; [done | by intros [_ ?]].
Qed.

End MergeFacts.

(** ** removeAttestDupes *)

Section AttestFacts.

Context `{Runtime}.

Lemma attest_index_unique (m : gmap string nat) (res : list string) :
  attest_index m res -> attest_unique res.
Proof.
  intros Hinv i j v v' ty Hi Hj Hv Hv'.
  assert (m !! ty = Some i) as Hmi by (apply Hinv; eauto).
  assert (m !! ty = Some j) as Hmj by (apply Hinv; eauto).
  congruence.
Qed.

Lemma attest_index_snoc_untyped (m : gmap string nat) (res : list string) (v : string) :
  ParseAttest v = None -> attest_index m res -> attest_index m (res ++ [v]).
Proof.
  intros Hv Hinv ty i. rewrite (Hinv ty i). split; intros (x & Hx & Hty); exists x.
  - split; [|done]. apply lookup_app_l_Some, Hx.
  - split; [|done]. apply lookup_app_Some in Hx as [Hx|[_ Hx]]; [done|].
    apply list_lookup_singleton_Some in Hx as [_ <-]. congruence.
Qed.

Lemma attest_index_insert (m : gmap string nat) (res : list string) (v ty0 : string)
    (i0 : nat) :
  ParseAttest v = Some ty0 -> m !! ty0 = Some i0 -> attest_index m res ->
  attest_index m (<[i0:=v]> res).
Proof.
  intros Hv Hm Hinv ty i.
  destruct (proj1 (Hinv ty0 i0) Hm) as (old & Hold & Holdty).
  rewrite (Hinv ty i). destruct (decide (i = i0)) as [->|Hne].
  - rewrite list_lookup_insert_eq by (by eapply lookup_lt_Some). split.
    + intros (x & Hx & Hty). exists v. split; [done|]. congruence.
    + intros (x & [= <-] & Hty). exists old. split; [done|]. congruence.
  - by rewrite list_lookup_insert_ne.
Qed.

Lemma attest_index_snoc_fresh (m : gmap string nat) (res : list string) (v ty0 : string) :
  ParseAttest v = Some ty0 -> m !! ty0 = None -> attest_index m res ->
  attest_index (<[ty0:=length res]> m) (res ++ [v]).
Proof.
  intros Hv Hm Hinv ty i. destruct (decide (ty = ty0)) as [->|Hne].
  - rewrite lookup_insert_eq. split.
    + intros [= <-]. exists v. split; [|done].
      rewrite lookup_app_r by lia. by rewrite Nat.sub_diag.
    + intros (x & Hx & Hty). apply lookup_app_Some in Hx as [Hx|[Hlen Hx]].
      * assert (m !! ty0 = Some i) by (apply Hinv; eauto). congruence.
      * apply list_lookup_singleton_Some in Hx as [Hi _]. f_equal. lia.
  - rewrite lookup_insert_ne by done. rewrite (Hinv ty i).
    split; intros (x & Hx & Hty); exists x.
    + split; [|done]. apply lookup_app_l_Some, Hx.
    + split; [|done]. apply lookup_app_Some in Hx as [Hx|[_ Hx]]; [done|].
      apply list_lookup_singleton_Some in Hx as [_ <-]. congruence.
Qed.

Lemma removeAttestDupes_from_index (s : list string) :
  forall (m : gmap string nat) (res : list string),
    attest_index m res ->
    exists m', attest_index m' (removeAttestDupes_from m res s).
Proof.
  induction s as [|v s IH]; intros m res Hinv; simpl; [by exists m|].
  destruct (ParseAttest v) as [ty|] eqn:Hv.
  - destruct (m !! ty) as [i|] eqn:Hm.
    + by eapply IH, attest_index_insert.
    + by eapply IH, attest_index_snoc_fresh.
  - by apply IH, attest_index_snoc_untyped.
Qed.

Lemma filter_none (P : string -> Prop) `{!forall x, Decision (P x)} (l : list string) :
  Forall (fun x => ~ P x) l -> filter P l = [].
Proof.
  induction 1 as [|x l Hx _ IH]; [done|]. by rewrite filter_cons_False.
Qed.

Lemma removeAttestDupes_from_untyped (s : list string) :
  forall (m : gmap string nat) (res : list string),
    attest_index m res ->
    filter (fun x => ParseAttest x = None) (removeAttestDupes_from m res s)
    = filter (fun x => ParseAttest x = None) (res ++ s).
Proof.
  induction s as [|v s IH]; intros m res Hinv; simpl; [by rewrite app_nil_r|].
  destruct (ParseAttest v) as [ty|] eqn:Hv.
  - destruct (m !! ty) as [i|] eqn:Hm.
    + rewrite IH by (by eapply attest_index_insert).
      destruct (proj1 (Hinv ty i) Hm) as (old & Hold & Holdty).
      rewrite !filter_app, filter_cons_False by congruence. f_equal.
      rewrite <- (take_drop_middle res i old Hold) at 2.
      rewrite insert_take_drop by (by eapply lookup_lt_Some).
      rewrite !filter_app, !filter_cons_False by congruence. done.
    + rewrite IH by (by eapply attest_index_snoc_fresh).
      by rewrite <- app_assoc.
  - rewrite IH by (by apply attest_index_snoc_untyped). by rewrite <- app_assoc.
Qed.

Lemma removeAttestDupes_from_last (ty : string) (s : list string) :
  forall (m : gmap string nat) (res : list string),
    attest_index m res ->
    last (filter (fun x => ParseAttest x = Some ty) (removeAttestDupes_from m res s))
    = last (filter (fun x => ParseAttest x = Some ty) (res ++ s)).
Proof.
  induction s as [|v s IH]; intros m res Hinv; simpl; [by rewrite app_nil_r|].
  destruct (ParseAttest v) as [ty0|] eqn:Hv.
  - destruct (m !! ty0) as [i|] eqn:Hm.
    + rewrite IH by (by eapply attest_index_insert).
      destruct (proj1 (Hinv ty0 i) Hm) as (old & Hold & Holdty).
      pose proof (lookup_lt_Some _ _ _ Hold) as Hlt.
      pose proof (take_drop_middle res i old Hold) as Hres.
      pose proof (insert_take_drop res i v Hlt) as Hins.
      assert (Hdrop : filter (fun x => ParseAttest x = Some ty0) (drop (S i) res) = []).
      { apply filter_none, Forall_lookup. intros j x Hj Hx.
        rewrite lookup_drop in Hj.
        assert (m !! ty0 = Some (S i + j)) by (apply Hinv; eauto).
        assert (S i + j = i) by congruence. lia. }
      revert Hres Hins Hdrop. generalize (take i res) (drop (S i) res).
      intros l1 l2 Hres Hins Hdrop. rewrite Hins, <- Hres.
      rewrite <- !app_assoc. simpl.
      destruct (decide (ty = ty0)) as [->|Hne].
      * rewrite !filter_app, !filter_cons_True, !filter_app, !filter_cons_True by done.
        rewrite Hdrop. simpl.
        rewrite !last_app, !last_cons. by destruct (last (filter _ s)).
      * rewrite !filter_app, !filter_cons_False, !filter_app, !filter_cons_False by congruence.
        done.
    + rewrite IH by (by eapply attest_index_snoc_fresh). by rewrite <- app_assoc.
  - rewrite IH by (by apply attest_index_snoc_untyped). by rewrite <- app_assoc.
Qed.

Lemma removeAttestDupes_from_elem (s : list string) :
  forall (m : gmap string nat) (res : list string) (x : string),
    x ∈ removeAttestDupes_from m res s -> x ∈ res ++ s.
Proof.
  induction s as [|v s IH]; intros m res x; simpl; [by rewrite app_nil_r|].
  assert (Hsnoc : x ∈ (res ++ [v]) ++ s -> x ∈ res ++ v :: s) by (by rewrite <- app_assoc).
  destruct (ParseAttest v) as [ty|]; [destruct (m !! ty) as [i|]|];
    intros Hx%IH; [|by apply Hsnoc..].
  apply elem_of_app in Hx as [Hx|Hx]; [|set_solver].
  apply list_elem_of_lookup in Hx as [j Hj].
  destruct (decide (j = i)) as [->|Hne].
  - apply list_lookup_insert_Some in Hj as [[_ [-> _]]|[? _]]; [set_solver | done].
  - rewrite list_lookup_insert_ne in Hj by done.
    apply elem_of_app. left. by eapply list_elem_of_lookup_2.
Qed.

Lemma removeAttestDupes_from_length (s : list string) :
  forall (m : gmap string nat) (res : list string),
    length (removeAttestDupes_from m res s) <= length res + length s.
Proof.
  induction s as [|v s IH]; intros m res; simpl; [lia|].
  destruct (ParseAttest v) as [ty|]; [destruct (m !! ty) as [i|]|].
  - etrans; [apply IH|]. rewrite length_insert. lia.
  - etrans; [apply IH|]. rewrite length_app. simpl. lia.
  - etrans; [apply IH|]. rewrite length_app. simpl. lia.
Qed.

Lemma removeAttestDupes_from_id (s : list string) :
  forall (m : gmap string nat) (res : list string),
    attest_unique s ->
    (forall v ty, v ∈ s -> ParseAttest v = Some ty -> m !! ty = None) ->
    removeAttestDupes_from m res s = res ++ s.
Proof.
  induction s as [|v s IH]; intros m res Hun Hfresh; simpl; [by rewrite app_nil_r|].
  assert (Hun' : attest_unique s).
  { intros i j x x' ty Hi Hj Hx Hx'.
    assert (S i = S j) by (by eapply (Hun (S i) (S j))). lia. }
  destruct (ParseAttest v) as [ty|] eqn:Hv.
  - rewrite (Hfresh v ty) by (done || by left).
    rewrite IH; [by rewrite <- app_assoc | done |].
    intros x ty' Hx Hty'. apply list_elem_of_lookup in Hx as [j Hj].
    destruct (decide (ty' = ty)) as [->|Hne].
    + assert (0 = S j) by (by eapply (Hun 0 (S j) v x ty)). lia.
    + rewrite lookup_insert_ne by done. eapply Hfresh; [|done]. right.
      by eapply list_elem_of_lookup_2.
  - rewrite IH; [by rewrite <- app_assoc | done |].
    intros x ty' Hx Hty'. eapply Hfresh; [by right | done].
Qed.

Lemma attest_index_empty : attest_index ∅ [].
Proof.
  intros ty i. rewrite lookup_empty. split; [done|]. by intros (v & Hv & _).
Qed.

Lemma removeAttestDupes_idem (s : slice) :
  removeAttestDupes (removeAttestDupes s) = removeAttestDupes s.
Proof.
  unfold removeAttestDupes. simpl. f_equal.
  destruct (removeAttestDupes_from_index (elems s) ∅ [] attest_index_empty) as [m' Hm'].
  rewrite removeAttestDupes_from_id; [done | by eapply attest_index_unique |].
  intros v ty _ _. apply lookup_empty.
Qed.

(** X5. removeAttestDupes keeps one attestation per type: no two entries of
    the result parse to the same type, and the entry kept for a type is the
    last one of the input with this type. The entries that do not parse are
    all kept, in order. The result is never nil, holds only entries of the
    input, is no longer than it, and a second pass leaves it as it is. *)
Theorem X5_removeAttestDupes (s : slice) :
  exists l,
    removeAttestDupes s = Some l /\
    (forall i j v v' ty,
       l !! i = Some v -> l !! j = Some v' ->
       ParseAttest v = Some ty -> ParseAttest v' = Some ty -> i = j) /\
    (forall ty,
       last (filter (fun x => ParseAttest x = Some ty) l)
       = last (filter (fun x => ParseAttest x = Some ty) (elems s))) /\
    filter (fun x => ParseAttest x = None) l
      = filter (fun x => ParseAttest x = None) (elems s) /\
    (forall x, x ∈ l -> x ∈ elems s) /\
    length l <= length (elems s) /\
    removeAttestDupes (Some l) = Some l.
Proof.
  exists (removeAttestDupes_from ∅ [] (elems s)). split; [done|].
  destruct (removeAttestDupes_from_index (elems s) ∅ [] attest_index_empty) as [m' Hm'].
  split; [by eapply attest_index_unique|].
  split; [intros ty; by rewrite removeAttestDupes_from_last by apply attest_index_empty|].
  split; [by rewrite removeAttestDupes_from_untyped by apply attest_index_empty|].
  split; [intros x Hx; by apply removeAttestDupes_from_elem in Hx|].
  split; [apply (removeAttestDupes_from_length (elems s) ∅ [])|].
  apply (removeAttestDupes_idem s).
Qed.

End AttestFacts.

(** ** normalize *)

Lemma removeDupes_idem (s : slice) : removeDupes (removeDupes s) = removeDupes s.
Proof.
  destruct s as [l|]; [|done]. unfold removeDupes. simpl. f_equal.
  apply removeDupes_from_id; [apply removeDupes_from_NoDup|].
  intros x Hx. apply removeDupes_from_elem in Hx as (_ & _ & Hne).
  split; [apply not_elem_of_empty | done].
Qed.

Lemma removeDupes_clean (s : slice) : NoDup (elems (removeDupes s)) /\ "" ∉ elems (removeDupes s).
Proof.
  destruct s as [l|]; simpl; [|split; [constructor | apply not_elem_of_nil]].
  split; [apply removeDupes_from_NoDup|]. rewrite removeDupes_from_elem. naive_solver.
Qed.

Lemma removeDupes_from_snoc_seen (seen : gset string) (l : list string) (x : string) :
  x ∈ l \/ x ∈ seen \/ x = "" ->
  removeDupes_from seen (l ++ [x]) = removeDupes_from seen l.
Proof.
  revert seen. induction l as [|v l IH]; intros seen Hx; simpl.
  - destruct Hx as [Hx|[Hx| ->]]; [by apply elem_of_nil in Hx| |].
    + by rewrite decide_True.
    + case_decide; [done|]. by rewrite decide_True.
  - destruct (decide (v ∈ seen)) as [Hs|Hs]; [|destruct (decide (v = "")) as [He|He]].
    + apply IH. rewrite elem_of_cons in Hx. naive_solver.
    + apply IH. rewrite elem_of_cons in Hx. naive_solver.
    + f_equal. apply IH. rewrite elem_of_cons in Hx. set_solver.
Qed.

Section NormalizeFacts.

Context `{Runtime}.

Lemma normalize_Contexts_lookup (m : option (gmap string string)) (k v : string) :
  default ∅ (normalize_Contexts m) !! k = Some v <-> default ∅ m !! k = Some v /\ (v ≠ "").
Proof.
  unfold normalize_Contexts. case_decide as He; simpl.
  - rewrite lookup_empty. split; [done|]. intros [Hk Hv].
    assert (Hin : filter (fun kv : string * string => kv.2 ≠ "") (default ∅ m) !! k = Some v)
      by (by apply map_lookup_filter_Some).
    by rewrite He, lookup_empty in Hin.
  - apply map_lookup_filter_Some.
Qed.

Lemma normalize_Contexts_idem (m : option (gmap string string)) :
  normalize_Contexts (normalize_Contexts m) = normalize_Contexts m.
Proof.
  unfold normalize_Contexts at 2. case_decide as He.
  { unfold normalize_Contexts. simpl. rewrite map_filter_empty. by rewrite !decide_True. }
  unfold normalize_Contexts. simpl.
  assert (Hid : filter (fun kv : string * string => kv.2 ≠ "")
                  (filter (fun kv : string * string => kv.2 ≠ "") (default ∅ m))
                = filter (fun kv : string * string => kv.2 ≠ "") (default ∅ m)).
  { apply map_eq. intros k. apply option_eq. intros v.
    rewrite !map_lookup_filter_Some. naive_solver. }
  rewrite Hid. by rewrite decide_False.
Qed.

Lemma normalize_idem (t : Target) : normalize (normalize t) = normalize t.
Proof.
  unfold normalize at 1. cbn [Name Description Inherits Annotations Attest Context Contexts
    Dockerfile DockerfileInline Args Labels Tags CacheFrom CacheTo Target_ Secrets SSH
    Platforms Outputs Pull NoCache NetworkMode NoCacheFilter ShmSize Ulimits Call
    Entitlements linked normalize].
  rewrite !removeDupes_idem, normalize_Contexts_idem, removeAttestDupes_idem.
  unfold normalize. f_equal.
  case_decide as Hhost; [|apply removeDupes_idem].
  set (E := append (Entitlements t) ["network.host"]).
  assert (HE : exists l, E = Some l /\ "network.host" ∈ l).
  { exists (elems (Entitlements t) ++ ["network.host"]). split; [done|]. set_solver. }
  destruct HE as (l & -> & Hin). simpl. f_equal.
  rewrite removeDupes_from_snoc_seen.
  - apply removeDupes_from_id; [apply removeDupes_from_NoDup|].
    intros x Hx. apply removeDupes_from_elem in Hx as (_ & _ & Hne).
    split; [apply not_elem_of_empty | done].
  - left. apply removeDupes_from_elem. split; [done|]. split; [apply not_elem_of_empty | done].
Qed.

Lemma normalize_clean (t : Target) :
  Forall (fun s => NoDup (elems s) /\ "" ∉ elems s) (deduped_fields (normalize t)) /\
  attest_unique (elems (Attest (normalize t))) /\
  (forall k v, default ∅ (Contexts (normalize t)) !! k = Some v <->
               default ∅ (Contexts t) !! k = Some v /\ (v ≠ "")) /\
  Contexts (normalize t) ≠ Some ∅.
Proof.
  split; [|split; [|split]].
  - unfold deduped_fields. simpl. repeat (constructor; [apply removeDupes_clean|]).
    constructor.
  - simpl. destruct (removeAttestDupes_from_index (elems (Attest t)) ∅ [] attest_index_empty)
      as [m' Hm']. by eapply attest_index_unique.
  - intros k v. apply normalize_Contexts_lookup.
  - simpl. unfold normalize_Contexts. case_decide; [done | congruence].
Qed.

(** X6. normalize leaves no duplicate and no empty string in the list
    fields it deduplicates, and at most one attestation per type; it drops
    the named contexts whose value is empty and keeps the others, and
    leaves the map nil rather than empty. A normalized target is left as
    it is by normalize. *)
Theorem X6_normalize (t : Target) :
  Forall (fun s => NoDup (elems s) /\ "" ∉ elems s) (deduped_fields (normalize t)) /\
  attest_unique (elems (Attest (normalize t))) /\
  (forall k v, default ∅ (Contexts (normalize t)) !! k = Some v <->
               default ∅ (Contexts t) !! k = Some v /\ (v ≠ "")) /\
  Contexts (normalize t) ≠ Some ∅ /\
  normalize (normalize t) = normalize t.
Proof.
  destruct (normalize_clean t) as (Hf & Ha & Hc & Hn).
  split; [done|]. split; [done|]. split; [done|]. split; [done|]. apply normalize_idem.
Qed.

(** X7. The target that ResolveTarget returns is normalized: normalize
    leaves it as it is, so that its list fields hold no duplicate and no
    empty string, and its named contexts no empty value. *)
Theorem X7_ResolveTarget_normalized (c : Config) (o : gmap string (gmap string Override))
    (name : string) (ent ent' : EntitlementConf) (t : Target) :
  ResolveTarget c name o ent = Ok (t, ent') ->
  normalize t = t /\
  Forall (fun s => NoDup (elems s) /\ "" ∉ elems s) (deduped_fields t) /\
  attest_unique (elems (Attest t)) /\
  (forall k, default ∅ (Contexts t) !! k ≠ Some "").
Proof.
  intros Hr.
  destruct (ResolveTarget_Ok c o (fun _ _ => True) name ent ent' t
              (fun _ _ _ _ _ _ _ _ _ => I) Hr)
    as (decl & ps & m' & ent1 & _ & _ & _ & _ & ->).
  assert (Hnorm : normalize (ResolveTarget_defaults (normalize m'))
                  = ResolveTarget_defaults (normalize m')).
  { rewrite <- (normalize_idem m') at 2. unfold ResolveTarget_defaults.
    cbn [set_Inherits Context Dockerfile normalize].
    destruct (Context m'), (Dockerfile m'); reflexivity. }
  split; [done|]. rewrite <- Hnorm.
  destruct (normalize_clean (ResolveTarget_defaults (normalize m')))
    as (Hf & Ha & Hc & _).
  split; [done|]. split; [done|].
  intros k Hk. apply Hc in Hk as [_ Hk]. done.
Qed.

End NormalizeFacts.

Lemma X7_ResolveTarget_normalized_witness :
  normalize sample_web = sample_web /\
  Forall (fun s => NoDup (elems s) /\ "" ∉ elems s) (deduped_fields sample_web) /\
  attest_unique (elems (Attest sample_web)) /\
  (forall k, default ∅ (Contexts sample_web) !! k ≠ Some "").
Proof.
  apply (X7_ResolveTarget_normalized sample_config ∅ "web" sample_ent sample_ent).
  vm_compute. reflexivity.
Defined.

(** ** AddOverrides: what it rejects *)

Section OverrideFacts.

Context `{Runtime}.

(** An entry on which the body fails in every state makes the loop fail,
    wherever the order of the map puts it. *)
Lemma range_fold_fails {A S : Type} (body : string -> A -> S -> res S)
    (kvs : list (string * A)) (k : string) (v : A) :
  (k, v) ∈ kvs ->
  (forall s, exists e, body k v s = Fail e) ->
  forall s, exists e, range_fold body kvs s = Fail e.
Proof.
  intros Hin Hbody. induction kvs as [|[k' v'] kvs IH]; intros s.
  - by apply elem_of_nil in Hin.
  - simpl. apply elem_of_cons in Hin as [[= <- <-]|Hin].
    + destruct (Hbody s) as [e ->]. by exists e.
    + destruct (body k' v' s) as [s'|e]; simpl; [by apply IH | by exists e].
Qed.

Lemma AddOverrides_fails (t : Target) (ov : gmap string Override) (ent : EntitlementConf)
    (key : string) (o : Override) :
  ov !! key = Some o ->
  (forall st, exists e, AddOverrides_body key o st = Fail e) ->
  exists msg, AddOverrides t ov ent = Fail (Errorf msg).
Proof.
  intros Hkey Hbody.
  destruct (range_fold_fails AddOverrides_body (range_order Override ov) key o
              (proj2 (range_order_elem ov key o) Hkey) Hbody (t, ent)) as [e He].
  pose proof (AddOverrides_error t ov ent e He) as Herr.
  destruct e as [msg| |]; [|done..]. by exists msg.
Qed.

Lemma AddOverrides_body_unknown (key : string) (o : Override)
    (st : Target * EntitlementConf) :
  key_head key ∉ override_keys ->
  AddOverrides_body key o st = Fail (Errorf ("unknown key: " +:+ key_head key)).
Proof.
  intros Hk. destruct st as [t ent]. unfold AddOverrides_body.
  change (hd "" (SplitN key "." 2)) with (key_head key).
  unfold override_keys in Hk. rewrite !not_elem_of_cons in Hk. destruct_and!.
  repeat (case_decide; [congruence|]). done.
Qed.

Lemma AddOverrides_body_boolean (key : string) (o : Override)
    (st : Target * EntitlementConf) :
  key_head key ∈ boolean_keys -> ParseBool (Value o) = None ->
  AddOverrides_body key o st
  = Fail (Errorf ("invalid value " +:+ Value o +:+ " for boolean key " +:+ key_head key)).
Proof.
  intros Hk Hv. destruct st as [t ent]. unfold AddOverrides_body.
  change (hd "" (SplitN key "." 2)) with (key_head key).
  unfold boolean_keys in Hk. rewrite !elem_of_cons, elem_of_nil in Hk.
  destruct Hk as [->|[->|[->|[->|[]]]]];
    repeat (case_decide; [discriminate|]);
    (case_decide; [|done]); unfold parse_bool_key; by rewrite Hv.
Qed.

(** X8. A table of overrides that holds a key without a case in
    AddOverrides is rejected as a whole, whatever its other entries and the
    order in which the map is ranged; where it is the only entry, the error
    is "unknown key:" and the key up to its first dot, and neither the
    target nor the entitlements are returned. *)
Theorem X8_AddOverrides_unknown_key (t : Target) (ov : gmap string Override)
    (ent : EntitlementConf) (key : string) (o : Override) :
  key_head key ∉ override_keys ->
  (ov !! key = Some o -> exists msg, AddOverrides t ov ent = Fail (Errorf msg)) /\
  AddOverrides t {[key := o]} ent = Fail (Errorf ("unknown key: " +:+ key_head key)).
Proof.
  intros Hk. split.
  - intros Hkey. eapply AddOverrides_fails; [done|].
    intros st. eexists. by apply AddOverrides_body_unknown.
  - unfold AddOverrides. rewrite range_order_singleton. cbn [range_fold].
    by rewrite AddOverrides_body_unknown.
Qed.

(** X9. An override of no-cache, pull, push or load whose value is not one
    of the spellings that strconv.ParseBool accepts makes AddOverrides fail,
    whatever the other entries of the table; where it is the only entry,
    the error names the value and the key. *)
Theorem X9_AddOverrides_boolean (t : Target) (ov : gmap string Override)
    (ent : EntitlementConf) (key : string) (o : Override) :
  key_head key ∈ boolean_keys ->
  ParseBool (Value o) = None ->
  (ov !! key = Some o -> exists msg, AddOverrides t ov ent = Fail (Errorf msg)) /\
  AddOverrides t {[key := o]} ent
  = Fail (Errorf ("invalid value " +:+ Value o +:+ " for boolean key " +:+ key_head key)).
Proof.
  intros Hk Hv. split.
  - intros Hkey. eapply AddOverrides_fails; [done|].
    intros st. eexists. by apply AddOverrides_body_boolean.
  - unfold AddOverrides. rewrite range_order_singleton. cbn [range_fold].
    by rewrite AddOverrides_body_boolean.
Qed.

End OverrideFacts.

Lemma X8_AddOverrides_unknown_key_witness :
  AddOverrides sample_web {["dockerfile-inline" := {| Value := "FROM scratch"; ArrValue := None |}]}
    sample_ent
  = Fail (Errorf "unknown key: dockerfile-inline").
Proof.
  apply (X8_AddOverrides_unknown_key sample_web ∅ sample_ent "dockerfile-inline"
           {| Value := "FROM scratch"; ArrValue := None |}).
  vm_compute. intros Hin. repeat (apply elem_of_cons in Hin as [Hin|Hin]; [discriminate|]).
  by apply elem_of_nil in Hin.
Defined.

Lemma X9_AddOverrides_boolean_witness :
  AddOverrides sample_web {["pull" := {| Value := "yes"; ArrValue := None |}]} sample_ent
  = Fail (Errorf "invalid value yes for boolean key pull").
Proof.
  apply (X9_AddOverrides_boolean sample_web ∅ sample_ent "pull"
           {| Value := "yes"; ArrValue := None |}).
  - vm_compute. repeat constructor.
  - reflexivity.
Defined.

(** ** The push and load overrides *)

Lemma append_append (s : slice) (xs ys : list string) :
  append (append s xs) ys = append s (xs ++ ys).
Proof.
  destruct xs as [|x xs]; [done|]. destruct ys as [|y ys]; simpl.
  - by rewrite app_nil_r.
  - by rewrite <- app_assoc.
Qed.

Lemma append_nil (s : slice) : append s [] = s.
Proof. done. Qed.

Lemma elems_append (s : slice) (xs : list string) : elems (append s xs) = elems s ++ xs.
Proof. destruct xs; simpl; [by rewrite app_nil_r | done]. Qed.

Section OutputFacts.

Context `{Runtime}.

Lemma setLoadOverride_loop_true (outputs : list string) :
  setLoadOverride_loop outputs = true <-> Forall load_compatible outputs.
Proof.
  induction outputs as [|output outputs IH]; simpl; [by split; [constructor|]|].
  rewrite Forall_cons, <- IH. unfold load_compatible.
  destruct (decide (parseOutputType output = "docker")) as [Hd|Hd].
  - rewrite Hd. destruct (parseOutput output) as [v|] eqn:Hv.
    + destruct (v !! "dest") as [d|] eqn:Hdest.
      * split; [|tauto]. intros Hl. split; [|done]. do 3 right. split; [done|].
        exists v. split; [done | by eexists].
      * split; [done|]. intros [[?|[?|[?|[_ (v' & [= <-] & [d Hd'])]]]] _]; congruence.
    + unfold parseOutputType in Hd. by rewrite Hv in Hd.
  - case_decide as Hi.
    + split; [done|]. intros [[?|[?|[?|[? _]]]] _]; tauto.
    + split; [|tauto]. intros Hl. split; [|done].
      destruct (decide (parseOutputType output = "image")); [tauto|].
      destruct (decide (parseOutputType output = "registry")); [tauto|].
      destruct (decide (parseOutputType output = "oci")); tauto.
Qed.

(** X10. A load override that is false leaves the outputs as they are. A
    load override that is true adds the output "type=docker" at the end
    exactly when every output is an image, a registry or an oci output, or
    a docker output with a destination, so also when there is no output;
    otherwise it leaves the outputs as they are. *)
Theorem X10_setLoadOverride (outputs : slice) :
  setLoadOverride outputs false = outputs /\
  (Forall load_compatible (elems outputs) ->
   setLoadOverride outputs true = Some (elems outputs ++ ["type=docker"])) /\
  (~ Forall load_compatible (elems outputs) -> setLoadOverride outputs true = outputs).
Proof.
  split; [done|]. unfold setLoadOverride. simpl.
  split; intros Hl.
  - apply setLoadOverride_loop_true in Hl. by rewrite Hl.
  - destruct (setLoadOverride_loop (elems outputs)) eqn:Hloop; [|done].
    by apply setLoadOverride_loop_true in Hloop.
Qed.

Lemma setPushOverride_loop_spec (outputs : list string) (push : bool) :
  forall (out : slice) (setPush : bool),
    setPushOverride_loop outputs push out setPush
    = (append out (flat_map (push_output push) outputs),
       setPush && bool_decide (Forall (fun o => parseOutputType o = "docker") outputs)).
Proof.
  induction outputs as [|output outputs IH]; intros out setPush; simpl.
  - by rewrite andb_true_r.
  - unfold push_output at 1.
    assert (Hnot : forall b : bool,
              parseOutputType output ≠ "docker" ->
              false = b && bool_decide (Forall (fun o => parseOutputType o = "docker")
                                          (output :: outputs))).
    { intros b Hne. rewrite bool_decide_eq_false_2; [by rewrite andb_false_r|].
      intros Hall. by apply Forall_cons in Hall as [? _]. }
    destruct (decide (parseOutputType output = "registry")) as [Hr|Hr].
    + rewrite decide_True by (by right).
      destruct push; cbn [negb]; rewrite IH; f_equal;
        first [exact (append_append out [_] _) | apply Hnot; by rewrite Hr].
    + destruct (decide (parseOutputType output = "image")) as [Hi|Hi].
      * rewrite decide_True by (by left). rewrite IH. f_equal; [exact (append_append out [_] _)|].
        apply Hnot. by rewrite Hi.
      * rewrite decide_False by tauto. rewrite IH. f_equal; [exact (append_append out [_] _)|].
        destruct (decide (parseOutputType output = "docker")) as [Hd|Hd].
        -- f_equal. apply bool_decide_ext. rewrite Forall_cons. tauto.
        -- by apply Hnot.
Qed.

(** X11. A push override rewrites the outputs one by one, in order: a
    registry output is kept when pushing and dropped when not, an image
    output gets the attribute push with the value of the override, any
    other output is kept as it is. When pushing, the output
    "type=image,push=true" is added at the end exactly when every output
    is a docker output, so also when there is none. Without outputs and
    without pushing the result is the nil slice. *)
Theorem X11_setPushOverride (outputs : slice) (push : bool) :
  elems (setPushOverride outputs push)
  = flat_map (push_output push) (elems outputs) ++
    (if push && bool_decide (Forall (fun o => parseOutputType o = "docker") (elems outputs))
     then ["type=image,push=true"] else []) /\
  (elems outputs = [] ->
   setPushOverride outputs push = if push then Some ["type=image,push=true"] else None).
Proof.
  unfold setPushOverride. rewrite setPushOverride_loop_spec. simpl. split.
  - destruct (push && _); rewrite ?elems_append; simpl; by rewrite ?app_nil_r.
  - intros Hnil. destruct outputs as [[|x l]|]; [|discriminate|]; by destruct push.
Qed.

End OutputFacts.

Lemma X11_setPushOverride_witness :
  setPushOverride None true = Some ["type=image,push=true"].
Proof. apply (X11_setPushOverride None true). reflexivity. Defined.

(** ** newOverrides *)

Lemma cut_append (sep : ascii) (a b : string) :
  cut sep a = None -> cut sep (a +:+ String sep b) = Some (a, b).
Proof.
  induction a as [|x a IH].
  - intros _. rewrite append_empty_l. simpl. by rewrite Ascii.eqb_refl.
  - rewrite append_cons. simpl. destruct (Ascii.eqb x sep); [done|].
    destruct (cut sep a) as [[l r]|]; [done|]. intros _. by rewrite IH.
Qed.

Lemma SplitN_2 (s : string) (sep : ascii) :
  SplitN s sep 2 = match cut sep s with Some (l, r) => [l; r] | None => [s] end.
Proof. simpl. by destruct (cut sep s) as [[l r]|]. Qed.

Lemma SplitN_3 (s : string) (sep : ascii) :
  SplitN s sep 3 = match cut sep s with Some (l, r) => l :: SplitN r sep 2 | None => [s] end.
Proof. cbn [SplitN]. by destruct (cut sep s) as [[l r]|]. Qed.

Lemma cut_None_append (sep : ascii) (a b : string) :
  cut sep a = None -> cut sep b = None -> cut sep (a +:+ b) = None.
Proof.
  intros Ha Hb. induction a as [|x a IH]; [by rewrite append_empty_l|].
  rewrite append_cons. simpl in *. destruct (Ascii.eqb x sep); [done|].
  destruct (cut sep a) as [[l r]|]; [done|]. by rewrite IH.
Qed.

Section NewOverridesFacts.

Context `{Runtime}.

Variable c : Config.

Lemma newOverrides_from_entry_fails (l : list string) (v : string)
    (m : gmap string (gmap string Override)) :
  v ∈ l ->
  (forall m, exists e, newOverrides_entry c v m = Fail e) ->
  exists e, newOverrides_from c l m = Fail e.
Proof.
  intros Hin He. revert m. induction l as [|x l IH]; intros m.
  - by apply elem_of_nil in Hin.
  - simpl. apply elem_of_cons in Hin as [<-|Hin].
    + destruct (He m) as [e' ->]. by eexists.
    + destruct (newOverrides_entry c x m) as [m'|e']; [|by eexists].
      simpl. by apply IH.
Qed.

(** X12. An override whose key, the text before the first "=", holds no
    dot is rejected with "invalid override key"; an override without "="
    whose key is not an args key is rejected with "expected
    target.name=value". Either error is that of newOverrides when the
    override comes first, and newOverrides fails on every list that holds
    such an override. *)
Theorem X12_newOverrides_malformed (v : string) (l : list string) :
  let part0 := hd "" (SplitN v "=" 2) in
  (cut "." part0 = None ->
   newOverrides c (v :: l)
   = Fail (Errorf ("invalid override key " +:+ part0 +:+ ", expected target.name")) /\
   forall l', v ∈ l' -> exists e, newOverrides c l' = Fail e) /\
  (forall target name,
     cut "=" v = None -> cut "." v = Some (target, name) ->
     hd "" (SplitN name "." 2) ≠ "args" ->
     newOverrides c (v :: l)
     = Fail (Errorf ("invalid override " +:+ v +:+ ", expected target.name=value")) /\
     forall l', v ∈ l' -> exists e, newOverrides c l' = Fail e).
Proof.
  intros part0. split.
  - intros Hcut.
    assert (He : forall m, newOverrides_entry c v m
              = Fail (Errorf ("invalid override key " +:+ part0 +:+ ", expected target.name"))).
    { intros m. unfold newOverrides_entry. fold part0. by rewrite SplitN_3, Hcut. }
    split.
    + unfold newOverrides. cbn [newOverrides_from]. by rewrite He.
    + intros l' Hin. eapply newOverrides_from_entry_fails; [done|].
      intros m. eexists. apply He.
  - intros target name Heq Hdot Hargs.
    assert (Hparts : SplitN v "=" 2 = [v]) by (by rewrite SplitN_2, Heq).
    assert (He : forall m, newOverrides_entry c v m
              = Fail (Errorf ("invalid override " +:+ v +:+ ", expected target.name=value"))).
    { intros m. unfold newOverrides_entry. rewrite Hparts. cbn [hd].
      rewrite SplitN_3, Hdot. rewrite SplitN_2 in Hargs |- *.
      destruct (cut "." name) as [[k r]|]; cbn [hd nth length] in *;
        rewrite bool_decide_eq_false_2 by done; done. }
    split.
    + unfold newOverrides. cbn [newOverrides_from]. by rewrite He.
    + intros l' Hin. eapply newOverrides_from_entry_fails; [done|].
      intros m. eexists. apply He.
Qed.

End NewOverridesFacts.

Section OverrideParsing.

Context `{Runtime}.

Variable c : Config.

Lemma expandTargets_declared (name : string) (decl : Target) :
  find_target c name = Some decl -> expandTargets c name = Ok [name].
Proof. unfold expandTargets. by intros ->. Qed.

(** The override [name.k=val] of a key without dots. *)
Lemma newOverrides_entry_plain (name k val : string) (decl : Target)
    (m : gmap string (gmap string Override)) :
  find_target c name = Some decl ->
  cut "." name = None -> cut "=" name = None ->
  cut "." k = None -> cut "=" k = None ->
  k ≠ "args" -> k ≠ "contexts" ->
  newOverrides_entry c (name +:+ "." +:+ k +:+ "=" +:+ val) m
  = let t := default ∅ (m !! name) in
    let o := default {| Value := ""; ArrValue := None |} (t !! k) in
    Ok (<[name :=
           <[k := if bool_decide (k ∈ list_keys)
                  then {| Value := Value o; ArrValue := append (ArrValue o) [val] |}
                  else {| Value := val; ArrValue := ArrValue o |}]> t]> m).
Proof.
  intros Hdecl Hn1 Hn2 Hk1 Hk2 Hargs Hctx.
  set (part0 := name +:+ "." +:+ k).
  assert (Hv : name +:+ "." +:+ k +:+ "=" +:+ val = part0 +:+ String "=" val).
  { unfold part0. by norm_append. }
  assert (Hp0 : part0 = name +:+ String "." k) by (unfold part0; by norm_append).
  assert (Hcut0 : cut "=" part0 = None).
  { rewrite Hp0. apply cut_None_append; [done|]. simpl. by rewrite Hk2. }
  assert (Hparts : SplitN (name +:+ "." +:+ k +:+ "=" +:+ val) "=" 2 = [part0; val]).
  { by rewrite Hv, SplitN_2, cut_append. }
  assert (Hkk : SplitN part0 "." 2 = [name; k]).
  { by rewrite Hp0, SplitN_2, cut_append. }
  assert (Hkeys : SplitN part0 "." 3 = [name; k]).
  { by rewrite Hp0, SplitN_3, cut_append, SplitN_2, Hk1. }
  unfold newOverrides_entry. rewrite Hparts. cbn [hd]. rewrite Hkeys, Hkk.
  cbn [length hd nth Nat.ltb Nat.leb Nat.eqb negb andb].
  rewrite (expandTargets_declared name decl Hdecl).
  cbn [mbind res_bind newOverrides_names]. unfold newOverrides_switch.
  cbn [nth length Nat.eqb negb].
  destruct (bool_decide (k ∈ list_keys)); [done|].
  rewrite decide_False, decide_False by done. done.
Qed.

(** The override [name.args.var] without a value. *)
Lemma newOverrides_entry_env (name var : string) (decl : Target)
    (m : gmap string (gmap string Override)) :
  find_target c name = Some decl ->
  cut "." name = None -> cut "=" name = None -> cut "=" var = None ->
  newOverrides_entry c (name +:+ ".args." +:+ var) m
  = let t := default ∅ (m !! name) in
    let o := default {| Value := ""; ArrValue := None |} (t !! ("args." +:+ var)) in
    Ok (<[name :=
           match LookupEnv var with
           | Some x => <["args." +:+ var := {| Value := x; ArrValue := ArrValue o |}]> t
           | None => t
           end]> m).
Proof.
  intros Hdecl Hn1 Hn2 Hv2.
  set (v := name +:+ ".args." +:+ var).
  assert (Hv : v = name +:+ String "." ("args" +:+ String "." var))
    by (unfold v; by norm_append).
  assert (Hcut0 : cut "=" v = None).
  { rewrite Hv. apply cut_None_append; [done|]. simpl. by rewrite Hv2. }
  assert (Hparts : SplitN v "=" 2 = [v]) by (by rewrite SplitN_2, Hcut0).
  assert (Hkk : SplitN v "." 2 = [name; "args." +:+ var]).
  { rewrite Hv, SplitN_2, cut_append by done. by norm_append. }
  assert (Hkeys : SplitN v "." 3 = [name; "args"; var]).
  { rewrite Hv, SplitN_3, cut_append, SplitN_2 by done.
    by rewrite (cut_append "." "args" var). }
  unfold newOverrides_entry. rewrite Hparts. cbn [hd]. rewrite Hkeys, Hkk.
  cbn [length hd nth Nat.ltb Nat.leb Nat.eqb negb andb].
  rewrite bool_decide_eq_true_2 by done. cbn [negb andb].
  rewrite (expandTargets_declared name decl Hdecl).
  cbn [mbind res_bind newOverrides_names]. unfold newOverrides_switch.
  cbn [nth length Nat.eqb negb].
  rewrite bool_decide_eq_false_2.
  2: { unfold list_keys. intros Hin.
       repeat (apply elem_of_cons in Hin as [Hin|Hin]; [discriminate|]).
       by apply elem_of_nil in Hin. }
  rewrite decide_True by done. by destruct (LookupEnv var).
Qed.

(** X13. With the target [name] declared, the override [name.k=val] of a
    key [k] without dot, other than args and contexts, parses to a table
    with one entry for [name] and one for [k]: the value is recorded as
    the only element of the array for the keys that newOverrides treats as
    lists, and as the scalar for every other key. *)
Theorem X13_newOverrides_single (name k val : string) (decl : Target) :
  find_target c name = Some decl ->
  cut "." name = None -> cut "=" name = None ->
  cut "." k = None -> cut "=" k = None ->
  k ≠ "args" -> k ≠ "contexts" ->
  newOverrides c [name +:+ "." +:+ k +:+ "=" +:+ val]
  = Ok {[name := {[k := if bool_decide (k ∈ list_keys)
                        then {| Value := ""; ArrValue := Some [val] |}
                        else {| Value := val; ArrValue := None |}]}]}.
Proof.
  intros Hdecl Hn1 Hn2 Hk1 Hk2 Hargs Hctx. unfold newOverrides. cbn [newOverrides_from].
  rewrite (newOverrides_entry_plain name k val decl) by done.
  cbn [mbind res_bind]. rewrite lookup_empty. cbn [default from_option id].
  rewrite lookup_empty. cbn [default from_option id Value ArrValue append elems app].
  by rewrite !insert_empty.
Qed.

(** X14. The value of an override is read by AddOverrides from the scalar
    for network and from the array for ulimits, no-cache-filter and
    annotations, while newOverrides records the value of network in the
    array and those of the other three in the scalar. So, with [name]
    declared, applying the table parsed from [name.network=val] sets the
    network mode to the empty string; applying that of [name.ulimits=val]
    or [name.no-cache-filter=val] sets the field to nil; and applying that
    of [name.annotations=val] changes nothing. *)
Theorem X14_override_value_not_applied (name val : string) (decl : Target) :
  find_target c name = Some decl ->
  cut "." name = None -> cut "=" name = None ->
  forall k,
    k ∈ ["network"; "ulimits"; "no-cache-filter"; "annotations"] ->
    exists o,
      newOverrides c [name +:+ "." +:+ k +:+ "=" +:+ val] = Ok o /\
      forall (t : Target) (ent : EntitlementConf),
        AddOverrides t (default ∅ (o !! name)) ent
        = Ok (if decide (k = "network") then set_NetworkMode (Some "") t
              else if decide (k = "ulimits") then set_Ulimits None t
              else if decide (k = "no-cache-filter") then set_NoCacheFilter None t
              else t, ent).
Proof.
  intros Hdecl Hn1 Hn2 k Hk.
  assert (Hparse : newOverrides c [name +:+ "." +:+ k +:+ "=" +:+ val]
            = Ok {[name := {[k := if bool_decide (k ∈ list_keys)
                                  then {| Value := ""; ArrValue := Some [val] |}
                                  else {| Value := val; ArrValue := None |}]}]}).
  { unfold newOverrides. cbn [newOverrides_from].
    rewrite (newOverrides_entry_plain name k val decl).
    - cbn [mbind res_bind]. rewrite lookup_empty. cbn [default from_option id].
      rewrite lookup_empty. cbn [default from_option id Value ArrValue append elems app].
      by rewrite !insert_empty.
    - done.
    - done.
    - done.
    - repeat (apply elem_of_cons in Hk as [->|Hk]; [done|]). by apply elem_of_nil in Hk.
    - repeat (apply elem_of_cons in Hk as [->|Hk]; [done|]). by apply elem_of_nil in Hk.
    - repeat (apply elem_of_cons in Hk as [->|Hk]; [done|]). by apply elem_of_nil in Hk.
    - repeat (apply elem_of_cons in Hk as [->|Hk]; [done|]). by apply elem_of_nil in Hk. }
  eexists. split; [exact Hparse|].
  intros t ent. rewrite lookup_singleton_eq. cbn [default from_option id].
  unfold AddOverrides. rewrite range_order_singleton.
  repeat (apply elem_of_cons in Hk as [->|Hk]; [by destruct t|]).
  by apply elem_of_nil in Hk.
Qed.

(** X15. With the target [name] declared, the override [name.args.var]
    written without a value takes the value of the environment variable
    [var]: it parses to the scalar entry args.var when the variable is
    set, which applied to a target sets its build argument [var]; when the
    variable is not set it records no override, leaving an empty table for
    [name], which applied to a target changes nothing. *)
Theorem X15_args_from_environment (name var : string) (decl : Target) :
  find_target c name = Some decl ->
  cut "." name = None -> cut "=" name = None -> cut "=" var = None ->
  (forall x, LookupEnv var = Some x ->
     newOverrides c [name +:+ ".args." +:+ var]
     = Ok {[name := {["args." +:+ var := {| Value := x; ArrValue := None |}]}]} /\
     forall (t : Target) (ent : EntitlementConf),
       AddOverrides t {["args." +:+ var := {| Value := x; ArrValue := None |}]} ent
       = Ok (set_Args (Some (<[var := Some x]> (default ∅ (Args t)))) t, ent)) /\
  (LookupEnv var = None ->
     newOverrides c [name +:+ ".args." +:+ var] = Ok {[name := ∅]} /\
     forall (t : Target) (ent : EntitlementConf), AddOverrides t ∅ ent = Ok (t, ent)).
Proof.
  intros Hdecl Hn1 Hn2 Hv2.
  assert (Hparse : newOverrides c [name +:+ ".args." +:+ var]
            = Ok {[name := match LookupEnv var with
                           | Some x => {["args." +:+ var := {| Value := x; ArrValue := None |}]}
                           | None => ∅
                           end]}).
  { unfold newOverrides. cbn [newOverrides_from].
    rewrite (newOverrides_entry_env name var decl) by done.
    cbn [mbind res_bind]. rewrite lookup_empty. cbn [default from_option id].
    rewrite lookup_empty. cbn [default from_option id ArrValue].
    rewrite insert_empty. by destruct (LookupEnv var); rewrite ?insert_empty. }
  split.
  - intros x Hx. rewrite Hparse, Hx. split; [done|]. intros t ent.
    unfold AddOverrides. rewrite range_order_singleton. cbn [range_fold].
    unfold AddOverrides_body.
    assert (Hkeys : SplitN ("args." +:+ var) "." 2 = ["args"; var]).
    { rewrite SplitN_2. by norm_append. }
    rewrite Hkeys. cbn [hd]. by repeat (case_decide; [discriminate|]).
  - intros Hx. rewrite Hparse, Hx. split; [done|]. intros t ent.
    unfold AddOverrides.
    assert (Hnil : range_order Override ∅ = []).
    { apply Permutation_nil_r. by rewrite range_order_perm, map_to_list_empty. }
    by rewrite Hnil.
Qed.

End OverrideParsing.

Lemma X13_newOverrides_single_witness :
  newOverrides sample_config ["web" +:+ "." +:+ "platform" +:+ "=" +:+ "linux/amd64"]
  = Ok {["web" := {["platform" := if bool_decide ("platform" ∈ list_keys)
                                  then {| Value := ""; ArrValue := Some ["linux/amd64"] |}
                                  else {| Value := "linux/amd64"; ArrValue := None |}]}]}.
Proof.
  by apply (X13_newOverrides_single sample_config "web" "platform" "linux/amd64"
              sample_web_decl).
Defined.

Lemma X14_override_value_not_applied_witness :
  exists o,
    newOverrides sample_config ["web" +:+ "." +:+ "network" +:+ "=" +:+ "host"] = Ok o /\
    forall (t : Target) (ent : EntitlementConf),
      AddOverrides t (default ∅ (o !! "web")) ent = Ok (set_NetworkMode (Some "") t, ent).
Proof.
  apply (X14_override_value_not_applied sample_config "web" "host" sample_web_decl
           eq_refl eq_refl eq_refl "network").
  by left.
Defined.

Lemma X15_args_from_environment_witness :
  newOverrides sample_config ["web" +:+ ".args." +:+ "VERSION"] = Ok {["web" := ∅]} /\
  forall (t : Target) (ent : EntitlementConf), AddOverrides t ∅ ent = Ok (t, ent).
Proof.
  by apply (X15_args_from_environment sample_config "web" "VERSION" sample_web_decl).
Defined.
